(** * FedEx server: the bandit policy of [federatedscope/autotune/fedex/server.py]

    A shallow embedding of [FedExServer]'s policy engine: construction,
    [entropy], [mle], [sample] and [update_policy], with the feedback list
    that [check_and_move_on] hands to [update_policy].

    Numbers.  The program computes with numpy [float64] arrays.  They are
    modelled as lists of mathematical reals ([R]) with [exp], [ln] and
    [sqrt] of the standard library: every statement below is about the
    exact, rounding-free reading of the program, except those on
    [float64.step], which keep the range of binary64 (overflow to an
    infinity, not-a-number) for the renormalisation of lines 215-217.
    [float('inf')] is kept as a separate constructor ([Inf]) where the
    source writes it.

    Exceptions.  A Python exception leaves the object with whatever was
    mutated before the [raise]; the model of a method therefore returns the
    final object together with the exception, if any. *)

From Stdlib Require Import String Reals Lra Lia Bool Arith ZArith List.
Import ListNotations.
Open Scope R_scope.

(** ** Exceptions and results *)

Inductive exn : Type :=
| NameError            (* a name that the module never binds *)
| AttributeError       (* an attribute that was never assigned *)
| IndexError           (* subscript out of range *)
| ValueError           (* reduction of an empty array *)
| NotImplementedError.

Inductive result (A : Type) : Type :=
| Return (a : A)
| Raise (e : exn).
Arguments Return {A} a.
Arguments Raise {A} e.

Definition bind {A B : Type} (r : result A) (k : A -> result B) : result B :=
  match r with
  | Return a => k a
  | Raise e => Raise e
  end.

Notation "x <- c ;; k" := (bind c (fun x => k))
  (at level 61, c at next level, right associativity).

(** Subscript [l[i]] on a Python list or a numpy vector, [i >= 0]. *)
Definition subscript {A : Type} (l : list A) (i : nat) : result A :=
  match nth_error l i with
  | Some a => Return a
  | None => Raise IndexError
  end.

(** Item assignment [l[i] = v]; the caller has checked the range. *)
Fixpoint setitem {A : Type} (l : list A) (i : nat) (v : A) : list A :=
  match l, i with
  | [], _ => []
  | _ :: t, O => v :: t
  | h :: t, S j => h :: setitem t j v
  end.

(** ** numpy and scipy on vectors of reals *)

Module np.

Definition sum (a : list R) : R := fold_right Rplus 0 a.

Definition prod (a : list R) : R := fold_right Rmult 1 a.

(** [np.inner] of two vectors of one length. *)
Definition inner (a b : list R) : R :=
  sum (map (fun xy => fst xy * snd xy) (combine a b)).

Definition zeros (n : nat) : list R := repeat 0 n.

Definition full (n : nat) (v : R) : list R := repeat v n.

Definition exp (a : list R) : list R := map Rtrigo_def.exp a.

(** [a[a > 0.0]]: boolean-mask selection. *)
Definition positive (x : R) : bool := if Rlt_dec 0 x then true else false.

Definition select_positive (a : list R) : list R := filter positive a.

(** [a.argmax()]: the first index of a largest entry; [ValueError] on an
    empty vector. *)
Fixpoint argmax_from (best : R) (besti : nat) (i : nat) (a : list R) : nat :=
  match a with
  | [] => besti
  | x :: t =>
      if Rlt_dec best x then argmax_from x i (S i) t
      else argmax_from best besti (S i) t
  end.

Definition argmax (a : list R) : result nat :=
  match a with
  | [] => Raise ValueError
  | x :: t => Return (argmax_from x 0%nat 1%nat t)
  end.

(** [a.max()]; [ValueError] on an empty vector. *)
Definition max (a : list R) : result R :=
  match a with
  | [] => Raise ValueError
  | x :: t => Return (fold_left Rmax t x)
  end.

(** [np.all(a == 0.0)]. *)
Definition all_zero (a : list R) : bool :=
  forallb (fun x => if Req_dec_T x 0 then true else false) a.

End np.

(** [scipy.special.logsumexp]: it reduces with [np.amax] first, which
    raises [ValueError] on an empty vector. *)
Definition logsumexp (a : list R) : result R :=
  match a with
  | [] => Raise ValueError
  | _ => Return (ln (np.sum (np.exp a)))
  end.

(** [itertools.product] applied to the vectors of [ls]: tuples in
    lexicographic order, the last position varying fastest; one empty tuple
    when [ls] is empty. *)
Fixpoint product (ls : list (list R)) : list (list R) :=
  match ls with
  | [] => [[]]
  | l :: rest => flat_map (fun x => map (cons x) (product rest)) l
  end.

(** [discounted_mean(trace, factor)]:
    [weight = factor ** np.flip(np.arange(len(trace)))]. *)
Definition discounted_mean (trace : list R) (factor : R) : R :=
  let weight := map (pow factor) (rev (seq 0 (length trace))) in
  np.inner trace weight / np.sum weight.

(** ** Data model *)

(** One candidate configuration: hyper-parameter names with their values. *)
Definition hyperparam : Type := list (string * R).

(** The options under [config.hpo.fedex] that the server reads. *)
Record fedex_cfg : Type := {
  flatten_ss : bool;
  num_arms : nat;
  diff : bool;
  gamma : R;
  sched : string;
  cutoff : R
}.

(** [self._trace]: a dict with the four keys below, each a list. *)
Record trace_t : Type := {
  tr_global : list R;
  tr_refine : list R;
  tr_entropy : list R;
  tr_mle : list R
}.

(** The attributes of [FedExServer] that the policy uses. *)
Record FedExServer : Type := {
  _cfsp : list (list hyperparam);
  _eta0 : list R;
  _z : list (list R);
  _theta : list (list R);
  _store : list R;
  _trace : trace_t;
  _stop_exploration : bool
}.

(** An element of [feedbacks]: the tuple [(sample_size, arms, loss)] that
    [check_and_move_on] builds from a client's message
    ([content[0]], [content[2]], [content[3]]). *)
Record feedback : Type := {
  sample_size : R;     (* tp[0] *)
  arms : list nat;     (* tp[1] *)
  loss : R             (* tp[2] *)
}.

(** [float64] values that may be [float('inf')]. *)
Inductive float_inf : Type :=
| Finite (r : R)
| Inf.

(** [x / d] for a finite [x]. *)
Definition divide (x : R) (d : float_inf) : R :=
  match d with
  | Finite r => x / r
  | Inf => 0
  end.

(** ** The methods, in a state-and-exception monad over the object *)

Definition M (A : Type) : Type := FedExServer -> result A * FedExServer.

Definition ret {A : Type} (a : A) : M A := fun self => (Return a, self).

Definition raise {A : Type} (e : exn) : M A := fun self => (Raise e, self).

Definition lift {A : Type} (r : result A) : M A := fun self => (r, self).

Definition bindM {A B : Type} (c : M A) (k : A -> M B) : M B :=
  fun self =>
    match c self with
    | (Return a, self') => k a self'
    | (Raise e, self') => (Raise e, self')
    end.

Notation "x <~ c ;; k" := (bindM c (fun x => k))
  (at level 61, c at next level, right associativity).
Notation "c ;;; k" := (bindM c (fun _ => k))
  (at level 61, right associativity).

Definition get : M FedExServer := fun self => (Return self, self).

Definition modify (f : FedExServer -> FedExServer) : M unit :=
  fun self => (Return tt, f self).

Fixpoint for_each {A : Type} (l : list A) (body : A -> M unit) : M unit :=
  match l with
  | [] => ret tt
  | a :: t => body a ;;; for_each t body
  end.

(** Field updates. *)
Definition with_z (v : list (list R)) (s : FedExServer) : FedExServer :=
  {| _cfsp := _cfsp s; _eta0 := _eta0 s; _z := v; _theta := _theta s;
     _store := _store s; _trace := _trace s;
     _stop_exploration := _stop_exploration s |}.

Definition with_theta (v : list (list R)) (s : FedExServer) : FedExServer :=
  {| _cfsp := _cfsp s; _eta0 := _eta0 s; _z := _z s; _theta := v;
     _store := _store s; _trace := _trace s;
     _stop_exploration := _stop_exploration s |}.

Definition with_store (v : list R) (s : FedExServer) : FedExServer :=
  {| _cfsp := _cfsp s; _eta0 := _eta0 s; _z := _z s; _theta := _theta s;
     _store := v; _trace := _trace s;
     _stop_exploration := _stop_exploration s |}.

Definition with_trace (v : trace_t) (s : FedExServer) : FedExServer :=
  {| _cfsp := _cfsp s; _eta0 := _eta0 s; _z := _z s; _theta := _theta s;
     _store := _store s; _trace := v;
     _stop_exploration := _stop_exploration s |}.

Definition with_stop (v : bool) (s : FedExServer) : FedExServer :=
  {| _cfsp := _cfsp s; _eta0 := _eta0 s; _z := _z s; _theta := _theta s;
     _store := _store s; _trace := _trace s;
     _stop_exploration := v |}.

(** [self._trace[key].append(v)]. *)
Definition append_global (v : R) (t : trace_t) : trace_t :=
  {| tr_global := tr_global t ++ [v]; tr_refine := tr_refine t;
     tr_entropy := tr_entropy t; tr_mle := tr_mle t |}.

Definition append_refine (v : R) (t : trace_t) : trace_t :=
  {| tr_global := tr_global t; tr_refine := tr_refine t ++ [v];
     tr_entropy := tr_entropy t; tr_mle := tr_mle t |}.

Definition append_entropy (v : R) (t : trace_t) : trace_t :=
  {| tr_global := tr_global t; tr_refine := tr_refine t;
     tr_entropy := tr_entropy t ++ [v]; tr_mle := tr_mle t |}.

Definition append_mle (v : R) (t : trace_t) : trace_t :=
  {| tr_global := tr_global t; tr_refine := tr_refine t;
     tr_entropy := tr_entropy t; tr_mle := tr_mle t ++ [v] |}.

Definition trace_append (app : R -> trace_t -> trace_t) (v : R) : M unit :=
  modify (fun s => with_trace (app v (_trace s)) s).

(** [entropy]: the loop over [product] of the positive entries of every
    [theta], with [entropy -= prob * np.log(prob)]. *)
Definition entropy (theta : list (list R)) : R :=
  fold_left
    (fun entropy probs =>
       let prob := np.prod probs in entropy - prob * ln prob)
    (product (map np.select_positive theta))
    0.

(** [mle]: [np.prod([theta.max() for theta in self._theta])]. *)
Fixpoint maxima (theta : list (list R)) : result (list R) :=
  match theta with
  | [] => Return []
  | t :: rest => m <- np.max t ;; ms <- maxima rest ;; Return (m :: ms)
  end.

Definition mle (theta : list (list R)) : result R :=
  ms <- maxima theta ;; Return (np.prod ms).

Fixpoint traverse {A B : Type} (f : A -> result B) (l : list A)
  : result (list B) :=
  match l with
  | [] => Return []
  | a :: t => b <- f a ;; bs <- traverse f t ;; Return (b :: bs)
  end.

(** [__init__], up to the call of the base class.  [random_search] stands
    for [random_search(tbd_config, .)] of [federatedscope.autotune.algos].
    With [flatten_ss] off the branch is [pass], so the read of [self._cfsp]
    on the next line finds no such attribute. *)
Definition __init__ (cfg : fedex_cfg) (random_search : nat -> list hyperparam)
  : result FedExServer :=
  cfsp <- (if flatten_ss cfg
           then Return [random_search (num_arms cfg)]
           else Raise AttributeError) ;;
  let sizes := map (@List.length hyperparam) cfsp in
  let eta0 := map (fun size => sqrt (2 * ln (INR size))) sizes in
  let z := map (fun size => np.full size (- ln (INR size))) sizes in
  let theta := map np.exp z in
  let store := map (fun _ => 0) sizes in
  let e := entropy theta in
  m <- mle theta ;;
  Return {| _cfsp := cfsp; _eta0 := eta0; _z := z; _theta := theta;
            _store := store;
            _trace := {| tr_global := []; tr_refine := [];
                         tr_entropy := [e]; tr_mle := [m] |};
            _stop_exploration := false |}.

(** [sample].  [choice k theta] stands for the draw
    [np.random.choice(len(theta), p=theta)] made for aspect [k]. *)
Definition sample (choice : nat -> list R -> result nat) (self : FedExServer)
  : result (list nat * list hyperparam) :=
  cfg_idx <- (if _stop_exploration self
              then traverse np.argmax (_theta self)
              else traverse (fun kt => choice (fst kt) (snd kt))
                     (combine (seq 0 (List.length (_theta self)))
                        (_theta self))) ;;
  sampled_cfg <- traverse (fun isps => subscript (snd isps) (fst isps))
                   (combine cfg_idx (_cfsp self)) ;;
  Return (cfg_idx, sampled_cfg).

(** *** [update_policy] *)

(** Element-wise [a - b] of two vectors of one length. *)
Definition vsub (a b : list R) : list R :=
  map (fun xy => fst xy - snd xy) (combine a b).

(** The name [norm] is used on lines 199 and 203 but the module never
    imports or defines it: evaluating it raises [NameError]. *)
Definition norm (x : list R) (ord : float_inf) : result R := Raise NameError.

(** Lines 174-175: both arrays are read from [tp[2]]. *)
Definition before (feedbacks : list feedback) : list R := map loss feedbacks.
Definition after (feedbacks : list feedback) : list R := map loss feedbacks.

(** Line 171-172. *)
Definition weight (feedbacks : list feedback) : list R :=
  let weight := map sample_size feedbacks in
  map (fun w => w / np.sum weight) weight.

(** Line 195: [after - before if self._cfg.hpo.fedex.diff else after]. *)
Definition signal (cfg : fedex_cfg) (feedbacks : list feedback) : list R :=
  if diff cfg then vsub (after feedbacks) (before feedbacks)
  else after feedbacks.

(** Lines 177-183. *)
Definition baseline (cfg : fedex_cfg) (t : trace_t) : R :=
  match tr_refine t with
  | [] => 0
  | _ =>
      let trace := tr_refine t in
      let trace := if diff cfg then vsub trace (tr_global t) else trace in
      discounted_mean trace (gamma cfg)
  end.

(** Line 197: [grad[idx[i]] += w * (s - baseline) / theta[idx[i]]]. *)
Definition accumulate (i : nat) (theta : list R) (baseline : R)
    (grad : list R) (isw : list nat * (R * R)) : result (list R) :=
  let idx := fst isw in
  let s := fst (snd isw) in
  let w := snd (snd isw) in
  a <- subscript idx i ;;
  g <- subscript grad a ;;
  p <- subscript theta a ;;
  Return (setitem grad a (g + w * (s - baseline) / p)).

(** Lines 192-197: the loop over [zip(index, signal, weight)]. *)
Fixpoint gradient (i : nat) (theta : list R) (baseline : R) (grad : list R)
    (l : list (list nat * (R * R))) : result (list R) :=
  match l with
  | [] => Return grad
  | isw :: t =>
      g <- accumulate i theta baseline grad isw ;;
      gradient i theta baseline g t
  end.

Definition store_get (i : nat) : M R :=
  self <~ get ;; lift (subscript (_store self) i).

Definition store_set (i : nat) (v : R) : M unit :=
  modify (fun s => with_store (setitem (_store s) i v) s).

(** Lines 198-213: the step denominator of aspect [i]. *)
Definition denominator (cfg : fedex_cfg) (i : nat) (grad : list R)
  : M float_inf :=
  if String.eqb (sched cfg) "adaptive" then
    s <~ store_get i ;;
    n <~ lift (norm grad Inf) ;;
    store_set i (s + n ^ 2) ;;;
    s' <~ store_get i ;;
    ret (Finite (sqrt s'))
  else if String.eqb (sched cfg) "aggressive" then
    if np.all_zero grad then ret (Finite 1)
    else n <~ lift (norm grad Inf) ;; ret (Finite n)
  else if String.eqb (sched cfg) "auto" then
    s <~ store_get i ;;
    store_set i (s + 1) ;;;
    s' <~ store_get i ;;
    ret (Finite (sqrt s'))
  else if String.eqb (sched cfg) "constant" then
    ret (Finite 1)
  else if String.eqb (sched cfg) "scale" then
    ret (if Nat.ltb 1 (List.length grad)
         then Finite (1 / sqrt (2 * ln (INR (List.length grad))))
         else Inf)
  else raise NotImplementedError.

(** Lines 191-217: the body of the loop over the aspects.  [z] is the
    array object stored in [self._z[i]], updated in place. *)
Definition aspect_step (cfg : fedex_cfg) (feedbacks : list feedback)
    (baseline : R) (i : nat) : M unit :=
  self <~ get ;;
  z <~ lift (subscript (_z self) i) ;;
  theta <~ lift (subscript (_theta self) i) ;;
  let index := map arms feedbacks in
  grad <~ lift (gradient i theta baseline (np.zeros (List.length z))
                  (combine index
                     (combine (signal cfg feedbacks) (weight feedbacks)))) ;;
  denom <~ denominator cfg i grad ;;
  eta0 <~ lift (subscript (_eta0 self) i) ;;
  let eta := divide eta0 denom in
  let z := vsub z (map (Rmult eta) grad) in
  modify (fun s => with_z (setitem (_z s) i z) s) ;;;
  lse <~ lift (logsumexp z) ;;
  let z := map (fun x => x - lse) z in
  modify (fun s => with_z (setitem (_z s) i z) s) ;;;
  modify (fun s => with_theta (setitem (_theta s) i (np.exp z)) s).

Definition update_policy (cfg : fedex_cfg) (feedbacks : list feedback)
  : M unit :=
  self <~ get ;;
  let baseline := baseline cfg (_trace self) in
  trace_append append_global
    (np.inner (before feedbacks) (weight feedbacks)) ;;;
  trace_append append_refine
    (np.inner (after feedbacks) (weight feedbacks)) ;;;
  if _stop_exploration self then
    trace_append append_entropy 0 ;;;
    trace_append append_mle 1
  else
    for_each
      (seq 0 (Nat.min (List.length (_z self)) (List.length (_theta self))))
      (aspect_step cfg feedbacks baseline) ;;;
    self <~ get ;;
    trace_append append_entropy (entropy (_theta self)) ;;;
    m <~ lift (mle (_theta self)) ;;
    trace_append append_mle m ;;;
    if Rlt_dec (entropy (_theta self)) (cutoff cfg)
    then modify (with_stop true)
    else ret tt.

(** ** Notions used in the statements *)

(** What a piece of [update_policy]'s loop may touch: the arrays of the
    aspects and the accumulators, never the traces, the step bases, the
    candidates or the flag, and never the number of aspects. *)
Definition same_frame (s s' : FedExServer) : Prop :=
  _trace s' = _trace s /\
  _stop_exploration s' = _stop_exploration s /\
  _cfsp s' = _cfsp s /\
  _eta0 s' = _eta0 s /\
  List.length (_z s') = List.length (_z s) /\
  List.length (_theta s') = List.length (_theta s) /\
  List.length (_store s') = List.length (_store s).


(** The object after [update_policy], whether it returned or raised. *)
Definition after_update (cfg : fedex_cfg) (feedbacks : list feedback)
    (self : FedExServer) : FedExServer :=
  snd (update_policy cfg feedbacks self).

(** The object after a sequence of rounds, one batch of feedback each. *)
Definition rounds (cfg : fedex_cfg) (batches : list (list feedback))
    (self : FedExServer) : FedExServer :=
  fold_left (fun s fbs => after_update cfg fbs s) batches self.

(** [k] is the first position of a largest entry of [a]. *)
Definition first_argmax (a : list R) (k : nat) : Prop :=
  exists m,
    nth_error a k = Some m /\
    (forall j x, nth_error a j = Some x -> x <= m) /\
    (forall j x, (j < k)%nat -> nth_error a j = Some x -> x < m).

(** A frozen server with as many candidates as probabilities per aspect. *)
Definition sampleable (s : FedExServer) : Prop :=
  Forall2 (fun th sps => th <> [] /\ List.length th = List.length sps)
    (_theta s) (_cfsp s).

(** [cfgs] are the candidates of the aspects at positions [idx]. *)
Definition selects (cfsp : list (list hyperparam)) (idx : list nat)
    (cfgs : list hyperparam) : Prop :=
  Forall2 (fun isps c => nth_error (snd isps) (fst isps) = Some c)
    (combine idx cfsp) cfgs.

(** The object that [__init__] builds from the candidate list [cands]. *)
Definition initial (cands : list hyperparam) (m : R) : FedExServer :=
  let size := List.length cands in
  let theta := [np.exp (np.full size (- ln (INR size)))] in
  {| _cfsp := [cands];
     _eta0 := [sqrt (2 * ln (INR size))];
     _z := [np.full size (- ln (INR size))];
     _theta := theta;
     _store := [0];
     _trace := {| tr_global := []; tr_refine := [];
                  tr_entropy := [entropy theta]; tr_mle := [m] |};
     _stop_exploration := false |}.

(** The schedule names that [update_policy] knows. *)
Definition known_schedules : list string :=
  ["adaptive"; "aggressive"; "auto"; "constant"; "scale"]%string.

(** Every tuple of the batch names, for aspect [i], an arm below [n]. *)
Definition arms_in_range (i n : nat) (fbs : list feedback) : Prop :=
  Forall (fun fb => exists a, nth_error (arms fb) i = Some a /\ (a < n)%nat) fbs.

Definition three_arms : list hyperparam :=
  [[("lr"%string, 1)]; [("lr"%string, 2)]; [("lr"%string, 3)]].

Definition example_cfg (flatten use_diff : bool) (schedule : string)
  : fedex_cfg :=
  {| flatten_ss := flatten; num_arms := 3; diff := use_diff; gamma := 0;
     sched := schedule; cutoff := 0 |}.

(** A server whose exploration has stopped. *)
Definition frozen_example : FedExServer :=
  {| _cfsp := [three_arms];
     _eta0 := [sqrt (2 * ln 3)];
     _z := [[ln (1 / 4); ln (1 / 2); ln (1 / 4)]];
     _theta := [[1 / 4; 1 / 2; 1 / 4]];
     _store := [1];
     _trace := {| tr_global := [1]; tr_refine := [1];
                  tr_entropy := [1; 0]; tr_mle := [1 / 3; 1 / 2] |};
     _stop_exploration := true |}.

(** One client that played arm [a] and reports the loss [l]. *)
Definition played (a : nat) (l : R) : feedback :=
  {| sample_size := 1; arms := [a]; loss := l |}.

(** The joint entropy as the specification words it: minus the sum of
    [p * log p] over the joint assignments of positive-probability
    entries. *)
Definition joint_entropy (theta : list (list R)) : R :=
  - np.sum (map (fun p => p * ln p)
              (map np.prod (product (map np.select_positive theta)))).

(** The probabilities of all joint assignments, one arm per aspect. *)
Definition joint_probabilities (theta : list (list R)) : list R :=
  map np.prod (product theta).

(** Non-negative entries that sum to one. *)
Definition distribution (th : list R) : Prop :=
  Forall (fun p => 0 <= p) th /\ np.sum th = 1.

(** One client per arm, all with the sample size [w]; arm 0 reports the
    loss [l0], arms 1 and 2 report [l1]. *)
Definition one_per_arm (w l0 l1 : R) : list feedback :=
  [ {| sample_size := w; arms := [0%nat]; loss := l0 |};
    {| sample_size := w; arms := [1%nat]; loss := l1 |};
    {| sample_size := w; arms := [2%nat]; loss := l1 |} ].

(** Options with an entropy cutoff above the entropy of the uniform
    distribution on three arms. *)
Definition eager_cfg : fedex_cfg :=
  {| flatten_ss := true; num_arms := 3; diff := false; gamma := 0;
     sched := "auto"; cutoff := 2 |}.

(** The server on three candidates after a first round in which the three
    arms report the same loss. *)
Definition after_equal_round : FedExServer :=
  after_update eager_cfg (one_per_arm 1 1 1) (initial three_arms (1 / 3)).

(** The same tuple from a client whose sample size is counted in another
    unit. *)
Definition rescale (c : R) (fb : feedback) : feedback :=
  {| sample_size := c * sample_size fb; arms := arms fb; loss := loss fb |}.

(** Aspect [i] of [s] is in a consistent, normalised state, has a step
    base and an accumulator, and every tuple of the batch names one of its
    arms. *)
Definition steady (fbs : list feedback) (s : FedExServer) (i : nat) : Prop :=
  exists z,
    nth_error (_z s) i = Some z /\
    nth_error (_theta s) i = Some (np.exp z) /\
    np.sum (np.exp z) = 1 /\
    (i < List.length (_eta0 s))%nat /\
    (i < List.length (_store s))%nat /\
    arms_in_range i (List.length z) fbs.

(** No tuple of the batch played arm [a] of aspect [i]. *)
Definition unplayed (i a : nat) (fbs : list feedback) : Prop :=
  Forall (fun fb => nth_error (arms fb) i <> Some a) fbs.

(** ** The round coordinator

    The rest of [FedExServer]: [broadcast_model_para],
    [callback_funcs_model_para], [check_and_move_on] and [check_and_save].
    The methods of the base class and the collaborating objects are not
    part of the file.  Those whose result the server reads are taken as
    parameters ([collaborators]); the calls that only hand data over
    (aggregation, noise injection, sending, saving) are recorded, in order,
    in a log of events.  The model parameters that travel with the
    messages are the collaborators' and are left out of the events.  The
    file that [check_and_save] itself opens and writes is the file
    system's: whether that succeeds is a parameter too, and a failure
    raises [OSError]. *)

(** Python dicts, in insertion order. *)
Definition dict (K V : Type) : Type := list (K * V).

Fixpoint dict_get {K V : Type} (eqb : K -> K -> bool) (k : K) (d : dict K V)
  : option V :=
  match d with
  | [] => None
  | (k', v) :: t => if eqb k k' then Some v else dict_get eqb k t
  end.

(** [d[k] = v]: replaces the value of a present key in place, appends a
    new key. *)
Fixpoint dict_set {K V : Type} (eqb : K -> K -> bool) (k : K) (v : V)
    (d : dict K V) : dict K V :=
  match d with
  | [] => [(k, v)]
  | (k', v') :: t =>
      if eqb k k' then (k', v) :: t else (k', v') :: dict_set eqb k v t
  end.

(** The second element of a client's reply: the parameters of the one
    model (a state dict), or a list with those of each model. *)
Inductive para : Type :=
| Single (state_dict : list R)
| Multiple (state_dicts : list (list R)).

(** The content of a client's reply:
    [(sample_size, model_para, arms, loss)]. *)
Record reply : Type := {
  r_size : R;          (* content[0] *)
  r_para : para;       (* content[1] *)
  r_arms : list nat;   (* content[2] *)
  r_loss : R           (* content[3] *)
}.

(** What the server puts, besides the model parameters, into a message. *)
Inductive payload : Type :=
| hyper (arms : list nat) (hyperparams : list hyperparam)
| model_only.

(** Calls on the collaborators. *)
Inductive event : Type :=
| aggregate (model_idx : nat) (client_feedback : list (R * para))
| aggregator_inc (msg : R * para)
| aggregator_reset (idx : nat)
| inject_noise (model_idx : nat)
| send (msg_type : string) (receiver : list Z) (state : Z) (content : payload)
| save_best_results
| save_policy (z : list (list R)).

(** The options outside [hpo.fedex] that the coordinator reads. *)
Record server_cfg : Type := {
  hpo_fedex : fedex_cfg;
  eval_freq : Z;
  eval_monitoring : list string;
  best_res_update_round_wise_key : string;
  online_aggr : bool;
  save_to : string;
  outdir : string
}.

(** The server object: the policy with the attributes of the base class
    that this file reads or writes. *)
Record Server : Type := {
  policy : FedExServer;
  state : Z;
  total_round_num : Z;
  client_num : Z;
  sample_client_num : Z;
  model_num : nat;
  msg_buffer_train : dict Z (dict Z reply);
  history_results : dict string (dict string R);
  neighbors : list Z;
  has_noise_injector : bool;
  log : list event
}.

Inductive error : Type :=
| Py (e : exn)
| KeyError
| ZeroDivisionError
| OSError.

Inductive outcome (A : Type) : Type :=
| Done (a : A)
| Failed (e : error).
Arguments Done {A} a.
Arguments Failed {A} e.

Definition MS (A : Type) : Type := Server -> outcome A * Server.

Definition retS {A : Type} (a : A) : MS A := fun srv => (Done a, srv).

Definition failS {A : Type} (e : error) : MS A := fun srv => (Failed e, srv).

Definition bindS {A B : Type} (c : MS A) (k : A -> MS B) : MS B :=
  fun srv =>
    match c srv with
    | (Done a, srv') => k a srv'
    | (Failed e, srv') => (Failed e, srv')
    end.

Notation "x <-- c ;; k" := (bindS c (fun x => k))
  (at level 61, c at next level, right associativity).
Notation "c ;;;; k" := (bindS c (fun _ => k))
  (at level 61, right associativity).

Definition getS : MS Server := fun srv => (Done srv, srv).

Definition modifyS (f : Server -> Server) : MS unit :=
  fun srv => (Done tt, f srv).

Fixpoint for_eachS {A : Type} (l : list A) (body : A -> MS unit) : MS unit :=
  match l with
  | [] => retS tt
  | a :: t => body a ;;;; for_eachS t body
  end.

Definition with_policy (v : FedExServer) (s : Server) : Server :=
  {| policy := v; state := state s; total_round_num := total_round_num s;
     client_num := client_num s; sample_client_num := sample_client_num s;
     model_num := model_num s; msg_buffer_train := msg_buffer_train s;
     history_results := history_results s; neighbors := neighbors s;
     has_noise_injector := has_noise_injector s; log := log s |}.

Definition with_state (v : Z) (s : Server) : Server :=
  {| policy := policy s; state := v; total_round_num := total_round_num s;
     client_num := client_num s; sample_client_num := sample_client_num s;
     model_num := model_num s; msg_buffer_train := msg_buffer_train s;
     history_results := history_results s; neighbors := neighbors s;
     has_noise_injector := has_noise_injector s; log := log s |}.

Definition with_buffer (v : dict Z (dict Z reply)) (s : Server) : Server :=
  {| policy := policy s; state := state s;
     total_round_num := total_round_num s;
     client_num := client_num s; sample_client_num := sample_client_num s;
     model_num := model_num s; msg_buffer_train := v;
     history_results := history_results s; neighbors := neighbors s;
     has_noise_injector := has_noise_injector s; log := log s |}.

Definition with_history (v : dict string (dict string R)) (s : Server)
  : Server :=
  {| policy := policy s; state := state s;
     total_round_num := total_round_num s;
     client_num := client_num s; sample_client_num := sample_client_num s;
     model_num := model_num s; msg_buffer_train := msg_buffer_train s;
     history_results := v; neighbors := neighbors s;
     has_noise_injector := has_noise_injector s; log := log s |}.

Definition with_log (v : list event) (s : Server) : Server :=
  {| policy := policy s; state := state s;
     total_round_num := total_round_num s;
     client_num := client_num s; sample_client_num := sample_client_num s;
     model_num := model_num s; msg_buffer_train := msg_buffer_train s;
     history_results := history_results s; neighbors := neighbors s;
     has_noise_injector := has_noise_injector s; log := v |}.

(** A call on a collaborator. *)
Definition emit (e : event) : MS unit :=
  modifyS (fun srv => with_log (log srv ++ [e]) srv).

(** A method of the policy, run on the server. *)
Definition on_policy {A : Type} (m : M A) : MS A :=
  fun srv =>
    match m (policy srv) with
    | (Return a, p) => (Done a, with_policy p srv)
    | (Raise e, p) => (Failed (Py e), with_policy p srv)
    end.

(** The parts of the base class and of the collaborators whose results
    the server reads. *)
Record collaborators : Type := {
  (* Server.check_buffer(cur_round, min_received_num, check_eval_result) *)
  check_buffer : Server -> Z -> Z -> bool -> bool;
  (* Server.eval() *)
  eval : MS unit;
  (* Server.merge_eval_results_from_all_clients() *)
  merge_eval_results_from_all_clients : MS (dict string (dict string R));
  (* merge_dict of core.auxiliaries.utils *)
  merge_dict : dict string (dict string R) -> dict string (dict string R)
               -> dict string (dict string R);
  (* early_stopper.track_and_check *)
  track_and_check : R -> bool;
  (* the receivers drawn by np.random.choice(np.arange(1, client_num + 1),
     size, replace=False), for the round in which they are drawn *)
  drawn_receivers : Z -> Z -> Z -> list Z;
  (* the arm drawn by np.random.choice in sample(), for the round, the
     position of the receiver and the aspect *)
  drawn_arm : Z -> nat -> nat -> list R -> result nat;
  (* whether open(os.path.join(dir, name), 'wb') and the np.save into the
     file succeed *)
  open_wb : string -> string -> bool
}.

(** [broadcast_model_para(msg_type, sample_client_num)]. *)
Definition broadcast_model_para (ext : collaborators) (cfg : server_cfg)
    (msg_type : string) (sample_client_num : Z) : MS unit :=
  srv <-- getS ;;
  receiver <--
    (if Z.ltb 0 sample_client_num
     then if Z.ltb (client_num srv) sample_client_num
          then failS (Py ValueError)
          else retS (drawn_receivers ext (state srv) (client_num srv)
                       sample_client_num)
     else retS (neighbors srv)) ;;
  (if has_noise_injector srv && String.eqb msg_type "model_para"
   then for_eachS (seq 0 (model_num srv)) (fun i => emit (inject_noise i))
   else retS tt) ;;;;
  for_eachS (combine (seq 0 (List.length receiver)) receiver)
    (fun krcv =>
       srv <-- getS ;;
       sampled <-- on_policy (lift (sample (drawn_arm ext (state srv)
                                              (fst krcv))
                                      (policy srv))) ;;
       emit (send msg_type [snd krcv] (state srv)
               (hyper (fst sampled) (snd sampled)))) ;;;;
  (if online_aggr cfg
   then for_eachS (seq 0 (model_num srv)) (fun i => emit (aggregator_reset i))
   else retS tt).

(** Lines 327-340: whether to stop early.  The tracked key is looked up
    in the weighted averages first, then in the averages. *)
Definition early_stop (ext : collaborators) (cfg : server_cfg) (srv : Server)
  : bool :=
  let tracked (table : string) : option R :=
    match dict_get String.eqb table (history_results srv) with
    | Some results =>
        dict_get String.eqb (best_res_update_round_wise_key cfg) results
    | None => None
    end in
  match tracked "Results_weighted_avg"%string with
  | Some v => track_and_check ext v
  | None =>
      match tracked "Results_avg"%string with
      | Some v => track_and_check ext v
      | None => false
      end
  end.

(** [check_and_save]. *)
Definition check_and_save (ext : collaborators) (cfg : server_cfg) : MS unit :=
  srv <-- getS ;;
  let should_stop := early_stop ext cfg srv in
  (if should_stop
   then modifyS (fun srv => with_state (total_round_num srv + 1)%Z srv)
   else retS tt) ;;;;
  srv <-- getS ;;
  (if should_stop || Z.eqb (state srv) (total_round_num srv)
   then
     emit save_best_results ;;;;
     (if negb (String.eqb (save_to cfg) "")
      then if open_wb ext (outdir cfg) "policy.npy"
           then emit (save_policy (_z (policy srv)))
           else failS OSError
      else retS tt) ;;;;
     emit (send "finish" (neighbors srv) (state srv) model_only)
   else retS tt) ;;;;
  srv <-- getS ;;
  if Z.eqb (state srv) (total_round_num srv)
  then modifyS (fun srv => with_state (state srv + 1)%Z srv)
  else retS tt.

(** Lines 264-267: the tuple for the policy,
    [(content[0], content[2], content[3])]. *)
Definition mab_feedback (content : reply) : feedback :=
  {| sample_size := r_size content;
     arms := r_arms content;
     loss := r_loss content |}.

(** Lines 251-267: the loop over the buffered clients for one model.  It
    builds the list for the aggregator and, for the first model, the
    feedback for the policy. *)
Fixpoint collect (model_num model_idx : nat) (buffer : dict Z reply)
    (msg_list : list (R * para)) (mab_feedbacks : list feedback)
  : outcome (list (R * para) * list feedback) :=
  match buffer with
  | [] => Done (msg_list, mab_feedbacks)
  | (client_id, content) :: rest =>
      match
        (if Nat.eqb model_num 1
         then Done (r_size content, r_para content)
         else match r_para content with
              | Multiple ds =>
                  match nth_error ds model_idx with
                  | Some d => Done (r_size content, Single d)
                  | None => Failed (Py IndexError)
                  end
              | Single _ => Failed KeyError
              end)
      with
      | Failed e => Failed e
      | Done msg =>
          collect model_num model_idx rest (msg_list ++ [msg])
            (if Nat.eqb model_idx 0
             then mab_feedbacks ++ [mab_feedback content]
             else mab_feedbacks)
      end
  end.

(** Lines 247-284: the loop over the models.  [calc_blocal_dissim] is
    called when ['dissim'] is monitored, but the module never imports or
    defines that name. *)
Fixpoint aggregate_models (cfg : server_cfg) (model_num : nat)
    (model_idxs : list nat) (buffer : dict Z reply)
    (mab_feedbacks : list feedback) : MS (list feedback) :=
  match model_idxs with
  | [] => retS mab_feedbacks
  | model_idx :: rest =>
      match collect model_num model_idx buffer [] mab_feedbacks with
      | Failed e => failS e
      | Done (msg_list, mab_feedbacks) =>
          (if existsb (String.eqb "dissim") (eval_monitoring cfg)
           then failS (Py NameError)
           else retS tt) ;;;;
          emit (aggregate model_idx msg_list) ;;;;
          aggregate_models cfg model_num rest buffer mab_feedbacks
      end
  end.

(** Lines 290-313: after the round counter has been advanced, evaluate
    when due, then start the next round or evaluate for the last time. *)
Definition move_on (ext : collaborators) (cfg : server_cfg) : MS unit :=
  srv <-- getS ;;
  (if Z.eqb (eval_freq cfg) 0 then failS ZeroDivisionError
   else if Z.eqb (state srv mod eval_freq cfg) 0
           && negb (Z.eqb (state srv) (total_round_num srv))
        then eval ext
        else retS tt) ;;;;
  srv <-- getS ;;
  if Z.ltb (state srv) (total_round_num srv) then
    match dict_get Z.eqb (state srv - 1)%Z (msg_buffer_train srv) with
    | Some _ =>
        modifyS (fun srv =>
                   with_buffer
                     (dict_set Z.eqb (state srv - 1)%Z []
                        (msg_buffer_train srv)) srv)
    | None => failS KeyError
    end ;;;;
    broadcast_model_para ext cfg "model_para" (sample_client_num srv)
  else eval ext.

(** [check_and_move_on(check_eval_result)]. *)
Definition check_and_move_on (ext : collaborators) (cfg : server_cfg)
    (check_eval_result : bool) : MS unit :=
  srv <-- getS ;;
  let minimal_number :=
    if check_eval_result then client_num srv else sample_client_num srv in
  if check_buffer ext srv (state srv) minimal_number check_eval_result then
    if negb check_eval_result then
      train_msg_buffer <--
        match dict_get Z.eqb (state srv) (msg_buffer_train srv) with
        | Some b => retS b
        | None => failS KeyError
        end ;;
      mab_feedbacks <--
        aggregate_models cfg (model_num srv) (seq 0 (model_num srv))
          train_msg_buffer [] ;;
      on_policy (update_policy (hpo_fedex cfg) mab_feedbacks) ;;;;
      modifyS (fun srv => with_state (state srv + 1)%Z srv) ;;;;
      move_on ext cfg
    else
      formatted <-- merge_eval_results_from_all_clients ext ;;
      modifyS (fun srv =>
                 with_history (merge_dict ext (history_results srv) formatted)
                   srv) ;;;;
      check_and_save ext cfg
  else retS tt.

(** [callback_funcs_model_para(message)], with [message.state],
    [message.sender] and [message.content]. *)
Definition callback_funcs_model_para (ext : collaborators) (cfg : server_cfg)
    (round sender : Z) (content : reply) : MS unit :=
  modifyS (fun srv =>
             match dict_get Z.eqb round (msg_buffer_train srv) with
             | Some _ => srv
             | None =>
                 with_buffer (dict_set Z.eqb round [] (msg_buffer_train srv))
                   srv
             end) ;;;;
  srv <-- getS ;;
  match dict_get Z.eqb round (msg_buffer_train srv) with
  | Some received =>
      modifyS (with_buffer
                 (dict_set Z.eqb round
                    (dict_set Z.eqb sender content received)
                    (msg_buffer_train srv)))
  | None => failS KeyError
  end ;;;;
  (if online_aggr cfg
   then emit (aggregator_inc (r_size content, r_para content))
   else retS tt) ;;;;
  check_and_move_on ext cfg false.

(** The receivers of a broadcast. *)
Definition receivers_of (ext : collaborators) (srv : Server) (n : Z)
  : list Z :=
  if Z.ltb 0 n
  then drawn_receivers ext (state srv) (client_num srv) n
  else neighbors srv.

(** The messages sent, among the events. *)
Fixpoint sent (l : list event) : list (string * list Z * Z * payload) :=
  match l with
  | [] => []
  | send t r st c :: rest => (t, r, st, c) :: sent rest
  | _ :: rest => sent rest
  end.

(** Example collaborators: quorum is the number of buffered replies,
    evaluation does nothing, nothing stops early, the first clients are
    drawn and arm [0] is sampled. *)
Definition example_collaborators : collaborators :=
  {| check_buffer := fun srv round minimal _ =>
       match dict_get Z.eqb round (msg_buffer_train srv) with
       | Some b => Z.leb minimal (Z.of_nat (List.length b))
       | None => false
       end;
     eval := retS tt;
     merge_eval_results_from_all_clients := retS [];
     merge_dict := fun old new => new ++ old;
     track_and_check := fun _ => false;
     drawn_receivers := fun _ _ n =>
       map Z.of_nat (seq 1 (Z.to_nat n));
     drawn_arm := fun _ _ _ _ => Return 0%nat;
     open_wb := fun _ _ => true |}.

Definition example_server_cfg (schedule : string) (monitoring : list string)
  : server_cfg :=
  {| hpo_fedex := example_cfg true false schedule;
     eval_freq := 10;
     eval_monitoring := monitoring;
     best_res_update_round_wise_key := "val_loss";
     online_aggr := false;
     save_to := "out";
     outdir := "exp" |}.

Definition example_reply (arm : nat) (l : R) : reply :=
  {| r_size := 1; r_para := Single [0]; r_arms := [arm]; r_loss := l |}.

(** A server in round 0 of 3 that has the replies of its two clients. *)
Definition example_server (p : FedExServer) : Server :=
  {| policy := p; state := 0; total_round_num := 3;
     client_num := 2; sample_client_num := 2; model_num := 1;
     msg_buffer_train := [(0%Z, [(1%Z, example_reply 0 1);
                                (2%Z, example_reply 1 2)])];
     history_results := []; neighbors := [1%Z; 2%Z];
     has_noise_injector := false; log := [] |}.

(** [srv'] differs from [srv] at most by its log of events. *)
Definition same_but_log (srv srv' : Server) : Prop :=
  policy srv' = policy srv /\
  state srv' = state srv /\
  total_round_num srv' = total_round_num srv /\
  client_num srv' = client_num srv /\
  sample_client_num srv' = sample_client_num srv /\
  model_num srv' = model_num srv /\
  msg_buffer_train srv' = msg_buffer_train srv /\
  history_results srv' = history_results srv /\
  neighbors srv' = neighbors srv /\
  has_noise_injector srv' = has_noise_injector srv.

(** The batch that a round's buffer gives the policy, and the list it
    gives the aggregator of the one model. *)
Definition batch_of (buffer : dict Z reply) : list feedback :=
  map (fun kc => mab_feedback (snd kc)) buffer.

Definition msg_list_of (buffer : dict Z reply) : list (R * para) :=
  map (fun kc => (r_size (snd kc), r_para (snd kc))) buffer.

(** [m] is the message of the given type that round [round] sends to
    the receiver at position [fst krcv], with what [sample] returned for it
    on the policy [p]. *)
Definition message_for (ext : collaborators) (msg_type : string) (round : Z)
    (p : FedExServer) (krcv : nat * Z)
    (m : string * list Z * Z * payload) : Prop :=
  exists idx cfgs,
    sample (drawn_arm ext round (fst krcv)) p = Return (idx, cfgs) /\
    m = (msg_type, [snd krcv], round, hyper idx cfgs).



(** ** The renormalisation within the range of binary64

    The arrays of the policy are float64.  The definitions above read
    them as reals; the ones below keep what the reals leave out and the
    step relies on: the range.  A value is an infinity, not-a-number, or
    a finite number kept as the real it stands for (rounding and the sign
    of zero are left out); a result of magnitude [2^1024] or more is an
    infinity, as every such result is in binary64; the special values
    combine as IEEE 754 has them. *)

Module float64.

Inductive float : Type :=
  | nan
  | pinf
  | ninf
  | fin (r : R).

Definition huge : R := 2 ^ 1024.

Definition of_real (r : R) : float :=
  if Rle_dec huge r then pinf
  else if Rle_dec r (- huge) then ninf
  else fin r.


(** [np.isfinite]. *)
Definition isfinite (x : float) : bool :=
  match x with
  | fin _ => true
  | _ => false
  end.

Definition opp (x : float) : float :=
  match x with
  | nan => nan
  | pinf => ninf
  | ninf => pinf
  | fin r => fin (- r)
  end.

Definition add (x y : float) : float :=
  match x, y with
  | nan, _ | _, nan => nan
  | pinf, ninf | ninf, pinf => nan
  | pinf, _ | _, pinf => pinf
  | ninf, _ | _, ninf => ninf
  | fin a, fin b => of_real (a + b)
  end.

Definition sub (x y : float) : float := add x (opp y).



(** [np.exp]. *)
Definition exp (x : float) : float :=
  match x with
  | nan => nan
  | pinf => pinf
  | ninf => fin 0
  | fin r => of_real (Rtrigo_def.exp r)
  end.

(** [np.log]. *)
Definition log (x : float) : float :=
  match x with
  | nan | ninf => nan
  | pinf => pinf
  | fin r =>
      if Rlt_dec r 0 then nan
      else if Rlt_dec 0 r then of_real (ln r)
      else ninf
  end.

(** [np.maximum] of two values: not-a-number wins. *)
Definition maximum (x y : float) : float :=
  match x, y with
  | nan, _ | _, nan => nan
  | pinf, _ | _, pinf => pinf
  | ninf, v | v, ninf => v
  | fin a, fin b => fin (Rmax a b)
  end.

(** [np.amax]; [ValueError] on an empty vector. *)
Definition amax (a : list float) : result float :=
  match a with
  | [] => Raise ValueError
  | x :: t => Return (fold_left maximum t x)
  end.

(** [np.sum]. *)
Definition sum (a : list float) : float := fold_left add a (fin 0).

(** [scipy.special.logsumexp(a)]: the largest entry is taken out before
    exponentiating, unless it is not finite, in which case [0] is. *)
Definition logsumexp (a : list float) : result float :=
  a_max <- amax a ;;
  let a_max := if isfinite a_max then a_max else fin 0 in
  let tmp := map (fun x => exp (sub x a_max)) a in
  let s := sum tmp in
  let out := log s in
  Return (add out a_max).


End float64.

(** * Properties *)

(** ** Lists, subscripts and sums *)

Lemma nth_error_setitem_same {A : Type} (l : list A) (i : nat) (v : A) :
  (i < List.length l)%nat -> nth_error (setitem l i v) i = Some v.
Proof.
  revert i; induction l as [|h t IH]; intros [|i] Hi; simpl in *;
    try lia; auto.
  apply IH; lia.
Qed.

Lemma nth_error_setitem_other {A : Type} (l : list A) (i j : nat) (v : A) :
  i <> j -> nth_error (setitem l i v) j = nth_error l j.
Proof.
  revert i j; induction l as [|h t IH]; intros [|i] [|j] Hij; simpl;
    try congruence; auto.
Qed.

Lemma length_setitem {A : Type} (l : list A) (i : nat) (v : A) :
  List.length (setitem l i v) = List.length l.
Proof.
  revert i; induction l as [|h t IH]; intros [|i]; simpl; auto.
Qed.

Lemma subscript_Return {A : Type} (l : list A) (i : nat) (a : A) :
  subscript l i = Return a <-> nth_error l i = Some a.
Proof.
  unfold subscript; destruct (nth_error l i); split; congruence.
Qed.

Lemma subscript_lt {A : Type} (l : list A) (i : nat) (a : A) :
  subscript l i = Return a -> (i < List.length l)%nat.
Proof.
  intros H; apply subscript_Return in H.
  apply nth_error_Some; congruence.
Qed.

Lemma subscript_in_range {A : Type} (l : list A) (i : nat) :
  (i < List.length l)%nat -> exists a, subscript l i = Return a.
Proof.
  intros H; unfold subscript.
  destruct (nth_error l i) eqn:E; eauto.
  apply nth_error_None in E; lia.
Qed.

Lemma sum_nonneg (a : list R) :
  Forall (fun x => 0 <= x) a -> 0 <= np.sum a.
Proof.
  induction 1 as [|x a Hx _ IH]; simpl; [lra|].
  unfold np.sum in *; simpl; lra.
Qed.

Lemma sum_pos (a : list R) :
  a <> [] -> Forall (fun x => 0 < x) a -> 0 < np.sum a.
Proof.
  intros Hne H; destruct H as [|x a Hx Ha]; [congruence|].
  assert (0 <= np.sum a).
  { apply sum_nonneg. eapply Forall_impl; [|exact Ha]. simpl; intros; lra. }
  unfold np.sum in *; simpl; lra.
Qed.

Lemma entry_le_sum (a : list R) (p : R) :
  Forall (fun x => 0 <= x) a -> In p a -> p <= np.sum a.
Proof.
  induction 1 as [|x a Hx Ha IH]; simpl; [tauto|].
  intros [->|Hin].
  - apply sum_nonneg in Ha. unfold np.sum in *; simpl; lra.
  - specialize (IH Hin). unfold np.sum in *; simpl; lra.
Qed.

Lemma sum_zero_entries (a : list R) :
  Forall (fun x => 0 <= x) a -> np.sum a = 0 -> Forall (fun x => x = 0) a.
Proof.
  induction 1 as [|x a Hx Ha IH]; intros Hs; constructor.
  - apply sum_nonneg in Ha. unfold np.sum in *; simpl in *; lra.
  - apply IH. pose proof (sum_nonneg a Ha). unfold np.sum in *; simpl in *; lra.
Qed.

Lemma sum_scale (c : R) (a : list R) :
  np.sum (map (fun x => x * c) a) = np.sum a * c.
Proof.
  induction a as [|x a IH]; simpl; [unfold np.sum; simpl; lra|].
  unfold np.sum in *; simpl; rewrite IH; lra.
Qed.

(** ** Renormalisation *)

Lemma exp_all_pos (z : list R) : Forall (fun x => 0 < x) (np.exp z).
Proof.
  unfold np.exp; induction z; simpl; constructor; auto using exp_pos.
Qed.

(** [z - logsumexp(z)] is normalised, whatever the non-empty [z]. *)
Lemma renormalise (z : list R) (lse : R) :
  logsumexp z = Return lse ->
  np.sum (np.exp (map (fun x => x - lse) z)) = 1.
Proof.
  unfold logsumexp; destruct z as [|x z]; [discriminate|].
  intros [= <-].
  set (v := x :: z).
  assert (Hpos : 0 < np.sum (np.exp v)).
  { apply sum_pos; [discriminate|apply exp_all_pos]. }
  unfold np.exp at 1. rewrite map_map.
  rewrite (map_ext _ (fun x => Rtrigo_def.exp x * / np.sum (np.exp v))).
  - rewrite <- (map_map Rtrigo_def.exp (fun y => y * / np.sum (np.exp v))).
    rewrite sum_scale. fold (np.exp v). field. lra.
  - intros a. unfold Rminus. rewrite exp_plus, exp_Ropp, exp_ln by exact Hpos.
    reflexivity.
Qed.

(** ** Frame properties of the loop body *)

Lemma same_frame_refl (s : FedExServer) : same_frame s s.
Proof. unfold same_frame; tauto. Qed.

Lemma same_frame_trans (s1 s2 s3 : FedExServer) :
  same_frame s1 s2 -> same_frame s2 s3 -> same_frame s1 s3.
Proof.
  unfold same_frame; intros (?&?&?&?&?&?&?) (?&?&?&?&?&?&?).
  repeat split; congruence.
Qed.

Ltac run_step :=
  match goal with
  | H : (_, _) = (_, _) |- _ => inversion H; subst; clear H
  | H : context [match subscript ?l ?i with _ => _ end] |- _ =>
      let E := fresh "E" in destruct (subscript l i) eqn:E
  | H : context [if ?b then _ else _] |- _ =>
      let E := fresh "E" in destruct b eqn:E
  end.

Ltac run_M :=
  unfold bindM, get, lift, modify, ret, raise, store_get, store_set,
    trace_append, norm in *;
  simpl in *.

(** The denominator only ever writes [self._store[i]]. *)
Lemma denominator_frame cfg i grad s r s' :
  denominator cfg i grad s = (r, s') ->
  same_frame s s' /\ _z s' = _z s /\ _theta s' = _theta s.
Proof.
  unfold denominator, same_frame; intros H.
  run_M; repeat run_step; simpl;
    rewrite ?length_setitem; repeat split; reflexivity.
Qed.

(** A normal return of the loop body on aspect [i] rewrites
    [self._z[i]] with a normalised vector and [self._theta[i]] with its
    exponential, and leaves the other aspects alone. *)
Lemma aspect_step_Return cfg fbs b i s s' :
  aspect_step cfg fbs b i s = (Return tt, s') ->
  same_frame s s' /\
  (i < List.length (_z s))%nat /\ (i < List.length (_theta s))%nat /\
  exists z,
    np.sum (np.exp z) = 1 /\
    _z s' = setitem (_z s) i z /\
    _theta s' = setitem (_theta s) i (np.exp z).
Proof.
  unfold aspect_step. intros H.
  unfold bindM at 1, get at 1 in H.
  unfold bindM at 1, lift at 1 in H.
  destruct (subscript (_z s) i) as [z|] eqn:Ez; [|discriminate].
  unfold bindM at 1, lift at 1 in H.
  destruct (subscript (_theta s) i) as [theta|] eqn:Et; [|discriminate].
  unfold bindM at 1, lift at 1 in H.
  destruct (gradient _ _ _ _ _) as [grad|]; [|discriminate].
  unfold bindM at 1 in H.
  destruct (denominator cfg i grad s) as [[d|] s1] eqn:Ed; [|discriminate].
  apply denominator_frame in Ed. destruct Ed as (Hf & Hz & Ht).
  run_M.
  destruct (subscript (_eta0 s) i) as [eta0|]; [|discriminate].
  set (z1 := vsub z (map (Rmult (divide eta0 d)) grad)) in *.
  destruct (logsumexp z1) as [lse|] eqn:El; [|discriminate].
  inversion H; subst s'; clear H; simpl.
  apply subscript_lt in Ez, Et.
  split; [|split; [exact Ez|split; [exact Et|]]].
  - unfold same_frame in *; simpl; rewrite !length_setitem. tauto.
  - exists (map (fun x => x - lse) z1). split; [|split].
    + apply renormalise; exact El.
    + rewrite Hz. clear. generalize (_z s). intros l. revert i.
      induction l as [|h t IH]; intros [|j]; simpl; auto.
      f_equal; apply IH.
    + rewrite Ht; reflexivity.
Qed.

(** Whatever the outcome, the loop body keeps the frame. *)
Lemma aspect_step_frame cfg fbs b i s r s' :
  aspect_step cfg fbs b i s = (r, s') -> same_frame s s'.
Proof.
  unfold aspect_step. intros H.
  unfold bindM at 1, get at 1 in H.
  unfold bindM at 1, lift at 1 in H.
  destruct (subscript (_z s) i) as [z|];
    [|inversion H; apply same_frame_refl].
  unfold bindM at 1, lift at 1 in H.
  destruct (subscript (_theta s) i) as [theta|];
    [|inversion H; apply same_frame_refl].
  unfold bindM at 1, lift at 1 in H.
  destruct (gradient _ _ _ _ _) as [grad|];
    [|inversion H; apply same_frame_refl].
  unfold bindM at 1 in H.
  destruct (denominator cfg i grad s) as [[d|] s1] eqn:Ed;
    apply denominator_frame in Ed; destruct Ed as (Hf & _);
    [|inversion H; subst; exact Hf].
  run_M.
  destruct (subscript (_eta0 s) i) as [eta0|];
    [|inversion H; subst; exact Hf].
  destruct (logsumexp _) as [lse|]; inversion H; subst; clear H;
    (eapply same_frame_trans; [exact Hf|]);
    unfold same_frame; simpl; rewrite !length_setitem; tauto.
Qed.

Lemma for_each_frame cfg fbs b l s r s' :
  for_each l (aspect_step cfg fbs b) s = (r, s') -> same_frame s s'.
Proof.
  revert s; induction l as [|i l IH]; simpl; intros s H.
  - inversion H; apply same_frame_refl.
  - unfold bindM in H.
    destruct (aspect_step cfg fbs b i s) as [[[]|e] s1] eqn:E;
      apply aspect_step_frame in E.
    + eapply same_frame_trans; [exact E|]. apply IH; exact H.
    + inversion H; subst; exact E.
Qed.



Lemma setitem_same {A : Type} (l : list A) (i : nat) (v : A) :
  nth_error l i = Some v -> setitem l i v = l.
Proof.
  revert i; induction l as [|h t IH]; intros [|i]; simpl; try discriminate.
  - intros [= ->]. reflexivity.
  - intros H. f_equal. apply IH; exact H.
Qed.




(** ** The traces written by [update_policy] *)

Lemma update_policy_global_refine cfg fbs s :
  let v := np.inner (map loss fbs) (weight fbs) in
  tr_global (_trace (after_update cfg fbs s)) = tr_global (_trace s) ++ [v] /\
  tr_refine (_trace (after_update cfg fbs s)) = tr_refine (_trace s) ++ [v].
Proof.
  unfold after_update, update_policy, before, after. run_M.
  destruct (_stop_exploration s); simpl.
  - split; reflexivity.
  - match goal with |- context [for_each ?l ?f ?s0] =>
      destruct (for_each l f s0) as [[[]|e] s1] eqn:E end;
      apply for_each_frame in E; destruct E as (Ht & _); simpl in Ht.
    + destruct (mle (_theta s1)); simpl;
        [destruct (Rlt_dec _ _)|]; simpl; rewrite Ht; simpl;
        split; reflexivity.
    + simpl. rewrite Ht; simpl. split; reflexivity.
Qed.

(** ** Frozen policy *)

Lemma argmax_from_spec (a pre : list R) (best : R) (bi : nat) :
  nth_error pre bi = Some best ->
  (forall j x, nth_error pre j = Some x -> x <= best) ->
  (forall j x, (j < bi)%nat -> nth_error pre j = Some x -> x < best) ->
  first_argmax (pre ++ a) (np.argmax_from best bi (List.length pre) a).
Proof.
  revert pre best bi; induction a as [|x t IH]; intros pre best bi Hb Hle Hlt.
  - simpl. rewrite app_nil_r. exists best; auto.
  - simpl.
    assert (Hlen : List.length (pre ++ [x]) = S (List.length pre))
      by (rewrite length_app; simpl; lia).
    replace (pre ++ x :: t) with ((pre ++ [x]) ++ t)
      by (rewrite <- app_assoc; reflexivity).
    rewrite <- Hlen.
    assert (Hsplit : forall j y, nth_error (pre ++ [x]) j = Some y ->
              ((j < List.length pre)%nat /\ nth_error pre j = Some y) \/
              (j = List.length pre /\ y = x)).
    { intros j y Hj. destruct (Nat.lt_ge_cases j (List.length pre)) as [L|G].
      - left. rewrite nth_error_app1 in Hj by exact L. auto.
      - right. rewrite nth_error_app2 in Hj by exact G.
        destruct (j - List.length pre)%nat as [|d] eqn:Ed; simpl in Hj.
        + split; [lia|congruence].
        + destruct d; discriminate. }
    destruct (Rlt_dec best x) as [Lt|Ge]; apply IH.
    + rewrite nth_error_app2 by lia. rewrite Nat.sub_diag; reflexivity.
    + intros j y Hj. destruct (Hsplit j y Hj) as [[_ Hp]|[_ ->]]; [|lra].
      specialize (Hle j y Hp); lra.
    + intros j y Hjl Hj. destruct (Hsplit j y Hj) as [[_ Hp]|[-> _]]; [|lia].
      specialize (Hle j y Hp); lra.
    + rewrite nth_error_app1; [exact Hb|]. apply nth_error_Some; congruence.
    + intros j y Hj. destruct (Hsplit j y Hj) as [[_ Hp]|[_ ->]]; [|lra].
      exact (Hle j y Hp).
    + intros j y Hjl Hj. destruct (Hsplit j y Hj) as [[_ Hp]|[-> _]].
      * exact (Hlt j y Hjl Hp).
      * assert (bi < List.length pre)%nat
          by (apply nth_error_Some; congruence). lia.
Qed.

Lemma argmax_spec (a : list R) (k : nat) :
  np.argmax a = Return k -> first_argmax a k.
Proof.
  destruct a as [|x t]; simpl; [discriminate|]. intros [= <-].
  apply (argmax_from_spec t [x] x 0%nat).
  - reflexivity.
  - intros [|[|j]] y; simpl; intros [= <-]; lra.
  - intros j y Hj; lia.
Qed.

Lemma argmax_nonempty (a : list R) :
  a <> [] -> exists k, np.argmax a = Return k.
Proof. destruct a; [congruence|]; simpl; eauto. Qed.

Lemma frozen_sample (theta : list (list R)) (cfsp : list (list hyperparam)) :
  Forall2 (fun th sps => th <> [] /\ List.length th = List.length sps)
    theta cfsp ->
  exists idx cfgs,
    traverse np.argmax theta = Return idx /\
    traverse (fun isps => subscript (snd isps) (fst isps)) (combine idx cfsp)
      = Return cfgs /\
    Forall2 first_argmax theta idx /\ selects cfsp idx cfgs.
Proof.
  unfold selects.
  induction 1 as [|th sps theta cfsp [Hne Hlen] _ IH].
  - exists [], []; simpl; repeat split; constructor.
  - destruct IH as (idx & cfgs & Hi & Hc & Ha & Hs).
    destruct (argmax_nonempty th Hne) as (k & Hk).
    pose proof (argmax_spec th k Hk) as Hspec.
    assert (Hlt : (k < List.length sps)%nat).
    { destruct Hspec as (m & Hm & _). rewrite <- Hlen.
      apply nth_error_Some; congruence. }
    destruct (subscript_in_range sps k Hlt) as (c & Hsub).
    exists (k :: idx), (c :: cfgs). simpl.
    rewrite Hk; simpl. rewrite Hi; simpl. rewrite Hsub; simpl.
    rewrite Hc; simpl. repeat split; constructor; auto.
    simpl. apply subscript_Return; exact Hsub.
Qed.

(** ** Rounds from the constructed server *)

Lemma init_Return cfg rs s :
  __init__ cfg rs = Return s ->
  flatten_ss cfg = true /\
  exists m,
    mle [np.exp (np.full (List.length (rs (num_arms cfg)))
                   (- ln (INR (List.length (rs (num_arms cfg))))))] = Return m /\
    s = initial (rs (num_arms cfg)) m.
Proof.
  unfold __init__. destruct (flatten_ss cfg); simpl; [|discriminate].
  match goal with |- context [mle ?t] => destruct (mle t) as [m|] eqn:E end;
    simpl; [|discriminate].
  intros [= <-]. split; [reflexivity|]. exists m. split; reflexivity.
Qed.

Lemma rounds_traces_equal cfg batches s :
  tr_global (_trace s) = tr_refine (_trace s) ->
  tr_global (_trace (rounds cfg batches s)) =
  tr_refine (_trace (rounds cfg batches s)).
Proof.
  unfold rounds. revert s; induction batches as [|fbs t IH]; simpl; intros s H.
  - exact H.
  - apply IH.
    destruct (update_policy_global_refine cfg fbs s) as (Hg & Hr).
    rewrite Hg, Hr, H. reflexivity.
Qed.

(** C9.  Every call of [update_policy], whatever the batch, the options
    and the outcome, appends one value to the [global] trace and one to the
    [refine] trace; both are the same number, the weight-normalised mean of
    the tuples' [tp[2]].  Hence, from construction on, the two traces are
    equal after any number of rounds. *)
Theorem global_refine_traces_coincide :
  forall (cfg : fedex_cfg) (fbs : list feedback) (s : FedExServer)
         (rs : nat -> list hyperparam) (batches : list (list feedback)),
    let v := np.inner (map loss fbs) (weight fbs) in
    tr_global (_trace (after_update cfg fbs s)) = tr_global (_trace s) ++ [v] /\
    tr_refine (_trace (after_update cfg fbs s)) = tr_refine (_trace s) ++ [v] /\
    match __init__ cfg rs with
    | Return s0 =>
        tr_global (_trace (rounds cfg batches s0)) =
        tr_refine (_trace (rounds cfg batches s0))
    | Raise _ => True
    end.
Proof.
  intros cfg fbs s rs batches v.
  destruct (update_policy_global_refine cfg fbs s) as (Hg & Hr).
  split; [exact Hg|split; [exact Hr|]].
  destruct (__init__ cfg rs) as [s0|] eqn:E; [|exact I].
  apply rounds_traces_equal.
  apply init_Return in E. destruct E as (_ & m & _ & ->). reflexivity.
Qed.

Lemma update_policy_frozen cfg fbs s :
  _stop_exploration s = true ->
  fst (update_policy cfg fbs s) = Return tt /\
  _stop_exploration (after_update cfg fbs s) = true /\
  _z (after_update cfg fbs s) = _z s /\
  _theta (after_update cfg fbs s) = _theta s /\
  _cfsp (after_update cfg fbs s) = _cfsp s.
Proof.
  intros H. unfold after_update, update_policy. run_M. rewrite H. simpl.
  repeat split; auto.
Qed.

Lemma rounds_frozen cfg batches s :
  _stop_exploration s = true ->
  _stop_exploration (rounds cfg batches s) = true /\
  _z (rounds cfg batches s) = _z s /\
  _theta (rounds cfg batches s) = _theta s /\
  _cfsp (rounds cfg batches s) = _cfsp s.
Proof.
  unfold rounds. revert s; induction batches as [|fbs t IH]; simpl; intros s H.
  - auto.
  - destruct (update_policy_frozen cfg fbs s H) as (_ & Hs & Hz & Ht & Hc).
    destruct (IH _ Hs) as (Hs' & Hz' & Ht' & Hc').
    repeat split; congruence.
Qed.

(** The flag is never reset: a call leaves a set flag set. *)
Lemma stop_monotone cfg fbs s :
  _stop_exploration s = true ->
  _stop_exploration (after_update cfg fbs s) = true.
Proof. intros H; apply update_policy_frozen; exact H. Qed.

(** C4.  The flag is [False] after construction.  Once it is [True], every
    later call of [update_policy] returns with the flag still [True] and
    with [_z] and [_theta] as they were, after any number of rounds; and
    [sample], on the server reached, returns the same answer whatever the
    random draws: per aspect the first index of a largest probability,
    with the candidate at that index. *)
Theorem exploration_freeze :
  forall (cfg : fedex_cfg) (batches : list (list feedback))
         (fbs : list feedback) (choice choice' : nat -> list R -> result nat)
         (rs : nat -> list hyperparam) (s : FedExServer),
    _stop_exploration s = true ->
    sampleable s ->
    match __init__ cfg rs with
    | Return s0 => _stop_exploration s0 = false
    | Raise _ => True
    end /\
    fst (update_policy cfg fbs (rounds cfg batches s)) = Return tt /\
    _stop_exploration (rounds cfg (batches ++ [fbs]) s) = true /\
    _z (rounds cfg (batches ++ [fbs]) s) = _z s /\
    _theta (rounds cfg (batches ++ [fbs]) s) = _theta s /\
    exists idx cfgs,
      sample choice (rounds cfg batches s) = Return (idx, cfgs) /\
      sample choice' (rounds cfg batches s) = Return (idx, cfgs) /\
      Forall2 first_argmax (_theta s) idx /\
      selects (_cfsp s) idx cfgs.
Proof.
  intros cfg batches fbs choice choice' rs s Hstop Hwf.
  split.
  { destruct (__init__ cfg rs) as [s0|] eqn:E; [|exact I].
    apply init_Return in E. destruct E as (_ & m & _ & ->). reflexivity. }
  destruct (rounds_frozen cfg batches s Hstop) as (Hs & Hz & Ht & Hc).
  destruct (rounds_frozen cfg (batches ++ [fbs]) s Hstop) as (Hs' & Hz' & Ht' & _).
  split; [apply update_policy_frozen; exact Hs|].
  split; [exact Hs'|split; [exact Hz'|split; [exact Ht'|]]].
  destruct (frozen_sample (_theta s) (_cfsp s) Hwf) as (idx & cfgs & Hi & Hg & Ha & Hsel).
  exists idx, cfgs. unfold sample. rewrite Hs, Ht, Hc, Hi. simpl.
  rewrite Hg. simpl. auto.
Qed.

Lemma exploration_freeze_witness :
  _theta (rounds (example_cfg true false "auto")
            ([[played 0 1]] ++ [[played 1 2]]) frozen_example)
  = _theta frozen_example.
Proof.
  destruct (exploration_freeze (example_cfg true false "auto")
              [[played 0 1]] [played 1 2]
              (fun _ _ => Return 0%nat) (fun _ _ => Return 1%nat)
              (fun _ => three_arms) frozen_example)
    as (_ & _ & _ & _ & H & _).
  - reflexivity.
  - unfold sampleable. simpl.
    constructor; [split; [discriminate|reflexivity]|constructor].
  - exact H.
Defined.

(** ** The step schedule *)

Lemma gradient_Return i theta b (l : list (list nat * (R * R))) :
  forall grad,
    List.length theta = List.length grad ->
    Forall (fun isw => exists a, nth_error (fst isw) i = Some a /\
                                 (a < List.length grad)%nat) l ->
    exists g, gradient i theta b grad l = Return g /\
              List.length g = List.length grad.
Proof.
  induction l as [|isw t IH]; intros grad Hlen Hall; simpl.
  - eauto.
  - inversion Hall as [|? ? (a & Ha & Hlt) Ht]; subst.
    unfold accumulate. unfold subscript at 1. rewrite Ha. simpl.
    destruct (subscript_in_range grad a Hlt) as (g0 & Hg). rewrite Hg. simpl.
    assert (Hlt' : (a < List.length theta)%nat) by lia.
    destruct (subscript_in_range theta a Hlt') as (p & Hp). rewrite Hp. simpl.
    set (grad' := setitem grad a _).
    assert (Hl' : List.length grad' = List.length grad)
      by apply length_setitem.
    destruct (IH grad') as (g & Hg' & Hgl).
    + congruence.
    + rewrite Hl'. exact Ht.
    + exists g. split; [exact Hg'|congruence].
Qed.

Lemma batch_in_range i n cfg fbs :
  arms_in_range i n fbs ->
  Forall (fun isw => exists a, nth_error (fst isw) i = Some a /\ (a < n)%nat)
    (combine (map arms fbs) (combine (signal cfg fbs) (weight fbs))).
Proof.
  intros H. apply Forall_forall. intros [idx sw] Hin.
  apply in_combine_l in Hin. apply in_map_iff in Hin.
  destruct Hin as (fb & <- & Hfb). simpl.
  unfold arms_in_range in H. rewrite Forall_forall in H. auto.
Qed.

Lemma denominator_unknown cfg i grad s :
  ~ In (sched cfg) known_schedules ->
  denominator cfg i grad s = (Raise NotImplementedError, s).
Proof.
  intros H. unfold denominator.
  repeat match goal with
  | |- context [String.eqb (sched cfg) ?n] =>
      destruct (String.eqb_spec (sched cfg) n) as [Heq|_];
        [exfalso; apply H; rewrite Heq; simpl; tauto|]
  end.
  reflexivity.
Qed.

Lemma denominator_adaptive cfg i grad s :
  sched cfg = "adaptive"%string ->
  (i < List.length (_store s))%nat ->
  denominator cfg i grad s = (Raise NameError, s).
Proof.
  intros H Hi. unfold denominator. rewrite H. simpl. run_M.
  destruct (subscript_in_range (_store s) i Hi) as (x & ->). reflexivity.
Qed.

(** When the denominator of the first aspect raises, so does
    [update_policy], having appended to the two traces and nothing else. *)
Lemma update_policy_raises_at_schedule cfg fbs s e z zs th ths :
  _stop_exploration s = false ->
  _z s = z :: zs -> _theta s = th :: ths ->
  List.length th = List.length z ->
  arms_in_range 0 (List.length z) fbs ->
  (forall grad s1, _store s1 = _store s ->
     denominator cfg 0 grad s1 = (Raise e, s1)) ->
  fst (update_policy cfg fbs s) = Raise e /\
  _z (after_update cfg fbs s) = _z s /\
  _theta (after_update cfg fbs s) = _theta s /\
  _store (after_update cfg fbs s) = _store s /\
  _eta0 (after_update cfg fbs s) = _eta0 s /\
  _cfsp (after_update cfg fbs s) = _cfsp s /\
  _stop_exploration (after_update cfg fbs s) = false.
Proof.
  intros Hstop Hz Ht Hlen Harms Hden.
  unfold after_update, update_policy. run_M. rewrite Hstop, Hz, Ht. simpl.
  unfold aspect_step. run_M. rewrite Hz, Ht. simpl.
  destruct (gradient_Return 0 th (baseline cfg (_trace s))
              (combine (map arms fbs) (combine (signal cfg fbs) (weight fbs)))
              (np.zeros (List.length z))) as (g & Hg & _).
  - unfold np.zeros. rewrite repeat_length. exact Hlen.
  - unfold np.zeros. rewrite repeat_length. apply batch_in_range. exact Harms.
  - rewrite Hg. rewrite Hden by reflexivity. simpl.
    repeat split; auto.
Qed.

(** ** Errors raised by construction and update *)

(** With an unknown schedule name, a call on an exploring server that has
    a first aspect never gets past that aspect: it raises, and only the
    two traces have been written. *)
Lemma unknown_schedule_any_call cfg fbs s z zs th ths :
  ~ In (sched cfg) known_schedules ->
  _stop_exploration s = false ->
  _z s = z :: zs -> _theta s = th :: ths ->
  (exists e, fst (update_policy cfg fbs s) = Raise e) /\
  _z (after_update cfg fbs s) = _z s /\
  _theta (after_update cfg fbs s) = _theta s /\
  _store (after_update cfg fbs s) = _store s /\
  _eta0 (after_update cfg fbs s) = _eta0 s /\
  _cfsp (after_update cfg fbs s) = _cfsp s /\
  _stop_exploration (after_update cfg fbs s) = false.
Proof.
  intros Hsched Hstop Hz Ht.
  unfold after_update, update_policy. run_M. rewrite Hstop, Hz, Ht. simpl.
  unfold aspect_step. run_M. rewrite Hz, Ht. simpl.
  destruct (gradient _ _ _ _ _) as [g|e]; simpl.
  - rewrite denominator_unknown by exact Hsched. simpl.
    split; [eexists; reflexivity|repeat split; auto].
  - split; [eexists; reflexivity|repeat split; auto].
Qed.

(** Under an unknown schedule name an exploring server stays as it is,
    round after round, up to its traces. *)
Lemma unknown_schedule_rounds cfg batches :
  ~ In (sched cfg) known_schedules ->
  forall s z zs th ths,
    _stop_exploration s = false ->
    _z s = z :: zs -> _theta s = th :: ths ->
    _stop_exploration (rounds cfg batches s) = false /\
    _z (rounds cfg batches s) = _z s /\
    _theta (rounds cfg batches s) = _theta s /\
    _store (rounds cfg batches s) = _store s /\
    _eta0 (rounds cfg batches s) = _eta0 s /\
    _cfsp (rounds cfg batches s) = _cfsp s.
Proof.
  intros Hsched. unfold rounds.
  induction batches as [|fbs t IH]; simpl; intros s z zs th ths H1 H2 H3.
  - repeat split; assumption.
  - destruct (unknown_schedule_any_call cfg fbs s z zs th ths Hsched H1 H2 H3)
      as (_ & Ez & Et & Es & Ee & Ec & Ef).
    destruct (IH (after_update cfg fbs s) z zs th ths Ef)
      as (F1 & F2 & F3 & F4 & F5 & F6); try congruence.
    repeat split; congruence.
Qed.

(** C7.  With a schedule name outside the five known ones, on the server
    that [__init__] built and after any number of earlier rounds, a call
    of [update_policy] whose tuples name arms of the (single) aspect raises
    [NotImplementedError] at the schedule selection: no schedule is
    substituted, and [_z], [_theta], [_store], [_eta0], the candidates and
    the flag are what they were before the call. *)
Theorem unknown_schedule_raises :
  forall (cfg : fedex_cfg) (rs : nat -> list hyperparam) (s0 : FedExServer)
         (batches : list (list feedback)) (fbs : list feedback),
    ~ In (sched cfg) known_schedules ->
    __init__ cfg rs = Return s0 ->
    arms_in_range 0 (List.length (rs (num_arms cfg))) fbs ->
    fst (update_policy cfg fbs (rounds cfg batches s0))
    = Raise NotImplementedError /\
    _z (rounds cfg (batches ++ [fbs]) s0) = _z (rounds cfg batches s0) /\
    _theta (rounds cfg (batches ++ [fbs]) s0)
    = _theta (rounds cfg batches s0) /\
    _store (rounds cfg (batches ++ [fbs]) s0)
    = _store (rounds cfg batches s0) /\
    _eta0 (rounds cfg (batches ++ [fbs]) s0) = _eta0 (rounds cfg batches s0) /\
    _cfsp (rounds cfg (batches ++ [fbs]) s0) = _cfsp (rounds cfg batches s0) /\
    _stop_exploration (rounds cfg (batches ++ [fbs]) s0)
    = _stop_exploration (rounds cfg batches s0).
Proof.
  intros cfg rs s0 batches fbs Hsched Hinit Harms.
  apply init_Return in Hinit. destruct Hinit as (_ & m & _ & ->).
  set (cands := rs (num_arms cfg)) in *.
  set (z := np.full (List.length cands) (- ln (INR (List.length cands)))).
  destruct (unknown_schedule_rounds cfg batches Hsched (initial cands m)
              z [] (np.exp z) [] eq_refl eq_refl eq_refl)
    as (Hs & Hz & Ht & _).
  unfold rounds at 2 4 6 8 10 12. rewrite fold_left_app. simpl.
  fold (rounds cfg batches (initial cands m)).
  destruct (update_policy_raises_at_schedule cfg fbs
              (rounds cfg batches (initial cands m)) NotImplementedError
              z [] (np.exp z) [])
    as (H1 & H2 & H3 & H4 & H5 & H6 & H7); auto.
  - unfold np.exp. apply length_map.
  - unfold z, np.full. rewrite repeat_length. exact Harms.
  - intros grad s1 _. apply denominator_unknown. exact Hsched.
  - repeat split; congruence.
Qed.

Lemma unknown_schedule_raises_witness :
  exists s0,
    __init__ (example_cfg true false "cosine") (fun _ => three_arms)
    = Return s0 /\
    fst (update_policy (example_cfg true false "cosine") [played 0 1]
           (rounds (example_cfg true false "cosine") [[played 1 2]] s0))
    = Raise NotImplementedError.
Proof.
  eexists. split.
  - unfold __init__, mle. simpl. reflexivity.
  - apply (unknown_schedule_raises (example_cfg true false "cosine")
             (fun _ => three_arms) _ [[played 1 2]] [played 0 1]).
    + simpl. intros [H|[H|[H|[H|[H|[]]]]]]; discriminate H.
    + unfold __init__, mle. simpl. reflexivity.
    + repeat constructor. exists 0%nat. split; [reflexivity|simpl; lia].
Defined.

(** A frozen server returns before the schedule name is looked at; no
    run under an unknown schedule name reaches one (lemma
    [unknown_schedule_rounds]). *)
Lemma unknown_schedule_frozen_returns :
  ~ In (sched (example_cfg true false "cosine")) known_schedules /\
  fst (update_policy (example_cfg true false "cosine") [played 0 1]
         frozen_example) = Return tt.
Proof.
  split.
  - simpl. intros [H|[H|[H|[H|[H|[]]]]]]; discriminate H.
  - apply update_policy_frozen. reflexivity.
Qed.

(** C3 (what the code does).  Under the [adaptive] schedule, a call of
    [update_policy] that reaches the schedule selection of the first
    aspect raises [NameError], because [norm] is not bound; the
    accumulator [_store] is left as it was. *)
Theorem adaptive_schedule_raises :
  forall (cfg : fedex_cfg) (fbs : list feedback) (s : FedExServer)
         (z th : list R) (zs ths : list (list R)),
    sched cfg = "adaptive"%string ->
    _stop_exploration s = false ->
    _z s = z :: zs -> _theta s = th :: ths ->
    List.length th = List.length z ->
    (0 < List.length (_store s))%nat ->
    arms_in_range 0 (List.length z) fbs ->
    fst (update_policy cfg fbs s) = Raise NameError /\
    _store (after_update cfg fbs s) = _store s.
Proof.
  intros cfg fbs s z th zs ths Hsched Hstop Hz Ht Hlen Hst Harms.
  destruct (update_policy_raises_at_schedule cfg fbs s NameError z zs th ths)
    as (H1 & _ & _ & H2 & _); auto.
  intros grad s1 Hs1. apply denominator_adaptive; [exact Hsched|].
  rewrite Hs1. exact Hst.
Qed.

Lemma adaptive_schedule_raises_witness :
  fst (update_policy (example_cfg true false "adaptive") [played 0 1]
         (initial three_arms (1 / 3)))
  = Raise NameError.
Proof.
  apply (adaptive_schedule_raises (example_cfg true false "adaptive")
           [played 0 1] (initial three_arms (1 / 3))
           (np.full 3 (- ln (INR 3))) (np.exp (np.full 3 (- ln (INR 3))))
           [] []).
  - reflexivity.
  - reflexivity.
  - reflexivity.
  - reflexivity.
  - reflexivity.
  - simpl; lia.
  - repeat constructor. exists 0%nat. split; [reflexivity|simpl; lia].
Defined.

(** C5 (what the code does).  With [flatten_ss] off, [__init__] assigns no
    [_cfsp] and raises [AttributeError] on the first read of it: no server
    is constructed. *)
Theorem init_without_flatten_raises :
  forall (cfg : fedex_cfg) (rs : nat -> list hyperparam),
    flatten_ss cfg = false -> __init__ cfg rs = Raise AttributeError.
Proof.
  intros cfg rs H. unfold __init__. rewrite H. reflexivity.
Qed.

Lemma init_without_flatten_raises_witness :
  __init__ (example_cfg false false "auto") (fun _ => three_arms)
  = Raise AttributeError.
Proof.
  apply (init_without_flatten_raises (example_cfg false false "auto")
           (fun _ => three_arms)).
  reflexivity.
Defined.

(** ** The signal of a feedback tuple *)

Lemma vsub_self (a : list R) : vsub a a = map (fun _ => 0) a.
Proof.
  unfold vsub. induction a as [|x a IH]; simpl; [reflexivity|].
  rewrite IH. f_equal. lra.
Qed.

Lemma map_const_length {A B : Type} (c : R) (l : list A) (l' : list B) :
  List.length l = List.length l' ->
  map (fun _ => c) l = map (fun _ => c) l'.
Proof.
  revert l'; induction l as [|x l IH]; intros [|y l'] H; simpl in *;
    try discriminate; [reflexivity|].
  f_equal. apply IH. lia.
Qed.

(** C1 (what the code does).  With the [diff] option on, the signal of
    every tuple is [0], because [before] and [after] are the same array;
    the gradient of a batch is then the same for any two batches with the
    same sample sizes and arms, whatever losses they report. *)
Theorem diff_signal_ignores_losses :
  forall (cfg : fedex_cfg) (fbs fbs' : list feedback),
    diff cfg = true ->
    map sample_size fbs' = map sample_size fbs ->
    map arms fbs' = map arms fbs ->
    signal cfg fbs = map (fun _ => 0) fbs /\
    forall (i : nat) (theta : list R) (b : R) (grad : list R),
      gradient i theta b grad
        (combine (map arms fbs')
           (combine (signal cfg fbs') (weight fbs')))
      = gradient i theta b grad
          (combine (map arms fbs)
             (combine (signal cfg fbs) (weight fbs))).
Proof.
  intros cfg fbs fbs' Hd Hsz Harms.
  assert (Hsig : forall l, signal cfg l = map (fun _ => 0) l).
  { intros l. unfold signal, after, before. rewrite Hd, vsub_self.
    rewrite map_map. reflexivity. }
  split; [apply Hsig|].
  intros i theta b grad.
  rewrite !Hsig, Harms. unfold weight. rewrite Hsz.
  rewrite (map_const_length 0 fbs' fbs); [reflexivity|].
  rewrite <- (length_map sample_size fbs'), Hsz. apply length_map.
Qed.

Lemma diff_signal_ignores_losses_witness :
  signal (example_cfg true true "auto") [played 0 1; played 1 5]
  = map (fun _ => 0) [played 0 1; played 1 5].
Proof.
  apply (diff_signal_ignores_losses (example_cfg true true "auto")
           [played 0 1; played 1 5] [played 0 2; played 1 3]);
    reflexivity.
Defined.

(** ** Normalisation after an update *)

(** The loop body on aspect [i] when none of its steps raises. *)
Lemma aspect_step_eq cfg fbs b i s z th grad d s1 e0 lse :
  subscript (_z s) i = Return z ->
  subscript (_theta s) i = Return th ->
  gradient i th b (np.zeros (List.length z))
    (combine (map arms fbs) (combine (signal cfg fbs) (weight fbs)))
  = Return grad ->
  denominator cfg i grad s = (Return d, s1) ->
  subscript (_eta0 s) i = Return e0 ->
  logsumexp (vsub z (map (Rmult (divide e0 d)) grad)) = Return lse ->
  exists s',
    aspect_step cfg fbs b i s = (Return tt, s') /\
    _z s' = setitem (_z s) i
              (map (fun x => x - lse)
                 (vsub z (map (Rmult (divide e0 d)) grad))) /\
    _theta s' = setitem (_theta s) i
                  (np.exp (map (fun x => x - lse)
                             (vsub z (map (Rmult (divide e0 d)) grad)))) /\
    same_frame s s'.
Proof.
  intros Hz Ht Hg Hd He Hl.
  pose proof (denominator_frame _ _ _ _ _ _ Hd) as (Hf & Hz1 & Ht1).
  unfold aspect_step. run_M. rewrite Hz, Ht, Hg, Hd, He, Hl.
  eexists. split; [reflexivity|]. simpl. rewrite Hz1, Ht1.
  split; [|split; [reflexivity|]].
  - clear. generalize (_z s). intros l. revert i.
    induction l as [|h t IH]; intros [|j]; simpl; auto.
    f_equal; apply IH.
  - unfold same_frame in *. simpl. rewrite !length_setitem. tauto.
Qed.

Lemma for_each_seq_normalised cfg fbs b n :
  forall a s s',
    for_each (seq a n) (aspect_step cfg fbs b) s = (Return tt, s') ->
    (forall j, (a <= j < a + n)%nat ->
       exists z, nth_error (_z s') j = Some z /\
                 np.sum (np.exp z) = 1 /\
                 nth_error (_theta s') j = Some (np.exp z)) /\
    (forall j, (j < a)%nat ->
       nth_error (_z s') j = nth_error (_z s) j /\
       nth_error (_theta s') j = nth_error (_theta s) j).
Proof.
  induction n as [|n IH]; intros a s s' H; simpl in H.
  - inversion H; subst. split; [intros j Hj; lia|auto].
  - unfold bindM in H.
    destruct (aspect_step cfg fbs b a s) as [[[]|e] s1] eqn:E;
      [|discriminate].
    apply aspect_step_Return in E.
    destruct E as (_ & Hza & Hta & z0 & Hn & Hz & Ht).
    destruct (IH _ _ _ H) as (Hin & Hout).
    split.
    + intros j Hj. destruct (Nat.eq_dec j a) as [->|Hne].
      * destruct (Hout a) as (Ez & Et); [lia|].
        exists z0. rewrite Ez, Et, Hz, Ht.
        rewrite !nth_error_setitem_same by assumption. auto.
      * apply Hin. lia.
    + intros j Hj. destruct (Hout j) as (Ez & Et); [lia|].
      rewrite Ez, Et, Hz, Ht.
      rewrite !nth_error_setitem_other by lia. auto.
Qed.

(** On an exploring server the call is: record the round in the traces,
    run the loop over the aspects, append entropy and mle. *)
Lemma update_policy_exploring cfg fbs s :
  _stop_exploration s = false ->
  exists s0 r1 s1,
    _z s0 = _z s /\ _theta s0 = _theta s /\ _store s0 = _store s /\
    _eta0 s0 = _eta0 s /\
    for_each
      (seq 0 (Nat.min (List.length (_z s)) (List.length (_theta s))))
      (aspect_step cfg fbs (baseline cfg (_trace s))) s0 = (r1, s1) /\
    _z (after_update cfg fbs s) = _z s1 /\
    _theta (after_update cfg fbs s) = _theta s1 /\
    _store (after_update cfg fbs s) = _store s1 /\
    (fst (update_policy cfg fbs s) = Return tt <->
     r1 = Return tt /\ exists m, mle (_theta s1) = Return m) /\
    (fst (update_policy cfg fbs s) = Return tt ->
     entropy (_theta s1) < cutoff cfg ->
     _stop_exploration (after_update cfg fbs s) = true).
Proof.
  intros Hstop. unfold after_update, update_policy. run_M. rewrite Hstop.
  match goal with |- context [for_each ?l ?f ?s0] =>
    exists s0; destruct (for_each l f s0) as [r1 s1] eqn:E end.
  exists r1, s1. simpl.
  repeat (split; [reflexivity|]).
  destruct r1 as [[]|e]; simpl.
  - destruct (mle (_theta s1)) as [m|e]; [destruct (Rlt_dec _ _)|]; simpl;
      repeat (split; [reflexivity|]).
    + split; [|reflexivity].
      split; [intros _; split; [reflexivity|eauto]|reflexivity].
    + split; [|intros _ Hlt; contradiction].
      split; [intros _; split; [reflexivity|eauto]|reflexivity].
    + split; [|discriminate].
      split; [discriminate|]. intros (_ & m & Hm). discriminate.
  - repeat (split; [reflexivity|]).
    split; [|discriminate].
    split; [discriminate|]. intros (H & _). discriminate.
Qed.

(** A returning call on an exploring server normalises every aspect. *)
Lemma update_policy_returns_normalised cfg fbs s :
  _stop_exploration s = false ->
  List.length (_z s) = List.length (_theta s) ->
  fst (update_policy cfg fbs s) = Return tt ->
  Forall (fun z => logsumexp z = Return 0 /\ np.sum (np.exp z) = 1)
    (_z (after_update cfg fbs s)) /\
  _theta (after_update cfg fbs s)
  = map np.exp (_z (after_update cfg fbs s)) /\
  Forall (fun th => np.sum th = 1) (_theta (after_update cfg fbs s)).
Proof.
  intros Hstop Hlen Hret.
  destruct (update_policy_exploring cfg fbs s Hstop)
    as (s0 & r1 & s1 & Hz0 & Ht0 & _ & _ & E & Hz & Ht & _ & Hiff & _).
  apply Hiff in Hret. destruct Hret as (-> & _).
  rewrite Hz, Ht. rewrite <- Hlen, Nat.min_id in E.
  pose proof (for_each_frame _ _ _ _ _ _ _ E) as (_ & _ & _ & _ & Lz & Lt & _).
  rewrite Hz0 in Lz. rewrite Ht0 in Lt.
  apply for_each_seq_normalised in E. destruct E as (Hin & _). simpl in Hin.
  assert (Hall : forall j z, nth_error (_z s1) j = Some z ->
            np.sum (np.exp z) = 1 /\ nth_error (_theta s1) j = Some (np.exp z)).
  { intros j z Hj.
    assert (j < List.length (_z s))%nat
      by (rewrite <- Lz; apply nth_error_Some; congruence).
    destruct (Hin j) as (z' & Hz' & Hn & Ht'); [lia|].
    assert (z' = z) by congruence. subst z'. auto. }
  split; [|split].
  - apply Forall_forall. intros z Hin_z. apply In_nth_error in Hin_z.
    destruct Hin_z as (j & Hj). destruct (Hall j z Hj) as (Hn & _).
    split; [|exact Hn].
    unfold logsumexp. destruct z as [|x z].
    + unfold np.sum in Hn; simpl in Hn; lra.
    + rewrite Hn, ln_1. reflexivity.
  - apply nth_error_ext. intros j. rewrite nth_error_map.
    destruct (nth_error (_z s1) j) as [z|] eqn:Ej; simpl.
    + apply Hall; exact Ej.
    + apply nth_error_None. apply nth_error_None in Ej. lia.
  - apply Forall_forall. intros th Hth. apply In_nth_error in Hth.
    destruct Hth as (j & Hj).
    assert (j < List.length (_z s))%nat
      by (rewrite Hlen, <- Lt; apply nth_error_Some; congruence).
    destruct (Hin j) as (z' & _ & Hn & Ht'); [lia|].
    assert (th = np.exp z') by congruence. subst th. exact Hn.
Qed.







(** ** The constructed server *)

Lemma exp_full (n : nat) (c : R) :
  np.exp (np.full n c) = np.full n (Rtrigo_def.exp c).
Proof. unfold np.exp, np.full. apply map_repeat. Qed.

Lemma sum_full (n : nat) (c : R) : np.sum (np.full n c) = INR n * c.
Proof.
  unfold np.full. induction n as [|n IH].
  - simpl. unfold np.sum; simpl. lra.
  - rewrite S_INR. simpl. unfold np.sum in *; simpl. rewrite IH. lra.
Qed.

Lemma exp_neg_ln_size (n : nat) :
  (0 < n)%nat -> Rtrigo_def.exp (- ln (INR n)) = 1 / INR n.
Proof.
  intros H. assert (0 < INR n) by (apply lt_0_INR; exact H).
  rewrite exp_Ropp, exp_ln by assumption. unfold Rdiv. lra.
Qed.

Lemma max_nonempty (a : list R) : a <> [] -> exists m, np.max a = Return m.
Proof. destruct a; [congruence|]; simpl; eauto. Qed.

(** C10.  With [flatten_ss] on and a non-empty candidate list of length
    [size], [__init__] returns a server with that one aspect, whose [_z]
    entries are all [- ln size] and whose [_theta] entries are all
    [1 / size], summing to [1]; the [entropy] and [mle] traces hold the one
    value computed from this [_theta], and the [global] and [refine] traces
    are empty. *)
Theorem construction_uniform :
  forall (cfg : fedex_cfg) (rs : nat -> list hyperparam),
    flatten_ss cfg = true ->
    (0 < List.length (rs (num_arms cfg)))%nat ->
    exists s,
      __init__ cfg rs = Return s /\
      let size := List.length (rs (num_arms cfg)) in
      _cfsp s = [rs (num_arms cfg)] /\
      _z s = [np.full size (- ln (INR size))] /\
      _theta s = [np.full size (1 / INR size)] /\
      _theta s = map np.exp (_z s) /\
      Forall (fun th => np.sum th = 1) (_theta s) /\
      tr_entropy (_trace s) = [entropy (_theta s)] /\
      (exists m, mle (_theta s) = Return m /\ tr_mle (_trace s) = [m]) /\
      tr_global (_trace s) = [] /\
      tr_refine (_trace s) = [].
Proof.
  intros cfg rs Hf Hn.
  set (size := List.length (rs (num_arms cfg))) in *.
  assert (Hth : np.exp (np.full size (- ln (INR size)))
                = np.full size (1 / INR size)).
  { rewrite exp_full, exp_neg_ln_size by exact Hn. reflexivity. }
  assert (Hne : np.full size (1 / INR size) <> []).
  { unfold np.full. destruct size; [lia|]. simpl. discriminate. }
  destruct (max_nonempty _ Hne) as (mx & Hmx).
  assert (Hmle : mle [np.full size (1 / INR size)] = Return (np.prod [mx])).
  { unfold mle. simpl. rewrite Hmx. reflexivity. }
  eexists. split.
  - unfold __init__. rewrite Hf. simpl. fold size. rewrite Hth, Hmle. simpl.
    reflexivity.
  - simpl. repeat split.
    + rewrite Hth. reflexivity.
    + constructor; [|constructor]. rewrite sum_full.
      assert (0 < INR size) by (apply lt_0_INR; exact Hn).
      unfold Rdiv. field. lra.
    + exists (np.prod [mx]). split; [exact Hmle|reflexivity].
Qed.

Lemma construction_uniform_witness :
  exists s,
    __init__ (example_cfg true false "auto") (fun _ => three_arms) = Return s /\
    _theta s = [np.full 3 (1 / INR 3)].
Proof.
  destruct (construction_uniform (example_cfg true false "auto")
              (fun _ => three_arms)) as (s & Hs & _ & _ & Ht & _).
  - reflexivity.
  - simpl; lia.
  - exists s. split; [exact Hs|exact Ht].
Defined.

(** ** Entropy *)

Lemma fold_left_minus (f : list R -> R) (l : list (list R)) (a : R) :
  fold_left (fun e x => e - f x) l a = a - np.sum (map f l).
Proof.
  revert a; induction l as [|x l IH]; intros a; simpl.
  - unfold np.sum; simpl; lra.
  - rewrite IH. unfold np.sum; simpl. lra.
Qed.

Lemma entropy_joint (theta : list (list R)) :
  entropy theta = joint_entropy theta.
Proof.
  unfold entropy, joint_entropy.
  rewrite (fold_left_minus (fun probs => np.prod probs * ln (np.prod probs))).
  rewrite map_map. lra.
Qed.

Lemma in_product (ls : list (list R)) (t : list R) :
  In t (product ls) <-> Forall2 (fun x l => In x l) t ls.
Proof.
  revert t; induction ls as [|l ls IH]; intros t; simpl.
  - split.
    + intros [<-|[]]. constructor.
    + intros H; inversion H; auto.
  - rewrite in_flat_map. split.
    + intros (x & Hx & Hin). apply in_map_iff in Hin.
      destruct Hin as (t' & <- & Ht'). constructor; [exact Hx|].
      apply IH; exact Ht'.
    + intros H. inversion H as [|x l' t' ls' Hx Ht']; subst.
      exists x. split; [exact Hx|]. apply in_map. apply IH; exact Ht'.
Qed.

Lemma select_positive_in (th : list R) (p : R) :
  In p (np.select_positive th) <-> In p th /\ 0 < p.
Proof.
  unfold np.select_positive. rewrite filter_In. unfold np.positive.
  destruct (Rlt_dec 0 p); split; intros [? ?]; auto; discriminate.
Qed.

(** A joint assignment within the supports has a probability in (0,1]. *)
Lemma support_tuple_bounds (theta : list (list R)) (t : list R) :
  Forall distribution theta ->
  Forall2 (fun x l => In x l) t (map np.select_positive theta) ->
  0 < np.prod t <= 1.
Proof.
  intros Hd. revert t. induction Hd as [|th theta [Hnn Hs] _ IH]; intros t H;
    simpl in H; inversion H as [|x l t' ls Hx Ht']; subst.
  - unfold np.prod; simpl; lra.
  - apply select_positive_in in Hx. destruct Hx as (Hin & Hpos).
    pose proof (entry_le_sum th x Hnn Hin) as Hle. rewrite Hs in Hle.
    specialize (IH t' Ht'). unfold np.prod in *; simpl. nra.
Qed.

Lemma term_nonpos (q : R) : 0 < q <= 1 -> q * ln q <= 0.
Proof.
  intros [Hq Hq1].
  assert (ln q <= 0).
  { destruct (Req_dec q 1) as [->|Hne]; [rewrite ln_1; lra|].
    left. rewrite <- ln_1. apply ln_increasing; lra. }
  nra.
Qed.

Lemma term_zero (q : R) : 0 < q -> q * ln q = 0 -> q = 1.
Proof.
  intros Hq H. assert (Hl : ln q = 0) by nra.
  rewrite <- (exp_ln q Hq), Hl. apply exp_0.
Qed.

Lemma sum_nonpos_zero (l : list R) :
  Forall (fun x => x <= 0) l -> np.sum l = 0 -> Forall (fun x => x = 0) l.
Proof.
  induction 1 as [|x l Hx Hl IH]; intros Hs; constructor.
  - assert (np.sum l <= 0).
    { clear -Hl. induction Hl; unfold np.sum in *; simpl; lra. }
    unfold np.sum in *; simpl in *; lra.
  - apply IH.
    assert (np.sum l <= 0).
    { clear -Hl. induction Hl; unfold np.sum in *; simpl; lra. }
    unfold np.sum in *; simpl in *; lra.
Qed.

Lemma sum_nonpos (l : list R) : Forall (fun x => x <= 0) l -> np.sum l <= 0.
Proof.
  induction 1; unfold np.sum in *; simpl; lra.
Qed.

Lemma sum_all_zero (l : list R) : Forall (fun x => x = 0) l -> np.sum l = 0.
Proof.
  induction 1; unfold np.sum in *; simpl; lra.
Qed.

(** Every distribution has a positive entry, so the product of the
    supports is not empty. *)
Lemma support_nonempty (th : list R) :
  distribution th -> exists p, In p (np.select_positive th).
Proof.
  intros [Hnn Hs].
  destruct (np.select_positive th) as [|p l] eqn:E; [|exists p; left; auto].
  exfalso.
  assert (Forall (fun x => x = 0) th).
  { apply Forall_forall. intros x Hx.
    rewrite Forall_forall in Hnn. specialize (Hnn x Hx).
    destruct (Rle_lt_or_eq_dec 0 x Hnn) as [Hlt|Heq]; [|auto].
    assert (In x (np.select_positive th))
      by (apply select_positive_in; auto).
    rewrite E in H. contradiction. }
  apply sum_all_zero in H. lra.
Qed.

Lemma support_tuple_exists (theta : list (list R)) :
  Forall distribution theta ->
  exists t, Forall2 (fun x l => In x l) t (map np.select_positive theta).
Proof.
  induction 1 as [|th theta Hd _ (t & Ht)].
  - exists []; constructor.
  - destruct (support_nonempty th Hd) as (p & Hp).
    exists (p :: t). simpl. constructor; assumption.
Qed.

(** A distribution that contains [1] has no other positive entry. *)
Lemma point_mass_entries (th : list R) :
  distribution th -> In 1 th -> Forall (fun p => p = 0 \/ p = 1) th.
Proof.
  intros [Hnn Hs] Hin. apply Forall_forall. intros p Hp.
  destruct (Req_dec p 1) as [|Hne]; [auto|left].
  rewrite Forall_forall in Hnn. pose proof (Hnn p Hp) as Hp0.
  revert Hs Hin Hp. clear Hp0.
  induction th as [|x th IH]; simpl; [tauto|].
  assert (Hx : 0 <= x) by (apply Hnn; left; reflexivity).
  assert (Hth : Forall (fun y => 0 <= y) th).
  { apply Forall_forall. intros y Hy. apply Hnn. right; exact Hy. }
  pose proof (sum_nonneg th Hth) as Hsum.
  unfold np.sum in *; simpl. intros Hs [Hx1|Hin] [Hxp|Hp].
  - congruence.
  - subst x. assert (Hz : np.sum th = 0) by (unfold np.sum; lra).
    pose proof (sum_zero_entries th Hth Hz) as Hall.
    rewrite Forall_forall in Hall. apply Hall; exact Hp.
  - subst x. pose proof (entry_le_sum th 1 Hth Hin) as Hle.
    unfold np.sum in Hle. lra.
  - pose proof (entry_le_sum th 1 Hth Hin) as Hle. unfold np.sum in Hle.
    apply IH; auto.
    + intros y Hy. apply Hnn. right; exact Hy.
    + lra.
Qed.

(** Factors in [0,1] whose product is [1] are all [1]. *)
Lemma prod_one_factors (t : list R) :
  Forall (fun x => 0 <= x <= 1) t -> np.prod t = 1 -> Forall (fun x => x = 1) t.
Proof.
  induction 1 as [|x t Hx Ht IH]; intros Hp; constructor.
  - assert (0 <= np.prod t <= 1).
    { clear -Ht. induction Ht; unfold np.prod in *; simpl; [lra|nra]. }
    unfold np.prod in *; simpl in *. nra.
  - apply IH.
    assert (0 <= np.prod t <= 1).
    { clear -Ht. induction Ht; unfold np.prod in *; simpl; [lra|nra]. }
    unfold np.prod in *; simpl in *. nra.
Qed.

Lemma tuple_entries_bounded (theta : list (list R)) (t : list R) :
  Forall distribution theta ->
  Forall2 (fun x l => In x l) t theta ->
  Forall (fun x => 0 <= x <= 1) t.
Proof.
  intros Hd H. induction H as [|x th t theta Hx _ IH]; constructor.
  - inversion Hd as [|? ? [Hnn Hs] _]; subst.
    pose proof (entry_le_sum th x Hnn Hx).
    rewrite Forall_forall in Hnn. specialize (Hnn x Hx). lra.
  - apply IH. inversion Hd; assumption.
Qed.

Lemma certain_tuple_entries (theta : list (list R)) (t : list R) :
  Forall2 (fun x l => In x l) t theta ->
  Forall (fun x => x = 1) t ->
  Forall (fun th => In 1 th) theta.
Proof.
  induction 1 as [|x th t theta Hx _ IH]; intros H1; constructor;
    inversion H1; subst; auto.
Qed.

Lemma point_mass_support_prod (theta : list (list R)) (t : list R) :
  Forall distribution theta ->
  Forall (fun th => In 1 th) theta ->
  Forall2 (fun x l => In x l) t (map np.select_positive theta) ->
  np.prod t = 1.
Proof.
  intros Hd H1. revert t.
  induction Hd as [|th theta Hth _ IH]; intros t H; simpl in H;
    inversion H as [|x l t' ls Hx Ht']; subst.
  - reflexivity.
  - inversion H1 as [|? ? Hin1 H1']; subst.
    apply select_positive_in in Hx. destruct Hx as (Hin & Hpos).
    pose proof (point_mass_entries th Hth Hin1) as Hall.
    rewrite Forall_forall in Hall. destruct (Hall x Hin) as [H0|Hx1]; [lra|].
    specialize (IH H1' t' Ht'). unfold np.prod in *; simpl.
    rewrite IH, Hx1. lra.
Qed.

Lemma support_tuple_is_tuple (theta : list (list R)) (t : list R) :
  Forall2 (fun x l => In x l) t (map np.select_positive theta) ->
  Forall2 (fun x l => In x l) t theta.
Proof.
  revert t; induction theta as [|th theta IH]; intros t H; simpl in H;
    inversion H as [|x l t' ls Hx Ht']; subst; constructor.
  - apply select_positive_in in Hx. tauto.
  - apply IH; assumption.
Qed.

(** C8.  On probability vectors that are non-negative and sum to one,
    [entropy] is the joint entropy of the specification, it is never
    negative, and it is zero exactly when some joint assignment has
    probability one. *)
Theorem entropy_bound :
  forall theta : list (list R),
    Forall distribution theta ->
    entropy theta = joint_entropy theta /\
    0 <= entropy theta /\
    (entropy theta = 0 <-> In 1 (joint_probabilities theta)).
Proof.
  intros theta Hd.
  split; [apply entropy_joint|].
  rewrite entropy_joint. unfold joint_entropy, joint_probabilities.
  set (L := map np.prod (product (map np.select_positive theta))).
  assert (HL : forall q, In q L -> 0 < q <= 1).
  { intros q Hq. apply in_map_iff in Hq. destruct Hq as (t & <- & Ht).
    apply in_product in Ht. apply support_tuple_bounds with theta; auto. }
  assert (Hterms : Forall (fun x => x <= 0) (map (fun p => p * ln p) L)).
  { apply Forall_forall. intros x Hx. apply in_map_iff in Hx.
    destruct Hx as (q & <- & Hq). apply term_nonpos. auto. }
  split.
  - apply sum_nonpos in Hterms. lra.
  - split.
    + intros H0.
      assert (Hs : np.sum (map (fun p => p * ln p) L) = 0) by lra.
      pose proof (sum_nonpos_zero _ Hterms Hs) as Hz.
      rewrite Forall_forall in Hz.
      destruct (support_tuple_exists theta Hd) as (t & Ht).
      assert (Hq : In (np.prod t) L).
      { unfold L. apply in_map. apply in_product. exact Ht. }
      assert (H1 : np.prod t = 1).
      { apply term_zero; [apply HL; exact Hq|].
        apply Hz. apply in_map_iff. exists (np.prod t). auto. }
      rewrite <- H1. apply in_map. apply in_product.
      apply support_tuple_is_tuple. exact Ht.
    + intros H1. apply in_map_iff in H1. destruct H1 as (t & Hp & Ht).
      apply in_product in Ht.
      pose proof (tuple_entries_bounded theta t Hd Ht) as Hb.
      pose proof (prod_one_factors t Hb Hp) as Hones.
      pose proof (certain_tuple_entries theta t Ht Hones) as Hin1.
      assert (Hz : Forall (fun x => x = 0) (map (fun p => p * ln p) L)).
      { apply Forall_forall. intros x Hx. apply in_map_iff in Hx.
        destruct Hx as (q & <- & Hq). unfold L in Hq.
        apply in_map_iff in Hq. destruct Hq as (t' & <- & Ht').
        apply in_product in Ht'.
        rewrite (point_mass_support_prod theta t' Hd Hin1 Ht').
        rewrite ln_1. lra. }
      apply sum_all_zero in Hz. lra.
Qed.

Lemma entropy_bound_witness :
  0 <= entropy [[1 / 4; 1 / 2; 1 / 4]].
Proof.
  apply (entropy_bound [[1 / 4; 1 / 2; 1 / 4]]).
  constructor; [|constructor].
  split.
  - repeat constructor; lra.
  - unfold np.sum; simpl; lra.
Defined.

(** ** Scenario A: one round on three arms *)

Lemma ln_3_pos : 0 < ln 3.
Proof. rewrite <- ln_1. apply ln_increasing; lra. Qed.

(** Under [auto], [constant] and [scale] (on more than one arm) the
    denominator is computed, and the step size is positive when the base
    is. *)
Lemma denominator_positive cfg grad s c :
  In (sched cfg) ["auto"; "constant"; "scale"]%string ->
  List.length grad = 3%nat ->
  _store s = [c] -> 0 <= c ->
  exists d s',
    denominator cfg 0 grad s = (Return d, s') /\
    _theta s' = _theta s /\ _z s' = _z s /\
    forall e0, 0 < e0 -> 0 < divide e0 d.
Proof.
  intros Hs Hl Hst Hc. unfold denominator.
  destruct Hs as [<-|[<-|[<-|[]]]]; simpl; run_M.
  - rewrite Hst. simpl. eexists; eexists.
    split; [reflexivity|]. simpl. repeat split.
    intros e0 He. apply Rdiv_lt_0_compat; [exact He|].
    apply sqrt_lt_R0. lra.
  - eexists; eexists. split; [reflexivity|]. simpl. repeat split.
    intros e0 He. lra.
  - rewrite Hl. simpl. eexists; eexists.
    split; [reflexivity|]. simpl. repeat split.
    intros e0 He.
    assert (0 < sqrt (2 * ln (1 + 1 + 1))).
    { apply sqrt_lt_R0. replace (1 + 1 + 1) with 3 by lra.
      pose proof ln_3_pos. lra. }
    apply Rdiv_lt_0_compat; [exact He|].
    apply Rdiv_lt_0_compat; [lra|assumption].
Qed.

Lemma aspect_step_one_per_arm cfg w l0 l1 b e0 c s0 :
  diff cfg = false ->
  In (sched cfg) ["auto"; "constant"; "scale"]%string ->
  0 < w -> 0 < e0 -> 0 <= c ->
  _z s0 = [np.full 3 (- ln 3)] ->
  _theta s0 = [np.full 3 (1 / 3)] ->
  _eta0 s0 = [e0] -> _store s0 = [c] ->
  exists eta lse s1,
    0 < eta /\
    aspect_step cfg (one_per_arm w l0 l1) b 0 s0 = (Return tt, s1) /\
    _theta s1 =
      [[Rtrigo_def.exp (- ln 3 - eta * (l0 - b) - lse);
        Rtrigo_def.exp (- ln 3 - eta * (l1 - b) - lse);
        Rtrigo_def.exp (- ln 3 - eta * (l1 - b) - lse)]].
Proof.
  intros Hd Hs Hw He Hc Hz Ht H0 Hst.
  assert (Hg : forall l, w / (w + (w + (w + 0))) * (l - b) / (1 / 3) = l - b)
    by (intros; field; lra).
  unfold aspect_step. run_M. rewrite Hz, Ht, H0. simpl.
  unfold signal, weight, after. rewrite Hd. simpl.
  unfold accumulate. simpl. unfold np.sum. simpl.
  rewrite !Rplus_0_l, !Hg.
  destruct (denominator_positive cfg [l0 - b; l1 - b; l1 - b] s0 c
              Hs eq_refl Hst Hc) as (d & s' & Hden & Hth & _ & Hpos).
  rewrite Hden.
  eexists (divide e0 d), _, _.
  split; [apply Hpos; exact He|].
  split; [reflexivity|].
  simpl. rewrite Hth, Ht. reflexivity.
Qed.

(** One round with one client per arm, from the uniform distribution. *)
Lemma update_one_per_arm cfg s w l0 l1 e0 c :
  diff cfg = false ->
  In (sched cfg) ["auto"; "constant"; "scale"]%string ->
  _stop_exploration s = false ->
  _z s = [np.full 3 (- ln 3)] ->
  _theta s = [np.full 3 (1 / 3)] ->
  _eta0 s = [e0] -> 0 < e0 ->
  _store s = [c] -> 0 <= c ->
  0 < w ->
  fst (update_policy cfg (one_per_arm w l0 l1) s) = Return tt /\
  exists eta lse b,
    0 < eta /\
    _theta (after_update cfg (one_per_arm w l0 l1) s) =
      [[Rtrigo_def.exp (- ln 3 - eta * (l0 - b) - lse);
        Rtrigo_def.exp (- ln 3 - eta * (l1 - b) - lse);
        Rtrigo_def.exp (- ln 3 - eta * (l1 - b) - lse)]] /\
    (entropy (_theta (after_update cfg (one_per_arm w l0 l1) s)) < cutoff cfg ->
     _stop_exploration (after_update cfg (one_per_arm w l0 l1) s) = true).
Proof.
  intros Hd Hs Hstop Hz Ht H0 He Hst Hc Hw.
  destruct (update_policy_exploring cfg (one_per_arm w l0 l1) s Hstop)
    as (s0 & r1 & s1 & Hz0 & Ht0 & Hst0 & He0 & E & _ & Hta & _ & Hiff & Hfl).
  rewrite Hz, Ht in E. simpl in E.
  destruct (aspect_step_one_per_arm cfg w l0 l1 (baseline cfg (_trace s))
              e0 c s0 Hd Hs Hw He Hc)
    as (eta & lse & s1' & Heta & Hstep & Hth); try congruence.
  unfold bindM in E. rewrite Hstep in E. unfold ret in E.
  inversion E; subst r1 s1; clear E.
  assert (Hret : fst (update_policy cfg (one_per_arm w l0 l1) s) = Return tt).
  { apply Hiff. split; [reflexivity|]. rewrite Hth.
    unfold mle. simpl. eexists. reflexivity. }
  split; [exact Hret|].
  exists eta, lse, (baseline cfg (_trace s)).
  split; [exact Heta|]. split; [rewrite Hta; exact Hth|].
  rewrite Hta. apply Hfl. exact Hret.
Qed.

(** C6 (as the code has it).  With the [diff] option off and the schedule
    [auto], [constant] or [scale], one call of [update_policy] on an
    exploring server with a single aspect of three arms at the uniform
    distribution, given one tuple per arm with equal positive sample sizes
    where arm 0 reports a strictly lower loss than arms 1 and 2, which
    report the same loss, returns with probabilities
    [prob[0] > prob[1] = prob[2]]. *)
Theorem scenario_A :
  forall (cfg : fedex_cfg) (s : FedExServer) (w l0 l1 e0 c : R),
    diff cfg = false ->
    In (sched cfg) ["auto"; "constant"; "scale"]%string ->
    _stop_exploration s = false ->
    _z s = [np.full 3 (- ln 3)] ->
    _theta s = [np.full 3 (1 / 3)] ->
    _eta0 s = [e0] -> 0 < e0 ->
    _store s = [c] -> 0 <= c ->
    0 < w -> l0 < l1 ->
    fst (update_policy cfg (one_per_arm w l0 l1) s) = Return tt /\
    exists p0 p1 p2,
      _theta (after_update cfg (one_per_arm w l0 l1) s) = [[p0; p1; p2]] /\
      p0 > p1 /\ p1 = p2.
Proof.
  intros cfg s w l0 l1 e0 c Hd Hs Hstop Hz Ht H0 He Hst Hc Hw Hl.
  destruct (update_one_per_arm cfg s w l0 l1 e0 c)
    as (Hret & eta & lse & b & Heta & Hth & _); auto.
  split; [exact Hret|].
  rewrite Hth. do 3 eexists. split; [reflexivity|].
  split; [|reflexivity].
  apply exp_increasing. nra.
Qed.

(** The server built on three candidates, field by field. *)
Lemma initial_three_arms m :
  _stop_exploration (initial three_arms m) = false /\
  _z (initial three_arms m) = [np.full 3 (- ln 3)] /\
  _theta (initial three_arms m) = [np.full 3 (1 / 3)] /\
  _eta0 (initial three_arms m) = [sqrt (2 * ln 3)] /\
  _store (initial three_arms m) = [0].
Proof.
  simpl. replace (1 + 1 + 1) with 3 by lra.
  rewrite exp_Ropp, exp_ln by lra. unfold Rdiv. rewrite Rmult_1_l.
  repeat split.
Qed.

Lemma scenario_A_witness :
  fst (update_policy (example_cfg true false "auto") (one_per_arm 1 1 2)
         (initial three_arms (1 / 3))) = Return tt.
Proof.
  destruct (initial_three_arms (1 / 3)) as (Hs & Hz & Ht & He & Hst).
  apply (scenario_A (example_cfg true false "auto")
           (initial three_arms (1 / 3)) 1 1 2 (sqrt (2 * ln 3)) 0).
  - reflexivity.
  - simpl; auto.
  - exact Hs.
  - exact Hz.
  - exact Ht.
  - exact He.
  - apply sqrt_lt_R0. pose proof ln_3_pos. lra.
  - exact Hst.
  - lra.
  - lra.
  - lra.
Defined.

Lemma entropy_uniform_three : entropy [np.full 3 (1 / 3)] = ln 3.
Proof.
  unfold entropy, np.select_positive. simpl. unfold np.positive.
  destruct (Rlt_dec 0 (1 / 3)); [|lra]. simpl. unfold np.prod. simpl.
  replace (1 / 3 * 1) with (/ 3) by lra.
  rewrite ln_Rinv by lra. lra.
Qed.

Lemma ln_3_lt_2 : ln 3 < 2.
Proof.
  rewrite <- (ln_exp 2). apply ln_increasing; [lra|].
  pose proof (exp_ineq1 2). lra.
Qed.

(** After a round of equal losses the distribution is uniform again and,
    the cutoff being above its entropy, exploration has stopped. *)
Lemma after_equal_round_frozen :
  _theta after_equal_round = [np.full 3 (1 / 3)] /\
  _stop_exploration after_equal_round = true.
Proof.
  unfold after_equal_round.
  destruct (initial_three_arms (1 / 3)) as (Hs & Hz & Ht & He & Hst).
  assert (He0 : 0 < sqrt (2 * ln 3))
    by (apply sqrt_lt_R0; pose proof ln_3_pos; lra).
  destruct (update_one_per_arm eager_cfg (initial three_arms (1 / 3))
              1 1 1 (sqrt (2 * ln 3)) 0)
    as (Hret & eta & lse & b & _ & Hth & Hstop);
    try assumption; try reflexivity; try lra; [simpl; auto|].
  destruct (update_policy_returns_normalised eager_cfg (one_per_arm 1 1 1)
              (initial three_arms (1 / 3)) Hs) as (_ & _ & Hn);
    [rewrite Hz, Ht; reflexivity|exact Hret|].
  rewrite Hth in Hn. inversion Hn as [|th ths Hsum _]; subst.
  unfold np.sum in Hsum. simpl in Hsum.
  assert (Hp : Rtrigo_def.exp (- ln 3 - eta * (1 - b) - lse) = 1 / 3) by lra.
  assert (Hu : _theta (after_update eager_cfg (one_per_arm 1 1 1)
                         (initial three_arms (1 / 3)))
               = [np.full 3 (1 / 3)]).
  { rewrite Hth, Hp. reflexivity. }
  split; [exact Hu|].
  apply Hstop. rewrite Hu, entropy_uniform_three.
  simpl. apply ln_3_lt_2.
Qed.

(** C6, as stated, fails on a server whose exploration has stopped at the
    uniform distribution: the call records the round and leaves the
    probabilities as they are. *)
Lemma scenario_A_fails_when_frozen :
  _theta after_equal_round = [np.full 3 (1 / 3)] /\
  ~ (exists p0 p1 p2,
       _theta (after_update eager_cfg (one_per_arm 1 1 2) after_equal_round)
       = [[p0; p1; p2]] /\
       p0 > p1 /\ p1 = p2).
Proof.
  destruct after_equal_round_frozen as (Hu & Hstop).
  split; [exact Hu|].
  intros (p0 & p1 & p2 & H & Hgt & _).
  destruct (update_policy_frozen eager_cfg (one_per_arm 1 1 2)
              after_equal_round Hstop) as (_ & _ & _ & Ht & _).
  rewrite Ht, Hu in H. simpl in H. injection H as <- <- _. lra.
Qed.

(** With the [diff] option on, the first round never moves the
    distribution: every signal is [after - before = 0]. *)
Lemma first_round_with_diff_stays_uniform :
  ~ (exists p0 p1 p2,
       _theta (after_update (example_cfg true true "auto") (one_per_arm 1 1 2)
                 (initial three_arms (1 / 3))) = [[p0; p1; p2]] /\
       p0 > p1 /\ p1 = p2).
Proof.
  intros (p0 & p1 & p2 & H & Hgt & _). revert H.
  unfold after_update, update_policy, aspect_step, denominator. run_M.
  unfold accumulate. simpl.
  destruct (Rlt_dec _ _); simpl; intros H; injection H as <- <- _;
    revert Hgt;
    match goal with
    | |- Rtrigo_def.exp ?a > Rtrigo_def.exp ?b -> _ =>
        replace a with b by (unfold Rdiv; ring)
    end; lra.
Qed.

(** ** Normalisation and the range of binary64 *)








(** * Further properties of the policy *)

(** ** [mle] *)

Lemma fold_left_Rmax_spec (t : list R) (x : R) :
  In (fold_left Rmax t x) (x :: t) /\
  Forall (fun y => y <= fold_left Rmax t x) (x :: t).
Proof.
  revert x; induction t as [|y t IH]; intros x; simpl.
  - split; [auto|]. constructor; [lra|constructor].
  - destruct (IH (Rmax x y)) as (Hin & Hall).
    inversion Hall as [|? ? Hm Ht]; subst.
    split.
    + simpl in Hin. remember (fold_left Rmax t (Rmax x y)) as r.
      destruct Hin as [Hin|Hin]; [|auto].
      revert Hin. apply Rmax_case; intros; auto.
    + pose proof (Rmax_l x y). pose proof (Rmax_r x y).
      constructor; [lra|]. constructor; [lra|exact Ht].
Qed.

Lemma max_spec (a : list R) (m : R) :
  np.max a = Return m -> In m a /\ Forall (fun y => y <= m) a.
Proof.
  destruct a as [|x t]; simpl; [discriminate|]. intros [= <-].
  apply fold_left_Rmax_spec.
Qed.

(** The largest entry of a distribution lies in (0,1]. *)
Lemma max_of_distribution (th : list R) :
  distribution th ->
  exists m, np.max th = Return m /\ In m th /\ 0 < m <= 1 /\
            Forall (fun y => y <= m) th.
Proof.
  intros Hd. destruct (support_nonempty th Hd) as (p & Hp).
  apply select_positive_in in Hp. destruct Hp as (Hin & Hpos).
  assert (Hne : th <> []) by (destruct th; [contradiction|discriminate]).
  destruct (max_nonempty th Hne) as (m & Hm).
  destruct (max_spec th m Hm) as (Hmin & Hall).
  exists m. repeat split; auto.
  - rewrite Forall_forall in Hall. specialize (Hall p Hin). lra.
  - destruct Hd as (Hnn & Hs). rewrite <- Hs. apply entry_le_sum; assumption.
Qed.

Lemma maxima_of_distributions (theta : list (list R)) :
  Forall distribution theta ->
  exists ms,
    maxima theta = Return ms /\
    Forall2 (fun m th => In m th /\ 0 < m <= 1 /\ Forall (fun y => y <= m) th)
      ms theta.
Proof.
  induction 1 as [|th theta Hd _ (ms & Hms & Hall)].
  - exists []. split; [reflexivity|constructor].
  - destruct (max_of_distribution th Hd) as (m & Hm & Hin & Hb & Hle).
    exists (m :: ms). simpl. rewrite Hm. simpl. rewrite Hms. simpl.
    split; [reflexivity|]. constructor; auto.
Qed.

Lemma prod_unit_interval (ms : list R) :
  Forall (fun m => 0 < m <= 1) ms -> 0 < np.prod ms <= 1.
Proof.
  induction 1 as [|m ms Hm _ IH]; unfold np.prod in *; simpl; [lra|nra].
Qed.

(** [mle] of probability vectors is a number in (0,1]. *)
Theorem mle_bound :
  forall theta : list (list R),
    Forall distribution theta ->
    exists m, mle theta = Return m /\ 0 < m <= 1.
Proof.
  intros theta Hd.
  destruct (maxima_of_distributions theta Hd) as (ms & Hms & Hall).
  exists (np.prod ms). unfold mle. rewrite Hms. simpl.
  split; [reflexivity|]. apply prod_unit_interval.
  clear Hms. induction Hall as [|m th ms theta (_ & Hb & _) _ IH];
    constructor; auto.
  apply IH. inversion Hd; assumption.
Qed.

Lemma mle_bound_witness :
  exists m, mle [[1 / 4; 1 / 2; 1 / 4]] = Return m /\ 0 < m <= 1.
Proof.
  apply (mle_bound [[1 / 4; 1 / 2; 1 / 4]]).
  constructor; [|constructor].
  split.
  - repeat constructor; lra.
  - unfold np.sum; simpl; lra.
Defined.

Lemma entropy_zero_point_masses (theta : list (list R)) :
  Forall distribution theta ->
  (entropy theta = 0 <-> Forall (fun th => In 1 th) theta).
Proof.
  intros Hd. rewrite entropy_joint. unfold joint_entropy.
  set (L := map np.prod (product (map np.select_positive theta))).
  assert (HL : forall q, In q L -> 0 < q <= 1).
  { intros q Hq. apply in_map_iff in Hq. destruct Hq as (t & <- & Ht).
    apply in_product in Ht. apply support_tuple_bounds with theta; auto. }
  assert (Hterms : Forall (fun x => x <= 0) (map (fun p => p * ln p) L)).
  { apply Forall_forall. intros x Hx. apply in_map_iff in Hx.
    destruct Hx as (q & <- & Hq). apply term_nonpos. auto. }
  split.
  - intros H0.
    assert (Hs : np.sum (map (fun p => p * ln p) L) = 0) by lra.
    pose proof (sum_nonpos_zero _ Hterms Hs) as Hz.
    rewrite Forall_forall in Hz.
    destruct (support_tuple_exists theta Hd) as (t & Ht).
    assert (Hq : In (np.prod t) L).
    { unfold L. apply in_map. apply in_product. exact Ht. }
    assert (H1 : np.prod t = 1).
    { apply term_zero; [apply HL; exact Hq|].
      apply Hz. apply in_map_iff. exists (np.prod t). auto. }
    apply support_tuple_is_tuple in Ht.
    apply (certain_tuple_entries theta t Ht).
    apply prod_one_factors; [|exact H1].
    apply tuple_entries_bounded with theta; assumption.
  - intros Hin1.
    assert (Hz : Forall (fun x => x = 0) (map (fun p => p * ln p) L)).
    { apply Forall_forall. intros x Hx. apply in_map_iff in Hx.
      destruct Hx as (q & <- & Hq). unfold L in Hq.
      apply in_map_iff in Hq. destruct Hq as (t' & <- & Ht').
      apply in_product in Ht'.
      rewrite (point_mass_support_prod theta t' Hd Hin1 Ht').
      rewrite ln_1. lra. }
    apply sum_all_zero in Hz. lra.
Qed.

(** The two convergence measures agree on certainty: on probability
    vectors, [mle] is [1] exactly when [entropy] is [0]. *)
Theorem mle_one_iff_entropy_zero :
  forall theta : list (list R),
    Forall distribution theta ->
    (mle theta = Return 1 <-> entropy theta = 0).
Proof.
  intros theta Hd.
  rewrite (entropy_zero_point_masses theta Hd).
  destruct (maxima_of_distributions theta Hd) as (ms & Hms & Hall).
  unfold mle. rewrite Hms. simpl.
  split.
  - intros [= Hp].
    assert (Hb : Forall (fun x => 0 <= x <= 1) ms).
    { clear -Hall. induction Hall as [|m th ms theta (_ & Hb & _) _ IH];
        constructor; auto. lra. }
    pose proof (prod_one_factors ms Hb Hp) as Hones.
    clear -Hall Hones.
    induction Hall as [|m th ms theta (Hin & _) _ IH]; constructor;
      inversion Hones; subst; auto.
  - intros Hin1. f_equal.
    assert (Hones : Forall (fun x => x = 1) ms).
    { clear -Hall Hin1.
      induction Hall as [|m th ms theta (_ & Hb & Hle) _ IH]; constructor;
        inversion Hin1; subst; auto.
      rewrite Forall_forall in Hle. specialize (Hle 1 H1). lra. }
    clear -Hones. induction Hones; unfold np.prod in *; simpl; [reflexivity|].
    subst. rewrite IHHones. lra.
Qed.

Lemma mle_one_iff_entropy_zero_witness :
  mle [[0; 1; 0]] = Return 1 <-> entropy [[0; 1; 0]] = 0.
Proof.
  apply (mle_one_iff_entropy_zero [[0; 1; 0]]).
  constructor; [|constructor].
  split.
  - repeat constructor; lra.
  - unfold np.sum; simpl; lra.
Defined.

(** ** [discounted_mean] and the baseline *)

Lemma inner_app (a b c d : list R) :
  List.length a = List.length b ->
  np.inner (a ++ c) (b ++ d) = np.inner a b + np.inner c d.
Proof.
  revert b; induction a as [|x a IH]; intros [|y b] H; simpl in *;
    try discriminate.
  - unfold np.inner at 2. unfold np.sum. simpl. lra.
  - unfold np.inner in *. unfold np.sum in *. simpl.
    rewrite IH by lia. lra.
Qed.

Lemma inner_zeros_r (a : list R) (n : nat) : np.inner a (repeat 0 n) = 0.
Proof.
  revert n; induction a as [|x a IH]; intros [|n]; simpl;
    try reflexivity.
  unfold np.inner in *. unfold np.sum in *. simpl. rewrite IH. lra.
Qed.

Lemma inner_ones_r (a : list R) :
  np.inner a (repeat 1 (List.length a)) = np.sum a.
Proof.
  induction a as [|x a IH]; simpl; [reflexivity|].
  unfold np.inner in *. unfold np.sum in *. simpl. rewrite IH. lra.
Qed.

Lemma rev_seq_S (n : nat) : rev (seq 0 (S n)) = n :: rev (seq 0 n).
Proof. rewrite seq_S, rev_app_distr. reflexivity. Qed.

Lemma weights_factor_zero (n : nat) :
  map (pow 0) (rev (seq 0 (S n))) = repeat 0 n ++ [1].
Proof.
  induction n as [|n IH].
  - reflexivity.
  - rewrite rev_seq_S, map_cons, IH. simpl. f_equal. lra.
Qed.

Lemma weights_factor_one (n : nat) :
  map (pow 1) (rev (seq 0 n)) = repeat 1 n.
Proof.
  induction n as [|n IH].
  - reflexivity.
  - rewrite rev_seq_S, map_cons, IH, pow1. reflexivity.
Qed.

Lemma sum_append (a b : list R) : np.sum (a ++ b) = np.sum a + np.sum b.
Proof.
  induction a as [|x a IH]; unfold np.sum in *; simpl; [lra|].
  rewrite IH. lra.
Qed.

Lemma sum_repeat (c : R) (n : nat) : np.sum (repeat c n) = INR n * c.
Proof. apply sum_full. Qed.

Lemma discounted_mean_last (l : list R) (x : R) :
  discounted_mean (l ++ [x]) 0 = x.
Proof.
  unfold discounted_mean.
  replace (List.length (l ++ [x])) with (S (List.length l))
    by (rewrite length_app; simpl; lia).
  rewrite weights_factor_zero.
  rewrite inner_app by (rewrite repeat_length; reflexivity).
  rewrite inner_zeros_r, sum_append, sum_repeat.
  unfold np.inner, np.sum. simpl. field.
Qed.

Lemma discounted_mean_mean (l : list R) :
  l <> [] -> discounted_mean l 1 = np.sum l / INR (List.length l).
Proof.
  intros Hne. unfold discounted_mean.
  rewrite weights_factor_one, inner_ones_r, sum_repeat. f_equal. lra.
Qed.


(** With discount factor [0] the discounted mean is the last entry, so
    with [gamma = 0] and the [diff] option off the baseline of the next
    round is the weighted mean loss that this round recorded. *)
Theorem baseline_is_previous_mean :
  forall (cfg : fedex_cfg) (fbs : list feedback) (s : FedExServer)
         (l : list R) (x : R),
    gamma cfg = 0 -> diff cfg = false ->
    discounted_mean (l ++ [x]) 0 = x /\
    baseline cfg (_trace (after_update cfg fbs s))
    = np.inner (map loss fbs) (weight fbs).
Proof.
  intros cfg fbs s l x Hg Hd.
  split; [apply discounted_mean_last|].
  destruct (update_policy_global_refine cfg fbs s) as (_ & Hr).
  unfold baseline. rewrite Hr, Hd, Hg.
  destruct (tr_refine (_trace s) ++ [np.inner (map loss fbs) (weight fbs)])
    eqn:E.
  - destruct (tr_refine (_trace s)); discriminate.
  - rewrite <- E. apply discounted_mean_last.
Qed.

Lemma baseline_is_previous_mean_witness :
  baseline (example_cfg true false "auto")
    (_trace (after_update (example_cfg true false "auto") [played 0 1]
               frozen_example))
  = np.inner (map loss [played 0 1]) (weight [played 0 1]).
Proof.
  apply (baseline_is_previous_mean (example_cfg true false "auto")
           [played 0 1] frozen_example [] 0); reflexivity.
Defined.

(** With discount factor [1] the discounted mean of a non-empty trace is
    its arithmetic mean. *)
Theorem discounted_mean_unit_factor :
  forall l : list R,
    l <> [] -> discounted_mean l 1 = np.sum l / INR (List.length l).
Proof. intros l Hne. apply discounted_mean_mean. exact Hne. Qed.

Lemma discounted_mean_unit_factor_witness :
  discounted_mean [1; 2; 3] 1 = np.sum [1; 2; 3] / INR 3.
Proof.
  apply (discounted_mean_unit_factor [1; 2; 3]). discriminate.
Defined.

(** ** The weights of a batch *)

Lemma inner_map {A : Type} (f g : A -> R) (l : list A) :
  np.inner (map f l) (map g l) = np.sum (map (fun x => f x * g x) l).
Proof.
  induction l as [|x l IH]; [reflexivity|].
  unfold np.inner in *. unfold np.sum in *. simpl. rewrite IH. reflexivity.
Qed.

Lemma sum_sizes_pos (fbs : list feedback) :
  fbs <> [] -> Forall (fun fb => 0 < sample_size fb) fbs ->
  0 < np.sum (map sample_size fbs).
Proof.
  intros Hne Hpos. apply sum_pos.
  - destruct fbs; [congruence|discriminate].
  - apply Forall_map. exact Hpos.
Qed.

(** The weights of a non-empty batch with positive sample sizes are
    positive and sum to one, so the value recorded in the traces lies
    between the smallest and the largest reported loss. *)
Theorem weights_normalised :
  forall (fbs : list feedback) (lo hi : R),
    fbs <> [] ->
    Forall (fun fb => 0 < sample_size fb) fbs ->
    Forall (fun fb => lo <= loss fb <= hi) fbs ->
    Forall (fun w => 0 < w) (weight fbs) /\
    np.sum (weight fbs) = 1 /\
    lo <= np.inner (map loss fbs) (weight fbs) <= hi.
Proof.
  intros fbs lo hi Hne Hpos Hb.
  pose proof (sum_sizes_pos fbs Hne Hpos) as HS.
  unfold weight. set (S := np.sum (map sample_size fbs)) in *.
  assert (Hw : Forall (fun w => 0 < w)
                 (map (fun w => w / S) (map sample_size fbs))).
  { apply Forall_map. apply Forall_map.
    eapply Forall_impl; [|exact Hpos]. simpl. intros fb Hfb.
    apply Rdiv_lt_0_compat; assumption. }
  assert (Hsum : np.sum (map (fun w => w / S) (map sample_size fbs)) = 1).
  { unfold Rdiv. rewrite sum_scale. fold S. field. lra. }
  split; [exact Hw|]. split; [exact Hsum|].
  rewrite map_map in *. rewrite inner_map.
  rewrite Forall_map in Hw.
  assert (Hgen : lo * np.sum (map (fun x => sample_size x / S) fbs)
                 <= np.sum (map (fun x => loss x * (sample_size x / S)) fbs)
                 <= hi * np.sum (map (fun x => sample_size x / S) fbs)).
  { clear Hsum Hne Hpos HS. clearbody S.
    induction fbs as [|fb fbs IH]; unfold np.sum in *; simpl; [lra|].
    inversion Hw as [|? ? Hfb Hw']; subst.
    inversion Hb as [|? ? Hl Hb']; subst.
    specialize (IH Hb' Hw'). nra. }
  rewrite Hsum in Hgen. lra.
Qed.

Lemma weights_normalised_witness :
  np.sum (weight [played 0 1; played 1 5]) = 1.
Proof.
  apply (weights_normalised [played 0 1; played 1 5] 1 5).
  - discriminate.
  - repeat constructor; simpl; lra.
  - repeat constructor; simpl; lra.
Defined.

Lemma for_each_ext {A : Type} (l : list A) (f g : A -> M unit) :
  (forall a, f a = g a) -> for_each l f = for_each l g.
Proof.
  intros H. induction l as [|a l IH]; simpl; [reflexivity|].
  rewrite H, IH. reflexivity.
Qed.

Lemma rescale_fields (c : R) (fbs : list feedback) :
  map arms (map (rescale c) fbs) = map arms fbs /\
  map loss (map (rescale c) fbs) = map loss fbs /\
  map sample_size (map (rescale c) fbs)
  = map (fun w => w * c) (map sample_size fbs).
Proof.
  rewrite !map_map. simpl. repeat split.
  apply map_ext. intros fb. lra.
Qed.

Lemma weight_rescale (c : R) (fbs : list feedback) :
  0 < c -> Forall (fun fb => 0 < sample_size fb) fbs ->
  weight (map (rescale c) fbs) = weight fbs.
Proof.
  intros Hc Hpos. destruct fbs as [|fb0 fbs0] eqn:E; [reflexivity|].
  rewrite <- E in *.
  assert (HS : 0 < np.sum (map sample_size fbs)).
  { apply sum_sizes_pos; [subst; discriminate|exact Hpos]. }
  unfold weight. destruct (rescale_fields c fbs) as (_ & _ & ->).
  rewrite sum_scale, map_map. apply map_ext. intros w. field. lra.
Qed.

(** Only the proportions of the sample sizes matter: multiplying every
    sample size of a batch by one positive factor changes nothing in the
    outcome of [update_policy] nor in the server it leaves. *)
Theorem update_policy_rescale :
  forall (cfg : fedex_cfg) (c : R) (fbs : list feedback) (s : FedExServer),
    0 < c -> Forall (fun fb => 0 < sample_size fb) fbs ->
    update_policy cfg (map (rescale c) fbs) s = update_policy cfg fbs s.
Proof.
  intros cfg c fbs s Hc Hpos.
  pose proof (weight_rescale c fbs Hc Hpos) as Hw.
  destruct (rescale_fields c fbs) as (Ha & Hl & _).
  assert (Hsig : signal cfg (map (rescale c) fbs) = signal cfg fbs).
  { unfold signal, after, before. rewrite Hl. reflexivity. }
  assert (Hstep : forall b i,
            aspect_step cfg (map (rescale c) fbs) b i
            = aspect_step cfg fbs b i).
  { intros b i. unfold aspect_step. rewrite Ha, Hsig, Hw. reflexivity. }
  unfold update_policy, before, after. rewrite Hl, Hw.
  unfold bindM at 1. unfold bindM at 4. unfold get. 
  rewrite (for_each_ext _ _ _ (Hstep (baseline cfg (_trace s)))).
  reflexivity.
Qed.

Lemma update_policy_rescale_witness :
  update_policy (example_cfg true false "auto")
    (map (rescale 10) [played 0 1; played 1 5]) frozen_example
  = update_policy (example_cfg true false "auto")
      [played 0 1; played 1 5] frozen_example.
Proof.
  apply (update_policy_rescale (example_cfg true false "auto") 10
           [played 0 1; played 1 5] frozen_example).
  - lra.
  - repeat constructor; simpl; lra.
Defined.

(** ** The loop body, step by step *)

(** A batch whose signals all equal the baseline leaves the gradient at
    zero. *)
Lemma gradient_at_baseline i th b (l : list (list nat * (R * R))) :
  Forall (fun isw => fst (snd isw) = b) l ->
  forall grad g, gradient i th b grad l = Return g -> g = grad.
Proof.
  induction 1 as [|isw l Hs _ IH]; intros grad g; simpl.
  - intros [= <-]. reflexivity.
  - unfold accumulate.
    destruct (subscript (fst isw) i) as [a|]; simpl; [|discriminate].
    destruct (subscript grad a) as [g0|] eqn:Eg; simpl; [|discriminate].
    destruct (subscript th a) as [p|]; simpl; [|discriminate].
    rewrite Hs.
    replace (g0 + snd (snd isw) * (b - b) / p) with g0
      by (unfold Rdiv; ring).
    apply subscript_Return in Eg. rewrite (setitem_same _ _ _ Eg).
    apply IH.
Qed.

Lemma all_zero_zeros (n : nat) : np.all_zero (np.zeros n) = true.
Proof.
  unfold np.all_zero, np.zeros. induction n as [|n IH]; simpl; [reflexivity|].
  destruct (Req_dec_T 0 0); [exact IH|congruence].
Qed.

Lemma vsub_zero_step (z : list R) (eta : R) :
  vsub z (map (Rmult eta) (np.zeros (List.length z))) = z.
Proof.
  unfold vsub, np.zeros. induction z as [|x z IH]; simpl; [reflexivity|].
  rewrite IH. f_equal. lra.
Qed.

Lemma map_minus_zero (z : list R) : map (fun x => x - 0) z = z.
Proof.
  induction z as [|x z IH]; simpl; [reflexivity|]. rewrite IH. f_equal. lra.
Qed.

(** The schedules other than [adaptive] yield a denominator when the
    gradient is zero. *)
Lemma denominator_zero_gradient cfg i n s :
  In (sched cfg) ["aggressive"; "auto"; "constant"; "scale"]%string ->
  (i < List.length (_store s))%nat ->
  exists d s1, denominator cfg i (np.zeros n) s = (Return d, s1).
Proof.
  intros Hs Hi. unfold denominator.
  destruct (subscript_in_range (_store s) i Hi) as (c & Hc).
  destruct Hs as [<-|[<-|[<-|[<-|[]]]]]; simpl; run_M.
  - rewrite all_zero_zeros. eauto.
  - rewrite Hc. simpl.
    assert (Hi' : (i < List.length (setitem (_store s) i (c + 1)%R))%nat)
      by (rewrite length_setitem; exact Hi).
    destruct (subscript_in_range _ i Hi') as (c' & ->). eauto.
  - eauto.
  - eauto.
Qed.

(** On a steady aspect a zero gradient changes nothing. *)
Lemma aspect_step_steady cfg fbs b i s :
  In (sched cfg) ["aggressive"; "auto"; "constant"; "scale"]%string ->
  Forall (fun x => x = b) (signal cfg fbs) ->
  steady fbs s i ->
  exists s',
    aspect_step cfg fbs b i s = (Return tt, s') /\
    _z s' = _z s /\ _theta s' = _theta s /\ same_frame s s'.
Proof.
  intros Hs Hsig (z & Hz & Ht & Hn & He & Hst & Harms).
  assert (Hzs : subscript (_z s) i = Return z)
    by (apply subscript_Return; exact Hz).
  assert (Hts : subscript (_theta s) i = Return (np.exp z))
    by (apply subscript_Return; exact Ht).
  destruct (gradient_Return i (np.exp z) b
              (combine (map arms fbs) (combine (signal cfg fbs) (weight fbs)))
              (np.zeros (List.length z))) as (g & Hg & _).
  { unfold np.exp, np.zeros. rewrite length_map, repeat_length. reflexivity. }
  { unfold np.zeros. rewrite repeat_length. apply batch_in_range. exact Harms. }
  assert (g = np.zeros (List.length z)).
  { apply (gradient_at_baseline i (np.exp z) b _) with (2 := Hg).
    apply Forall_forall. intros [idx [x w]] Hin. simpl.
    apply in_combine_r in Hin. apply in_combine_l in Hin.
    rewrite Forall_forall in Hsig. auto. }
  subst g.
  destruct (denominator_zero_gradient cfg i (List.length z) s Hs Hst)
    as (d & s1 & Hd).
  destruct (subscript_in_range (_eta0 s) i He) as (e0 & He0).
  assert (Hl : logsumexp (vsub z (map (Rmult (divide e0 d))
                                    (np.zeros (List.length z))))
               = Return 0).
  { rewrite vsub_zero_step. unfold logsumexp.
    destruct z as [|x z]; [unfold np.sum in Hn; simpl in Hn; lra|].
    rewrite Hn, ln_1. reflexivity. }
  destruct (aspect_step_eq cfg fbs b i s z (np.exp z) _ d s1 e0 0
              Hzs Hts Hg Hd He0 Hl) as (s' & Hstep & Ez & Et & Hf).
  exists s'. split; [exact Hstep|].
  rewrite vsub_zero_step, map_minus_zero in Ez, Et.
  rewrite (setitem_same _ _ _ Hz) in Ez.
  rewrite (setitem_same _ _ _ Ht) in Et. auto.
Qed.

Lemma steady_preserved fbs s s' i :
  _z s' = _z s -> _theta s' = _theta s -> same_frame s s' ->
  steady fbs s i -> steady fbs s' i.
Proof.
  intros Hz Ht (_ & _ & _ & He & _ & _ & Hst) (z & H1 & H2 & H3 & H4 & H5 & H6).
  exists z. rewrite Hz, Ht, He, Hst. auto 10.
Qed.

Lemma for_each_steady cfg fbs b l :
  In (sched cfg) ["aggressive"; "auto"; "constant"; "scale"]%string ->
  Forall (fun x => x = b) (signal cfg fbs) ->
  forall s,
    Forall (steady fbs s) l ->
    exists s',
      for_each l (aspect_step cfg fbs b) s = (Return tt, s') /\
      _z s' = _z s /\ _theta s' = _theta s /\ same_frame s s'.
Proof.
  intros Hs Hsig. induction l as [|i l IH]; intros s Hall; simpl.
  - exists s. unfold ret. repeat split; auto.
  - inversion Hall as [|? ? Hi Hl]; subst.
    destruct (aspect_step_steady cfg fbs b i s Hs Hsig Hi)
      as (s1 & Hstep & Hz & Ht & Hf).
    destruct (IH s1) as (s' & Hrest & Hz' & Ht' & Hf').
    { eapply Forall_impl; [|exact Hl]. intros j.
      apply steady_preserved; assumption. }
    exists s'. unfold bindM. rewrite Hstep.
    split; [exact Hrest|].
    split; [congruence|]. split; [congruence|].
    eapply same_frame_trans; eassumption.
Qed.

(** ** What no call of [update_policy] changes *)

Lemma update_policy_frame cfg fbs s :
  _eta0 (after_update cfg fbs s) = _eta0 s /\
  _cfsp (after_update cfg fbs s) = _cfsp s /\
  List.length (_z (after_update cfg fbs s)) = List.length (_z s) /\
  List.length (_theta (after_update cfg fbs s)) = List.length (_theta s) /\
  List.length (_store (after_update cfg fbs s)) = List.length (_store s).
Proof.
  unfold after_update, update_policy. run_M.
  destruct (_stop_exploration s); simpl.
  - repeat split; reflexivity.
  - match goal with |- context [for_each ?l ?f ?s0] =>
      destruct (for_each l f s0) as [[[]|e] s1] eqn:E end;
      apply for_each_frame in E;
      destruct E as (_ & _ & Hc & He & Hz & Ht & Hs); simpl in *.
    + destruct (mle (_theta s1)); simpl;
        [destruct (Rlt_dec _ _)|]; simpl; auto.
    + auto.
Qed.

Lemma inner_zeros_l {A : Type} (l : list A) (w : list R) :
  np.inner (map (fun _ => 0) l) w = 0.
Proof.
  revert w; induction l as [|x l IH]; intros [|y w]; simpl;
    try reflexivity.
  unfold np.inner in *. unfold np.sum in *. simpl. rewrite IH. lra.
Qed.

(** With the [diff] option on and equal traces the baseline is zero. *)
Lemma baseline_diff_zero cfg t :
  diff cfg = true -> tr_global t = tr_refine t -> baseline cfg t = 0.
Proof.
  intros Hd Ht. unfold baseline. rewrite Hd, Ht.
  destruct (tr_refine t) as [|x l] eqn:E; [reflexivity|].
  rewrite vsub_self. unfold discounted_mean. rewrite inner_zeros_l.
  unfold Rdiv. ring.
Qed.

Lemma signal_diff_zero cfg fbs :
  diff cfg = true -> Forall (fun x => x = 0) (signal cfg fbs).
Proof.
  intros Hd. unfold signal, after, before. rewrite Hd, vsub_self.
  apply Forall_forall. intros x Hx. apply in_map_iff in Hx.
  destruct Hx as (y & <- & _). reflexivity.
Qed.

Lemma steady_distributions fbs s :
  List.length (_z s) = List.length (_theta s) ->
  (forall i, (i < List.length (_z s))%nat -> steady fbs s i) ->
  Forall distribution (_theta s).
Proof.
  intros Hlen Hall. apply Forall_forall. intros th Hth.
  apply In_nth_error in Hth. destruct Hth as (i & Hi).
  assert (Hlt : (i < List.length (_z s))%nat)
    by (rewrite Hlen; apply nth_error_Some; congruence).
  destruct (Hall i Hlt) as (z & _ & Ht & Hn & _).
  assert (th = np.exp z) by congruence. subst th.
  split; [|exact Hn].
  eapply Forall_impl; [|apply exp_all_pos]. simpl. intros; lra.
Qed.

(** A round whose signals all equal the baseline, on a server whose
    aspects are steady, returns and leaves the policy as it was. *)
Lemma update_policy_steady cfg fbs s :
  In (sched cfg) ["aggressive"; "auto"; "constant"; "scale"]%string ->
  _stop_exploration s = false ->
  List.length (_z s) = List.length (_theta s) ->
  Forall (fun x => x = baseline cfg (_trace s)) (signal cfg fbs) ->
  (forall i, (i < List.length (_z s))%nat -> steady fbs s i) ->
  fst (update_policy cfg fbs s) = Return tt /\
  _z (after_update cfg fbs s) = _z s /\
  _theta (after_update cfg fbs s) = _theta s.
Proof.
  intros Hs Hstop Hlen Hsig Hall.
  destruct (update_policy_exploring cfg fbs s Hstop)
    as (s0 & r1 & s1 & Hz0 & Ht0 & Hst0 & He0 & E & Hz & Ht & _ & Hiff & _).
  rewrite <- Hlen, Nat.min_id in E.
  destruct (for_each_steady cfg fbs (baseline cfg (_trace s))
              (seq 0 (List.length (_z s))) Hs Hsig s0)
    as (s' & Hrun & Hz' & Ht' & _).
  { apply Forall_forall. intros i Hi. apply in_seq in Hi.
    destruct (Hall i) as (z & H1 & H2 & H3 & H4 & H5 & H6); [lia|].
    exists z. rewrite Hz0, Ht0, Hst0, He0. auto 10. }
  rewrite Hrun in E. inversion E; subst r1 s1; clear E.
  split; [|split; congruence].
  apply Hiff. split; [reflexivity|].
  rewrite Ht', Ht0.
  destruct (maxima_of_distributions (_theta s)
              (steady_distributions fbs s Hlen Hall)) as (ms & Hms & _).
  unfold mle. rewrite Hms. simpl. eauto.
Qed.

(** Over rounds, with the [diff] option on: the traces stay equal, so
    every baseline and every signal is zero and the single aspect never
    moves, whether exploration goes on or has stopped. *)
Lemma rounds_with_diff cfg batches :
  diff cfg = true ->
  In (sched cfg) ["aggressive"; "auto"; "constant"; "scale"]%string ->
  forall s z,
    tr_global (_trace s) = tr_refine (_trace s) ->
    _z s = [z] -> _theta s = [np.exp z] -> np.sum (np.exp z) = 1 ->
    (0 < List.length (_eta0 s))%nat -> (0 < List.length (_store s))%nat ->
    Forall (arms_in_range 0 (List.length z)) batches ->
    _z (rounds cfg batches s) = [z] /\
    _theta (rounds cfg batches s) = [np.exp z].
Proof.
  intros Hd Hs. unfold rounds.
  induction batches as [|fbs t IH]; simpl;
    intros s z Htr Hz Ht Hn He Hst Hb.
  - auto.
  - inversion Hb as [|? ? Hfbs Hb']; subst.
    destruct (update_policy_global_refine cfg fbs s) as (Hg' & Hr').
    destruct (update_policy_frame cfg fbs s) as (He' & _ & _ & _ & Hst').
    assert (Hkeep : _z (after_update cfg fbs s) = _z s /\
                    _theta (after_update cfg fbs s) = _theta s).
    { destruct (_stop_exploration s) eqn:Hstop.
      - destruct (update_policy_frozen cfg fbs s Hstop) as (_ & _ & A & B & _).
        auto.
      - destruct (update_policy_steady cfg fbs s) as (_ & A & B); auto.
        + rewrite Hz, Ht. reflexivity.
        + rewrite (baseline_diff_zero cfg _ Hd Htr).
          apply signal_diff_zero. exact Hd.
        + rewrite Hz. simpl. intros i Hi. assert (i = 0%nat) by lia. subst i.
          exists z. rewrite Hz, Ht. simpl. auto 10. }
    destruct Hkeep as (Hz' & Ht').
    apply IH; congruence.
Qed.

(** With the [diff] option on the server never learns: under the
    schedules that can run, however many rounds are played and whatever
    losses the clients report, the log-probabilities and probabilities are
    those of the construction. *)
Theorem diff_never_learns :
  forall (cfg : fedex_cfg) (rs : nat -> list hyperparam) (s0 : FedExServer)
         (batches : list (list feedback)),
    diff cfg = true ->
    In (sched cfg) ["aggressive"; "auto"; "constant"; "scale"]%string ->
    __init__ cfg rs = Return s0 ->
    Forall (arms_in_range 0 (List.length (rs (num_arms cfg)))) batches ->
    _z (rounds cfg batches s0) = _z s0 /\
    _theta (rounds cfg batches s0) = _theta s0.
Proof.
  intros cfg rs s0 batches Hd Hs Hinit Hb.
  apply init_Return in Hinit. destruct Hinit as (_ & m & Hm & ->).
  set (cands := rs (num_arms cfg)) in *.
  set (n := List.length cands) in *.
  assert (Hn : (0 < n)%nat).
  { destruct n; [|lia]. unfold mle in Hm. simpl in Hm. discriminate. }
  apply (rounds_with_diff cfg batches Hd Hs (initial cands m)
           (np.full n (- ln (INR n)))); simpl; auto.
  - fold n. rewrite exp_full, exp_neg_ln_size, sum_full by exact Hn.
    assert (0 < INR n) by (apply lt_0_INR; exact Hn).
    field. lra.
  - unfold np.full. rewrite repeat_length. exact Hb.
Qed.

Lemma diff_never_learns_witness :
  exists s0,
    __init__ (example_cfg true true "auto") (fun _ => three_arms) = Return s0 /\
    _theta (rounds (example_cfg true true "auto")
              [[played 0 1; played 1 5]; [played 2 4]] s0) = _theta s0.
Proof.
  eexists. split.
  - unfold __init__, mle. simpl. reflexivity.
  - apply (diff_never_learns (example_cfg true true "auto")
             (fun _ => three_arms) _ [[played 0 1; played 1 5]; [played 2 4]]).
    + reflexivity.
    + simpl; auto.
    + unfold __init__, mle. simpl. reflexivity.
    + repeat constructor; eexists; (split; [reflexivity|simpl; lia]).
Defined.

(** ** What a round records, and when exploration stops *)

(** A returning round on an exploring server, as seen in the traces and
    in the flag. *)
Lemma update_policy_exploring_record cfg fbs s :
  _stop_exploration s = false ->
  fst (update_policy cfg fbs s) = Return tt ->
  exists m,
    mle (_theta (after_update cfg fbs s)) = Return m /\
    tr_entropy (_trace (after_update cfg fbs s))
    = tr_entropy (_trace s) ++ [entropy (_theta (after_update cfg fbs s))] /\
    tr_mle (_trace (after_update cfg fbs s)) = tr_mle (_trace s) ++ [m] /\
    _stop_exploration (after_update cfg fbs s)
    = (if Rlt_dec (entropy (_theta (after_update cfg fbs s))) (cutoff cfg)
       then true else false).
Proof.
  intros Hstop. unfold after_update, update_policy. run_M. rewrite Hstop.
  match goal with |- context [for_each ?l ?f ?s0] =>
    destruct (for_each l f s0) as [[[]|e] s1] eqn:E end;
    simpl; [|discriminate].
  apply for_each_frame in E. destruct E as (Ht & Hs & _). simpl in Ht, Hs.
  destruct (mle (_theta s1)) as [m|e] eqn:Em; simpl; [|discriminate].
  intros _. exists m.
  destruct (Rlt_dec (entropy (_theta s1)) (cutoff cfg)) as [Hlt|Hge]; simpl;
    rewrite Em, Ht; simpl.
  - destruct (Rlt_dec _ _); [|contradiction]. auto.
  - destruct (Rlt_dec _ _); [contradiction|]. rewrite Hs, Hstop. auto.
Qed.

(** A raising round leaves the flag alone. *)
Lemma update_policy_raise_keeps_flag cfg fbs s e :
  fst (update_policy cfg fbs s) = Raise e ->
  _stop_exploration (after_update cfg fbs s) = _stop_exploration s.
Proof.
  unfold after_update, update_policy. run_M.
  destruct (_stop_exploration s) eqn:Hstop; simpl; [discriminate|].
  match goal with |- context [for_each ?l ?f ?s0] =>
    destruct (for_each l f s0) as [[[]|e1] s1] eqn:E end;
    apply for_each_frame in E; destruct E as (_ & Hs & _); simpl in Hs.
  - destruct (mle (_theta s1)) as [m|e1]; simpl.
    + destruct (Rlt_dec _ _); simpl; discriminate.
    + intros _. rewrite Hs, Hstop. reflexivity.
  - simpl. intros _. rewrite Hs, Hstop. reflexivity.
Qed.

(** What a returning round records: when the server is frozen, the
    placeholders [0] and [1]; when it explores, the entropy and the mle of
    the new probabilities, and the flag is set exactly when that entropy is
    below the cutoff. *)
Theorem round_record :
  forall (cfg : fedex_cfg) (fbs : list feedback) (s : FedExServer),
    fst (update_policy cfg fbs s) = Return tt ->
    exists e m,
      tr_entropy (_trace (after_update cfg fbs s))
      = tr_entropy (_trace s) ++ [e] /\
      tr_mle (_trace (after_update cfg fbs s)) = tr_mle (_trace s) ++ [m] /\
      (_stop_exploration s = true -> e = 0 /\ m = 1) /\
      (_stop_exploration s = false ->
       e = entropy (_theta (after_update cfg fbs s)) /\
       mle (_theta (after_update cfg fbs s)) = Return m /\
       (_stop_exploration (after_update cfg fbs s) = true <->
        e < cutoff cfg)).
Proof.
  intros cfg fbs s Hret.
  destruct (_stop_exploration s) eqn:Hstop.
  - exists 0, 1. unfold after_update, update_policy. run_M. rewrite Hstop.
    simpl. repeat split; auto; discriminate.
  - destruct (update_policy_exploring_record cfg fbs s Hstop Hret)
      as (m & Hm & He & Hml & Hfl).
    exists (entropy (_theta (after_update cfg fbs s))), m.
    split; [exact He|]. split; [exact Hml|].
    split; [discriminate|]. intros _.
    split; [reflexivity|]. split; [exact Hm|].
    rewrite Hfl. destruct (Rlt_dec _ _); split; auto; discriminate.
Qed.

Lemma round_record_witness :
  exists e m,
    tr_entropy (_trace (after_update (example_cfg true false "auto")
                          [played 0 1] frozen_example))
    = tr_entropy (_trace frozen_example) ++ [e] /\
    tr_mle (_trace (after_update (example_cfg true false "auto")
                      [played 0 1] frozen_example))
    = tr_mle (_trace frozen_example) ++ [m].
Proof.
  destruct (round_record (example_cfg true false "auto") [played 0 1]
              frozen_example) as (e & m & He & Hm & _).
  - reflexivity.
  - exists e, m. split; assumption.
Defined.

Lemma entropy_nonneg (theta : list (list R)) :
  Forall distribution theta -> 0 <= entropy theta.
Proof.
  intros Hd. rewrite entropy_joint. unfold joint_entropy.
  assert (Hterms : Forall (fun x => x <= 0)
            (map (fun p => p * ln p)
               (map np.prod (product (map np.select_positive theta))))).
  { apply Forall_forall. intros x Hx. apply in_map_iff in Hx.
    destruct Hx as (q & <- & Hq). apply term_nonpos.
    apply in_map_iff in Hq. destruct Hq as (t & <- & Ht).
    apply in_product in Ht. apply support_tuple_bounds with theta; auto. }
  apply sum_nonpos in Hterms. lra.
Qed.

Lemma normalised_distributions (zs : list (list R)) :
  Forall (fun th => np.sum th = 1) (map np.exp zs) ->
  Forall distribution (map np.exp zs).
Proof.
  intros H. apply Forall_forall. intros th Hth.
  rewrite Forall_forall in H. split; [|apply H; exact Hth].
  apply in_map_iff in Hth. destruct Hth as (z & <- & _).
  eapply Forall_impl; [|apply exp_all_pos]. simpl. intros; lra.
Qed.

Lemma update_keeps_exploring cfg fbs s :
  cutoff cfg <= 0 ->
  _stop_exploration s = false ->
  List.length (_z s) = List.length (_theta s) ->
  _stop_exploration (after_update cfg fbs s) = false.
Proof.
  intros Hc Hstop Hlen.
  destruct (fst (update_policy cfg fbs s)) as [[]|e] eqn:Hret.
  - destruct (update_policy_exploring_record cfg fbs s Hstop Hret)
      as (_ & _ & _ & _ & Hfl).
    rewrite Hfl. destruct (Rlt_dec _ _) as [Hlt|]; [|reflexivity].
    destruct (update_policy_returns_normalised cfg fbs s Hstop Hlen Hret)
      as (_ & Hth & Hn).
    rewrite Hth in Hn, Hlt.
    pose proof (entropy_nonneg _ (normalised_distributions _ Hn)). lra.
  - rewrite (update_policy_raise_keeps_flag cfg fbs s e Hret). exact Hstop.
Qed.

(** With a cutoff that is not positive, exploration never stops: the
    entropy of the probabilities is never negative, so the flag stays
    [False] through any number of rounds, whatever their outcome. *)
Theorem never_stops_without_cutoff :
  forall (cfg : fedex_cfg) (batches : list (list feedback)) (s : FedExServer),
    cutoff cfg <= 0 ->
    _stop_exploration s = false ->
    List.length (_z s) = List.length (_theta s) ->
    _stop_exploration (rounds cfg batches s) = false.
Proof.
  intros cfg batches s Hc. unfold rounds. revert s.
  induction batches as [|fbs t IH]; simpl; intros s Hstop Hlen.
  - exact Hstop.
  - apply IH.
    + apply update_keeps_exploring; assumption.
    + destruct (update_policy_frame cfg fbs s) as (_ & _ & Hz & Ht & _).
      congruence.
Qed.

Lemma never_stops_without_cutoff_witness :
  _stop_exploration
    (rounds (example_cfg true false "auto")
       [[played 0 1]; [played 1 2]] (initial three_arms (1 / 3))) = false.
Proof.
  apply (never_stops_without_cutoff (example_cfg true false "auto")
           [[played 0 1]; [played 1 2]] (initial three_arms (1 / 3))).
  - simpl; lra.
  - reflexivity.
  - reflexivity.
Defined.

(** The [global] and [refine] traces count the calls: after any rounds,
    whatever their outcome, each is longer by the number of rounds. *)
Theorem global_trace_counts_rounds :
  forall (cfg : fedex_cfg) (batches : list (list feedback)) (s : FedExServer),
    List.length (tr_global (_trace (rounds cfg batches s)))
    = (List.length (tr_global (_trace s)) + List.length batches)%nat /\
    List.length (tr_refine (_trace (rounds cfg batches s)))
    = (List.length (tr_refine (_trace s)) + List.length batches)%nat.
Proof.
  intros cfg batches. unfold rounds.
  induction batches as [|fbs t IH]; simpl; intros s.
  - split; lia.
  - destruct (IH (after_update cfg fbs s)) as (Hg & Hr).
    destruct (update_policy_global_refine cfg fbs s) as (Hg' & Hr').
    rewrite Hg, Hr, Hg', Hr', !length_app. simpl. split; lia.
Qed.

(** ** Arms that were not played *)

Lemma aspect_step_inv cfg fbs b i s s' :
  aspect_step cfg fbs b i s = (Return tt, s') ->
  exists z th grad eta lse,
    nth_error (_z s) i = Some z /\
    nth_error (_theta s) i = Some th /\
    gradient i th b (np.zeros (List.length z))
      (combine (map arms fbs) (combine (signal cfg fbs) (weight fbs)))
    = Return grad /\
    _z s' = setitem (_z s) i
              (map (fun x => x - lse) (vsub z (map (Rmult eta) grad))) /\
    _theta s' = setitem (_theta s) i
                  (np.exp (map (fun x => x - lse)
                             (vsub z (map (Rmult eta) grad)))).
Proof.
  unfold aspect_step. intros H.
  unfold bindM at 1, get at 1 in H.
  unfold bindM at 1, lift at 1 in H.
  destruct (subscript (_z s) i) as [z|] eqn:Ez; [|discriminate].
  unfold bindM at 1, lift at 1 in H.
  destruct (subscript (_theta s) i) as [theta|] eqn:Et; [|discriminate].
  unfold bindM at 1, lift at 1 in H.
  destruct (gradient _ _ _ _ _) as [grad|] eqn:Eg; [|discriminate].
  unfold bindM at 1 in H.
  destruct (denominator cfg i grad s) as [[d|] s1] eqn:Ed; [|discriminate].
  apply denominator_frame in Ed. destruct Ed as (Hf & Hz & Ht).
  run_M.
  destruct (subscript (_eta0 s) i) as [eta0|]; [|discriminate].
  destruct (logsumexp _) as [lse|] eqn:El; [|discriminate].
  inversion H; subst s'; clear H; simpl.
  exists z, theta, grad, (divide eta0 d), lse.
  apply subscript_Return in Ez, Et.
  repeat split; auto.
  - rewrite Hz. clear. generalize (_z s). intros l. revert i.
    induction l as [|h t IH]; intros [|j]; simpl; auto.
    f_equal; apply IH.
  - rewrite Ht. reflexivity.
Qed.

Lemma gradient_unplayed i th b a (l : list (list nat * (R * R))) :
  Forall (fun isw => nth_error (fst isw) i <> Some a) l ->
  forall grad g,
    gradient i th b grad l = Return g ->
    nth_error g a = nth_error grad a.
Proof.
  induction 1 as [|isw l Hs _ IH]; intros grad g; simpl.
  - intros [= <-]. reflexivity.
  - unfold accumulate.
    destruct (subscript (fst isw) i) as [a'|] eqn:Ea; simpl; [|discriminate].
    destruct (subscript grad a') as [g0|]; simpl; [|discriminate].
    destruct (subscript th a') as [p|]; simpl; [|discriminate].
    intros Hg. rewrite (IH _ _ Hg).
    apply nth_error_setitem_other.
    apply subscript_Return in Ea. congruence.
Qed.

Lemma nth_error_vsub (a b : list R) (k : nat) (x y : R) :
  nth_error a k = Some x -> nth_error b k = Some y ->
  nth_error (vsub a b) k = Some (x - y).
Proof.
  unfold vsub. revert b k. induction a as [|h a IH]; intros [|h' b] [|k];
    simpl; try discriminate.
  - intros [= ->] [= ->]. reflexivity.
  - apply IH.
Qed.

(** In a returning round on a one-aspect server, the arms that no client
    played all have their probability multiplied by one and the same
    positive factor: among themselves they keep their proportions. *)
Theorem unplayed_arms_keep_proportions :
  forall (cfg : fedex_cfg) (fbs : list feedback) (s : FedExServer)
         (z : list R),
    _stop_exploration s = false ->
    _z s = [z] -> _theta s = [np.exp z] ->
    fst (update_policy cfg fbs s) = Return tt ->
    exists c th',
      0 < c /\
      _theta (after_update cfg fbs s) = [th'] /\
      forall a p,
        unplayed 0 a fbs ->
        nth_error (np.exp z) a = Some p ->
        nth_error th' a = Some (c * p).
Proof.
  intros cfg fbs s z Hstop Hz Ht Hret.
  destruct (update_policy_exploring cfg fbs s Hstop)
    as (s0 & r1 & s1 & Hz0 & Ht0 & _ & _ & E & _ & Hta & _ & Hiff & _).
  apply Hiff in Hret. destruct Hret as (-> & _).
  rewrite Hz, Ht in E. simpl in E. unfold bindM in E.
  destruct (aspect_step cfg fbs (baseline cfg (_trace s)) 0 s0)
    as [[[]|e] s2] eqn:Estep; [|discriminate].
  unfold ret in E. inversion E; subst s2; clear E.
  apply aspect_step_inv in Estep.
  destruct Estep as (z' & th & grad & eta & lse & Ez & Eth & Eg & _ & Et').
  rewrite Hz0, Hz in Ez. rewrite Ht0, Ht in Eth.
  simpl in Ez, Eth. injection Ez as <-. injection Eth as <-.
  rewrite Ht0, Ht in Et'. simpl in Et'.
  exists (Rtrigo_def.exp (- lse)). eexists.
  split; [apply exp_pos|]. split; [rewrite Hta; exact Et'|].
  intros a p Hun Hp.
  unfold np.exp in Hp. rewrite nth_error_map in Hp.
  destruct (nth_error z a) as [za|] eqn:Eza; [|discriminate].
  simpl in Hp. injection Hp as <-.
  assert (Hga : nth_error grad a = Some 0).
  { rewrite (gradient_unplayed 0 (np.exp z) _ a _) with (2 := Eg).
    - unfold np.zeros. apply nth_error_repeat.
      apply nth_error_Some. congruence.
    - apply Forall_forall. intros [idx sw] Hin. cbn [fst].
      apply in_combine_l in Hin. apply in_map_iff in Hin.
      destruct Hin as (fb & <- & Hfb).
      unfold unplayed in Hun. rewrite Forall_forall in Hun.
      apply Hun. exact Hfb. }
  unfold np.exp. rewrite nth_error_map, nth_error_map.
  rewrite (nth_error_vsub z (map (Rmult eta) grad) a za (eta * 0) Eza)
    by (rewrite nth_error_map, Hga; reflexivity).
  simpl. f_equal. rewrite <- exp_plus. f_equal. ring.
Qed.

Lemma unplayed_arms_keep_proportions_witness :
  exists c th',
    0 < c /\
    _theta (after_update (example_cfg true false "auto") [played 0 1]
              (initial three_arms (1 / 3))) = [th'].
Proof.
  destruct (unplayed_arms_keep_proportions (example_cfg true false "auto")
              [played 0 1] (initial three_arms (1 / 3))
              (np.full 3 (- ln (INR 3))))
    as (c & th' & Hc & Hth & _).
  - reflexivity.
  - reflexivity.
  - reflexivity.
  - unfold update_policy, aspect_step, denominator. run_M.
    destruct (Rlt_dec _ _); reflexivity.
  - exists c, th'. split; assumption.
Defined.

(** ** The [aggressive] schedule *)

Lemma denominator_aggressive cfg i grad s :
  sched cfg = "aggressive"%string ->
  np.all_zero grad = false ->
  denominator cfg i grad s = (Raise NameError, s).
Proof.
  intros H Hz. unfold denominator. rewrite H. simpl. rewrite Hz.
  run_M. reflexivity.
Qed.

(** Under [aggressive], a round whose first aspect gets a gradient that
    is not all zero raises [NameError] on the unbound [norm]; the
    log-probabilities, probabilities and accumulators are left alone.  (With
    a zero gradient the denominator is [1.0] and the round goes on.) *)
Theorem aggressive_schedule_raises :
  forall (cfg : fedex_cfg) (fbs : list feedback) (s : FedExServer)
         (z th g : list R) (zs ths : list (list R)),
    sched cfg = "aggressive"%string ->
    _stop_exploration s = false ->
    _z s = z :: zs -> _theta s = th :: ths ->
    gradient 0 th (baseline cfg (_trace s)) (np.zeros (List.length z))
      (combine (map arms fbs) (combine (signal cfg fbs) (weight fbs)))
    = Return g ->
    np.all_zero g = false ->
    fst (update_policy cfg fbs s) = Raise NameError /\
    _z (after_update cfg fbs s) = _z s /\
    _theta (after_update cfg fbs s) = _theta s /\
    _store (after_update cfg fbs s) = _store s.
Proof.
  intros cfg fbs s z th g zs ths Hsched Hstop Hz Ht Hg Hnz.
  unfold after_update, update_policy. run_M. rewrite Hstop, Hz, Ht. simpl.
  unfold aspect_step. run_M. rewrite Hz, Ht. simpl.
  rewrite Hg. rewrite denominator_aggressive by assumption. simpl.
  repeat split; auto.
Qed.

Lemma aggressive_schedule_raises_witness :
  fst (update_policy (example_cfg true false "aggressive") [played 0 1]
         (initial three_arms (1 / 3))) = Raise NameError.
Proof.
  eapply (aggressive_schedule_raises (example_cfg true false "aggressive")
            [played 0 1] (initial three_arms (1 / 3))
            (np.full 3 (- ln (INR 3))) (np.exp (np.full 3 (- ln (INR 3))))
            _ [] []).
  - reflexivity.
  - reflexivity.
  - reflexivity.
  - reflexivity.
  - unfold signal, weight, after, accumulate. simpl. reflexivity.
  - unfold np.all_zero. simpl.
    destruct (Req_dec_T _ 0) as [H|_]; [exfalso|reflexivity].
    unfold np.sum, baseline in H. simpl in H.
    pose proof (exp_pos (- ln (1 + 1 + 1))) as Hp.
    assert (Hq : 0 + 1 / (1 + 0) * (1 - 0) / Rtrigo_def.exp (- ln (1 + 1 + 1))
                 = / Rtrigo_def.exp (- ln (1 + 1 + 1))) by (field; lra).
    rewrite Hq in H. pose proof (Rinv_0_lt_compat _ Hp). lra.
Defined.

(** ** [sample] *)

Lemma traverse_Return {A B : Type} (f : A -> result B) (l : list A)
    (bs : list B) :
  traverse f l = Return bs -> Forall2 (fun a b => f a = Return b) l bs.
Proof.
  revert bs; induction l as [|a l IH]; simpl; intros bs.
  - intros [= <-]. constructor.
  - destruct (f a) as [b|] eqn:E; simpl; [|discriminate].
    destruct (traverse f l) as [bs'|]; simpl; [|discriminate].
    intros [= <-]. constructor; auto.
Qed.

(** Whatever the mode, [sample] returns one arm index per aspect, and the
    configurations it returns are the candidates at these indices; while
    exploring, the indices are the draws of the random source. *)
Theorem sample_indices_and_configurations :
  forall (choice : nat -> list R -> result nat) (s : FedExServer)
         (idx : list nat) (cfgs : list hyperparam),
    sample choice s = Return (idx, cfgs) ->
    List.length idx = List.length (_theta s) /\
    selects (_cfsp s) idx cfgs /\
    (_stop_exploration s = false ->
     Forall2 (fun kt i => choice (fst kt) (snd kt) = Return i)
       (combine (seq 0 (List.length (_theta s))) (_theta s)) idx).
Proof.
  intros choice s idx cfgs. unfold sample.
  destruct (_stop_exploration s) eqn:Hstop.
  - destruct (traverse np.argmax (_theta s)) as [idx'|] eqn:Ei; simpl;
      [|discriminate].
    destruct (traverse _ (combine idx' (_cfsp s))) as [cfgs'|] eqn:Ec; simpl;
      [|discriminate].
    intros [= <- <-].
    apply traverse_Return in Ei, Ec.
    split; [symmetry; eapply Forall2_length; exact Ei|].
    split; [|discriminate].
    unfold selects. eapply Forall2_impl; [|exact Ec].
    intros a b Hab. apply subscript_Return. exact Hab.
  - destruct (traverse _ (combine (seq 0 _) (_theta s))) as [idx'|] eqn:Ei;
      simpl; [|discriminate].
    destruct (traverse _ (combine idx' (_cfsp s))) as [cfgs'|] eqn:Ec; simpl;
      [|discriminate].
    intros [= <- <-].
    apply traverse_Return in Ei, Ec.
    split.
    { apply Forall2_length in Ei. rewrite length_combine, length_seq in Ei.
      rewrite Nat.min_id in Ei. symmetry; exact Ei. }
    split; [|intros _; exact Ei].
    unfold selects. eapply Forall2_impl; [|exact Ec].
    intros a b Hab. apply subscript_Return. exact Hab.
Qed.

Lemma sample_indices_and_configurations_witness :
  List.length [1%nat] = List.length (_theta frozen_example).
Proof.
  apply (sample_indices_and_configurations (fun _ _ => Return 0%nat)
           frozen_example [1%nat] [[("lr"%string, 2)]]).
  unfold sample. simpl.
  destruct (Rlt_dec (1 / 4) (1 / 2)) as [_|H]; [|exfalso; lra].
  destruct (Rlt_dec (1 / 2) (1 / 4)) as [H|_]; [exfalso; lra|].
  reflexivity.
Defined.

(** ** The direction of a step *)

Lemma combine_maps {A B C D : Type} (f : A -> B) (g : A -> C) (h : A -> D)
    (l : list A) :
  combine (map f l) (combine (map g l) (map h l))
  = map (fun x => (f x, (g x, h x))) l.
Proof.
  induction l as [|x l IH]; simpl; [reflexivity|]. rewrite IH. reflexivity.
Qed.

(** Entry [a] of the gradient only goes down when every tuple that played
    arm [a] has a positive weight and a signal below the baseline, and it
    goes strictly down when some tuple played it. *)
Lemma gradient_sign i th b a p (l : list (list nat * (R * R))) :
  nth_error th a = Some p -> 0 < p ->
  Forall (fun isw => nth_error (fst isw) i = Some a ->
                     0 < snd (snd isw) /\ fst (snd isw) < b) l ->
  forall grad g ga,
    gradient i th b grad l = Return g ->
    nth_error grad a = Some ga ->
    exists ga',
      nth_error g a = Some ga' /\ ga' <= ga /\
      (Exists (fun isw => nth_error (fst isw) i = Some a) l -> ga' < ga).
Proof.
  intros Hp Hpos. induction 1 as [|isw l Hs _ IH]; intros grad g ga; simpl.
  - intros [= <-] Hga. exists ga. split; [exact Hga|]. split; [lra|].
    intros Hex. inversion Hex.
  - unfold accumulate.
    destruct (subscript (fst isw) i) as [a'|] eqn:Ea; simpl; [|discriminate].
    destruct (subscript grad a') as [g0|] eqn:Eg0; simpl; [|discriminate].
    destruct (subscript th a') as [p'|] eqn:Ep; simpl; [|discriminate].
    intros Hg Hga.
    apply subscript_Return in Ea, Eg0, Ep.
    destruct (Nat.eq_dec a' a) as [->|Hne].
    + destruct (Hs Ea) as (Hw & Hlt).
      assert (p' = p) by congruence. subst p'.
      assert (g0 = ga) by congruence. subst g0.
      assert (Hstep : ga + snd (snd isw) * (fst (snd isw) - b) / p < ga).
      { assert (0 < snd (snd isw) * (b - fst (snd isw)) / p).
        { apply Rdiv_lt_0_compat; [|exact Hpos].
          apply Rmult_lt_0_compat; lra. }
        unfold Rdiv in *. nra. }
      destruct (IH _ _ _ Hg
                  (nth_error_setitem_same grad a _
                     (proj1 (nth_error_Some grad a)
                        ltac:(congruence))))
        as (ga' & Hga' & Hle & _).
      exists ga'. split; [exact Hga'|]. split; [lra|]. intros _. lra.
    + destruct (IH _ _ ga Hg) as (ga' & Hga' & Hle & Hstrict).
      { rewrite nth_error_setitem_other by exact Hne. exact Hga. }
      exists ga'. split; [exact Hga'|]. split; [exact Hle|].
      intros Hex. inversion Hex as [? ? Hhd|? ? Htl]; subst.
      * congruence.
      * apply Hstrict. exact Htl.
Qed.

(** The schedules [auto], [constant] and [scale] give a positive step
    size on an aspect with more than one arm. *)
Lemma denominator_step_positive cfg i grad s c :
  In (sched cfg) ["auto"; "constant"; "scale"]%string ->
  (1 < List.length grad)%nat ->
  subscript (_store s) i = Return c -> 0 <= c ->
  exists d s1,
    denominator cfg i grad s = (Return d, s1) /\
    forall e0, 0 < e0 -> 0 < divide e0 d.
Proof.
  intros Hs Hl Hst Hc. unfold denominator.
  destruct Hs as [<-|[<-|[<-|[]]]]; simpl; run_M.
  - rewrite Hst. simpl.
    assert (Hi : (i < List.length (_store s))%nat)
      by (apply subscript_lt in Hst; exact Hst).
    unfold subscript. rewrite (nth_error_setitem_same _ _ _ Hi).
    eexists; eexists. split; [reflexivity|]. simpl.
    intros e0 He. apply Rdiv_lt_0_compat; [exact He|].
    apply sqrt_lt_R0. lra.
  - eexists; eexists. split; [reflexivity|]. simpl.
    intros e0 He. lra.
  - apply Nat.ltb_lt in Hl. rewrite Hl.
    eexists; eexists. split; [reflexivity|]. simpl.
    intros e0 He. apply Nat.ltb_lt in Hl.
    assert (1 < INR (List.length grad)).
    { replace 1 with (INR 1) by reflexivity. apply lt_INR. exact Hl. }
    assert (0 < ln (INR (List.length grad))).
    { rewrite <- ln_1. apply ln_increasing; lra. }
    assert (0 < sqrt (2 * ln (INR (List.length grad))))
      by (apply sqrt_lt_R0; lra).
    apply Rdiv_lt_0_compat; [exact He|].
    apply Rdiv_lt_0_compat; [lra|assumption].
Qed.

Lemma length_vsub (a b : list R) :
  List.length (vsub a b) = Nat.min (List.length a) (List.length b).
Proof. unfold vsub. rewrite length_map. apply length_combine. Qed.

Lemma batch_as_map cfg fbs :
  diff cfg = false ->
  combine (map arms fbs) (combine (signal cfg fbs) (weight fbs))
  = map (fun fb => (arms fb,
                    (loss fb,
                     sample_size fb / np.sum (map sample_size fbs)))) fbs.
Proof.
  intros Hd. unfold signal, after, weight. rewrite Hd, map_map.
  apply (combine_maps arms loss
           (fun fb => sample_size fb / np.sum (map sample_size fbs))).
Qed.

(** A step moves probability towards the arms that did better than the
    baseline: in a round with the [diff] option off and a schedule that
    runs, an arm whose every reported loss is below the baseline gains
    probability relative to any arm that was not played. *)
Theorem better_arm_gains :
  forall (cfg : fedex_cfg) (fbs : list feedback) (s : FedExServer)
         (z : list R) (e0 c : R) (a u : nat),
    diff cfg = false ->
    In (sched cfg) ["auto"; "constant"; "scale"]%string ->
    _stop_exploration s = false ->
    _z s = [z] -> _theta s = [np.exp z] -> (1 < List.length z)%nat ->
    _eta0 s = [e0] -> 0 < e0 ->
    _store s = [c] -> 0 <= c ->
    Forall (fun fb => 0 < sample_size fb) fbs ->
    arms_in_range 0 (List.length z) fbs ->
    Exists (fun fb => nth_error (arms fb) 0 = Some a) fbs ->
    Forall (fun fb => nth_error (arms fb) 0 = Some a ->
                      loss fb < baseline cfg (_trace s)) fbs ->
    unplayed 0 u fbs -> (u < List.length z)%nat ->
    fst (update_policy cfg fbs s) = Return tt /\
    exists th' pa pu pa' pu',
      _theta (after_update cfg fbs s) = [th'] /\
      nth_error (np.exp z) a = Some pa /\
      nth_error (np.exp z) u = Some pu /\
      nth_error th' a = Some pa' /\
      nth_error th' u = Some pu' /\
      pa' * pu > pu' * pa.
Proof.
  intros cfg fbs s z e0 c a u Hd Hs Hstop Hz Ht Hlen He He0 Hst Hc
         Hpos Harms Hex Hbetter Hun Hu.
  set (b := baseline cfg (_trace s)) in *.
  destruct (update_policy_exploring cfg fbs s Hstop)
    as (s0 & r1 & s1 & Hz0 & Ht0 & Hst0 & Hee0 & E & _ & Hta & _ & Hiff & _).
  rewrite Hz, Ht in E. simpl in E. fold b in E.
  assert (Hzs : subscript (_z s0) 0 = Return z)
    by (rewrite Hz0, Hz; reflexivity).
  assert (Hts : subscript (_theta s0) 0 = Return (np.exp z))
    by (rewrite Ht0, Ht; reflexivity).
  destruct (gradient_Return 0 (np.exp z) b
              (combine (map arms fbs) (combine (signal cfg fbs) (weight fbs)))
              (np.zeros (List.length z))) as (grad & Hg & Hgl).
  { unfold np.exp, np.zeros. rewrite length_map, repeat_length. reflexivity. }
  { unfold np.zeros. rewrite repeat_length. apply batch_in_range. exact Harms. }
  unfold np.zeros in Hgl. rewrite repeat_length in Hgl.
  destruct (denominator_step_positive cfg 0 grad s0 c Hs) as (d & s2 & Hden & Hpos_eta);
    [lia|rewrite Hst0, Hst; reflexivity|exact Hc|].
  assert (Hes : subscript (_eta0 s0) 0 = Return e0)
    by (rewrite Hee0, He; reflexivity).
  set (eta := divide e0 d) in *.
  assert (Heta : 0 < eta) by (apply Hpos_eta; exact He0).
  set (X := vsub z (map (Rmult eta) grad)).
  assert (HXl : List.length X = List.length z).
  { unfold X. rewrite length_vsub, length_map, Hgl. apply Nat.min_id. }
  assert (Hl : exists lse, logsumexp X = Return lse).
  { unfold logsumexp. destruct X; [simpl in HXl; lia|eauto]. }
  destruct Hl as (lse & Hl).
  destruct (aspect_step_eq cfg fbs b 0 s0 z (np.exp z) grad d s2 e0 lse
              Hzs Hts Hg Hden Hes Hl) as (s' & Hstep & _ & Et & _).
  fold eta in Et. fold X in Et.
  unfold bindM in E. rewrite Hstep in E. unfold ret in E.
  inversion E; subst r1 s1; clear E.
  rewrite Ht0, Ht in Et. simpl in Et.
  set (th' := np.exp (map (fun x => x - lse) X)) in *.
  assert (Hth'l : List.length th' = List.length z).
  { unfold th', np.exp. rewrite !length_map. exact HXl. }
  split.
  { apply Hiff. split; [reflexivity|]. rewrite Et.
    assert (Hne : th' <> []) by (destruct th'; [simpl in Hth'l; lia|discriminate]).
    destruct (max_nonempty th' Hne) as (m & Hm).
    unfold mle. simpl. rewrite Hm. simpl. eauto. }
  (* the entries of the two arms *)
  assert (Ha : (a < List.length z)%nat).
  { apply Exists_exists in Hex. destruct Hex as (fb & Hfb & Hpl).
    unfold arms_in_range in Harms. rewrite Forall_forall in Harms.
    destruct (Harms fb Hfb) as (a' & Ha' & Hlt). congruence. }
  destruct (nth_error z a) as [za|] eqn:Eza;
    [|apply nth_error_None in Eza; lia].
  destruct (nth_error z u) as [zu|] eqn:Ezu;
    [|apply nth_error_None in Ezu; lia].
  assert (Hfbs : fbs <> []).
  { apply Exists_exists in Hex. destruct Hex as (fb & Hfb & _).
    destruct fbs; [contradiction|discriminate]. }
  pose proof (sum_sizes_pos fbs Hfbs Hpos) as HS.
  destruct (gradient_sign 0 (np.exp z) b a (Rtrigo_def.exp za)
              (combine (map arms fbs) (combine (signal cfg fbs) (weight fbs))))
    with (grad := np.zeros (List.length z)) (g := grad) (ga := 0)
    as (ga & Hga & _ & Hstrict).
  { unfold np.exp. rewrite nth_error_map, Eza. reflexivity. }
  { apply exp_pos. }
  { rewrite (batch_as_map cfg fbs Hd). apply Forall_map.
    apply Forall_forall. intros fb Hfb. cbn [fst snd]. intros Hpl.
    rewrite Forall_forall in Hpos, Hbetter. split.
    - apply Rdiv_lt_0_compat; [apply Hpos; exact Hfb|exact HS].
    - apply Hbetter; assumption. }
  { exact Hg. }
  { unfold np.zeros. apply nth_error_repeat. exact Ha. }
  assert (Hneg : ga < 0).
  { apply Hstrict. rewrite (batch_as_map cfg fbs Hd).
    apply Exists_exists in Hex. destruct Hex as (fb & Hfb & Hpl).
    apply Exists_exists. eexists. split; [apply in_map; exact Hfb|exact Hpl]. }
  assert (Hgu : nth_error grad u = Some 0).
  { rewrite (gradient_unplayed 0 (np.exp z) b u _) with (2 := Hg).
    - unfold np.zeros. apply nth_error_repeat. exact Hu.
    - apply Forall_forall. intros [idx sw] Hin. cbn [fst].
      apply in_combine_l in Hin. apply in_map_iff in Hin.
      destruct Hin as (fb & <- & Hfb).
      unfold unplayed in Hun. rewrite Forall_forall in Hun.
      apply Hun. exact Hfb. }
  exists th', (Rtrigo_def.exp za), (Rtrigo_def.exp zu),
    (Rtrigo_def.exp (za - eta * ga - lse)),
    (Rtrigo_def.exp (zu - eta * 0 - lse)).
  split; [rewrite Hta; exact Et|].
  split; [unfold np.exp; rewrite nth_error_map, Eza; reflexivity|].
  split; [unfold np.exp; rewrite nth_error_map, Ezu; reflexivity|].
  split.
  { unfold th', np.exp, X. rewrite nth_error_map, nth_error_map.
    rewrite (nth_error_vsub z (map (Rmult eta) grad) a za (eta * ga) Eza)
      by (rewrite nth_error_map, Hga; reflexivity).
    reflexivity. }
  split.
  { unfold th', np.exp, X. rewrite nth_error_map, nth_error_map.
    rewrite (nth_error_vsub z (map (Rmult eta) grad) u zu (eta * 0) Ezu)
      by (rewrite nth_error_map, Hgu; reflexivity).
    reflexivity. }
  rewrite <- !exp_plus. apply exp_increasing. nra.
Qed.

Lemma better_arm_gains_witness :
  fst (update_policy (example_cfg true false "auto") [played 0 (-1)]
         (initial three_arms (1 / 3))) = Return tt.
Proof.
  apply (better_arm_gains (example_cfg true false "auto") [played 0 (-1)]
           (initial three_arms (1 / 3)) (np.full 3 (- ln (INR 3)))
           (sqrt (2 * ln (INR 3))) 0 0%nat 1%nat).
  - reflexivity.
  - simpl; auto.
  - reflexivity.
  - reflexivity.
  - reflexivity.
  - simpl; lia.
  - reflexivity.
  - apply sqrt_lt_R0. simpl. replace (1 + 1 + 1) with 3 by lra.
    pose proof ln_3_pos. lra.
  - reflexivity.
  - lra.
  - repeat constructor; simpl; lra.
  - repeat constructor. exists 0%nat. split; [reflexivity|simpl; lia].
  - constructor. reflexivity.
  - repeat constructor. intros _. unfold baseline. simpl. lra.
  - repeat constructor. simpl. discriminate.
  - simpl; lia.
Defined.

(** * Properties of the round coordinator *)

Ltac run_S :=
  unfold bindS, getS, modifyS, retS, failS, emit, on_policy in *;
  simpl in *.

(** ** The feedback handed to the policy *)

Lemma collect_first_model (model_num : nat) (buffer : dict Z reply) :
  forall msg_list mab msgs fbs,
    collect model_num 0 buffer msg_list mab = Done (msgs, fbs) ->
    fbs = mab ++ map (fun kc => mab_feedback (snd kc)) buffer /\
    List.length msgs = (List.length msg_list + List.length buffer)%nat.
Proof.
  induction buffer as [|[cid content] rest IH]; simpl;
    intros msg_list mab msgs fbs.
  - intros [= <- <-]. rewrite app_nil_r. split; [reflexivity|lia].
  - destruct (if Nat.eqb model_num 1 then _ else _) as [msg|e];
      [|discriminate].
    intros H. apply IH in H. destruct H as (-> & Hl).
    rewrite <- app_assoc. split; [reflexivity|].
    rewrite Hl, length_app. simpl. lia.
Qed.

Lemma collect_other_model (model_num model_idx : nat) (buffer : dict Z reply) :
  model_idx <> 0%nat ->
  forall msg_list mab msgs fbs,
    collect model_num model_idx buffer msg_list mab = Done (msgs, fbs) ->
    fbs = mab.
Proof.
  intros Hne. apply Nat.eqb_neq in Hne.
  induction buffer as [|[cid content] rest IH]; simpl;
    intros msg_list mab msgs fbs.
  - intros [= <- <-]. reflexivity.
  - destruct (if Nat.eqb model_num 1 then _ else _) as [msg|e];
      [|discriminate].
    rewrite Hne. apply IH.
Qed.

Lemma aggregate_models_later cfg model_num buffer :
  forall idxs mab srv fbs srv',
    ~ In 0%nat idxs ->
    aggregate_models cfg model_num idxs buffer mab srv = (Done fbs, srv') ->
    fbs = mab.
Proof.
  induction idxs as [|i idxs IH]; simpl; intros mab srv fbs srv' Hnz.
  - unfold retS. intros [= <- _]. reflexivity.
  - destruct (collect model_num i buffer [] mab) as [[msgs fbs0]|e] eqn:Ec;
      [|unfold failS; discriminate].
    apply collect_other_model in Ec; [|intros ->; apply Hnz; left; reflexivity].
    subst fbs0. run_S.
    destruct (existsb _ _); [discriminate|].
    intros H. apply IH in H; [exact H|].
    intros Hin. apply Hnz. right; exact Hin.
Qed.

(** When the loop over the models completes, the policy gets one tuple
    per buffered client, in the order of arrival, made of the sample size,
    the arms and the loss of its reply: the model parameters never reach the
    policy, and further models add nothing.  (With no model at all the batch
    is empty.) *)
Theorem feedback_per_buffered_client :
  forall (cfg : server_cfg) (buffer : dict Z reply) (srv srv' : Server)
         (fbs : list feedback),
    aggregate_models cfg (model_num srv) (seq 0 (model_num srv)) buffer []
      srv = (Done fbs, srv') ->
    fbs = (if Nat.eqb (model_num srv) 0 then []
           else map (fun kc => mab_feedback (snd kc)) buffer) /\
    policy srv' = policy srv /\ state srv' = state srv /\
    msg_buffer_train srv' = msg_buffer_train srv.
Proof.
  intros cfg buffer srv srv' fbs.
  assert (Hframe : forall idxs mab s fb s',
            aggregate_models cfg (model_num srv) idxs buffer mab s
            = (Done fb, s') ->
            policy s' = policy s /\ state s' = state s /\
            msg_buffer_train s' = msg_buffer_train s).
  { induction idxs as [|i idxs IH]; simpl; intros mab s fb s'.
    - unfold retS. intros [= _ <-]. auto.
    - destruct (collect _ _ _ _ _) as [[msgs fbs0]|e];
        [|unfold failS; discriminate].
      run_S. destruct (existsb _ _); [discriminate|].
      intros H. apply IH in H. simpl in H. exact H. }
  intros H. split; [|eapply Hframe; exact H].
  destruct (model_num srv) as [|n] eqn:En; simpl in *.
  - unfold retS in H. injection H as <- _. reflexivity.
  - destruct (collect (S n) 0 buffer [] []) as [[msgs fbs0]|e] eqn:Ec;
      [|unfold failS in H; discriminate].
    apply collect_first_model in Ec. destruct Ec as (-> & _). simpl in H.
    run_S. destruct (existsb _ _); [discriminate|].
    apply aggregate_models_later in H; [exact H|].
    intros Hin. apply in_seq in Hin. lia.
Qed.

Lemma feedback_per_buffered_client_witness :
  exists fbs srv',
    aggregate_models (example_server_cfg "auto" []) 1 (seq 0 1)
      [(1%Z, example_reply 0 1); (2%Z, example_reply 1 2)] []
      (example_server frozen_example) = (Done fbs, srv') /\
    fbs = [mab_feedback (example_reply 0 1); mab_feedback (example_reply 1 2)].
Proof.
  eexists. eexists. split.
  - simpl. run_S. reflexivity.
  - eapply (feedback_per_buffered_client (example_server_cfg "auto" [])
              [(1%Z, example_reply 0 1); (2%Z, example_reply 1 2)]
              (example_server frozen_example)).
    simpl. run_S. reflexivity.
Defined.

(** ** A round, from quorum to the next broadcast *)

Lemma same_but_log_refl srv : same_but_log srv srv.
Proof. unfold same_but_log. tauto. Qed.

Lemma same_but_log_trans s1 s2 s3 :
  same_but_log s1 s2 -> same_but_log s2 s3 -> same_but_log s1 s3.
Proof.
  unfold same_but_log.
  intros (?&?&?&?&?&?&?&?&?&?) (?&?&?&?&?&?&?&?&?&?).
  repeat split; congruence.
Qed.

Lemma sent_app (l1 l2 : list event) : sent (l1 ++ l2) = sent l1 ++ sent l2.
Proof.
  induction l1 as [|e l1 IH]; simpl; [reflexivity|].
  destruct e; simpl; rewrite ?IH; reflexivity.
Qed.

Lemma emit_loop_quiet {A : Type} (f : A -> event) (l : list A) :
  (forall a, sent [f a] = []) ->
  forall srv,
    exists srv',
      for_eachS l (fun a => emit (f a)) srv = (Done tt, srv') /\
      same_but_log srv srv' /\ sent (log srv') = sent (log srv).
Proof.
  intros Hq. induction l as [|a l IH]; intros srv; simpl.
  - exists srv. unfold retS. split; [reflexivity|].
    split; [apply same_but_log_refl|reflexivity].
  - unfold bindS, emit, modifyS. simpl.
    destruct (IH (with_log (log srv ++ [f a]) srv)) as (srv' & Hrun & Hs & Hl).
    exists srv'. split; [exact Hrun|]. split.
    + eapply same_but_log_trans; [|exact Hs].
      unfold same_but_log. simpl. tauto.
    + rewrite Hl. simpl. rewrite sent_app, Hq, app_nil_r. reflexivity.
Qed.

Lemma collect_single (buffer : dict Z reply) :
  forall msg_list mab,
    collect 1 0 buffer msg_list mab
    = Done (msg_list ++ msg_list_of buffer, mab ++ batch_of buffer).
Proof.
  unfold msg_list_of, batch_of.
  induction buffer as [|[cid content] rest IH]; simpl; intros msg_list mab.
  - rewrite !app_nil_r. reflexivity.
  - rewrite IH, <- !app_assoc. reflexivity.
Qed.

Lemma monitors_dissim (l : list string) :
  existsb (String.eqb "dissim") l = true <-> In "dissim"%string l.
Proof.
  rewrite existsb_exists. split.
  - intros (x & Hx & Heq). apply String.eqb_eq in Heq. subst. exact Hx.
  - intros H. exists "dissim"%string. split; [exact H|apply String.eqb_refl].
Qed.

(** With ['dissim'] among the monitored quantities, a training round that
    reaches quorum raises [NameError] on the unbound [calc_blocal_dissim]
    before anything is aggregated: the server is left exactly as it was. *)
Theorem dissim_monitoring_raises :
  forall (ext : collaborators) (cfg : server_cfg) (srv : Server)
         (buffer : dict Z reply),
    In "dissim"%string (eval_monitoring cfg) ->
    check_buffer ext srv (state srv) (sample_client_num srv) false = true ->
    dict_get Z.eqb (state srv) (msg_buffer_train srv) = Some buffer ->
    model_num srv = 1%nat ->
    check_and_move_on ext cfg false srv = (Failed (Py NameError), srv).
Proof.
  intros ext cfg srv buffer Hd Hq Hb Hm.
  apply monitors_dissim in Hd.
  unfold check_and_move_on. run_S. rewrite Hq, Hb, Hm. simpl.
  rewrite collect_single. simpl. unfold failS. rewrite Hd. reflexivity.
Qed.

Lemma dissim_monitoring_raises_witness :
  check_and_move_on example_collaborators
    (example_server_cfg "auto" ["dissim"%string]) false
    (example_server frozen_example)
  = (Failed (Py NameError), example_server frozen_example).
Proof.
  apply (dissim_monitoring_raises example_collaborators
           (example_server_cfg "auto" ["dissim"%string])
           (example_server frozen_example)
           [(1%Z, example_reply 0 1); (2%Z, example_reply 1 2)]).
  - simpl; auto.
  - reflexivity.
  - reflexivity.
  - reflexivity.
Defined.

(** The round up to the update of the policy, for one model and without
    ['dissim']. *)
Lemma check_and_move_on_training ext cfg srv buffer :
  ~ In "dissim"%string (eval_monitoring cfg) ->
  check_buffer ext srv (state srv) (sample_client_num srv) false = true ->
  dict_get Z.eqb (state srv) (msg_buffer_train srv) = Some buffer ->
  model_num srv = 1%nat ->
  check_and_move_on ext cfg false srv
  = match update_policy (hpo_fedex cfg) (batch_of buffer) (policy srv) with
    | (Return _, p) =>
        move_on ext cfg
          (with_state (state srv + 1)
             (with_policy p
                (with_log (log srv ++ [aggregate 0 (msg_list_of buffer)])
                   srv)))
    | (Raise e, p) =>
        (Failed (Py e),
         with_policy p
           (with_log (log srv ++ [aggregate 0 (msg_list_of buffer)]) srv))
    end.
Proof.
  intros Hd Hq Hb Hm.
  assert (Hd' : existsb (String.eqb "dissim") (eval_monitoring cfg) = false).
  { destruct (existsb _ _) eqn:E; [|reflexivity].
    apply monitors_dissim in E. contradiction. }
  unfold check_and_move_on. run_S. rewrite Hq, Hb, Hm. simpl.
  rewrite collect_single. simpl. unfold failS, retS. rewrite Hd'. simpl.
  destruct (update_policy _ _ _) as [[[]|e] p]; reflexivity.
Qed.

(** When the update of the policy raises, the round stalls: the exception
    leaves [check_and_move_on], the round counter is not advanced, the
    buffer of the round is not cleared and nothing is sent. *)
Theorem failed_update_stalls_round :
  forall (ext : collaborators) (cfg : server_cfg) (srv : Server)
         (buffer : dict Z reply) (e : exn),
    ~ In "dissim"%string (eval_monitoring cfg) ->
    check_buffer ext srv (state srv) (sample_client_num srv) false = true ->
    dict_get Z.eqb (state srv) (msg_buffer_train srv) = Some buffer ->
    model_num srv = 1%nat ->
    fst (update_policy (hpo_fedex cfg) (batch_of buffer) (policy srv))
    = Raise e ->
    fst (check_and_move_on ext cfg false srv) = Failed (Py e) /\
    state (snd (check_and_move_on ext cfg false srv)) = state srv /\
    msg_buffer_train (snd (check_and_move_on ext cfg false srv))
    = msg_buffer_train srv /\
    policy (snd (check_and_move_on ext cfg false srv))
    = after_update (hpo_fedex cfg) (batch_of buffer) (policy srv) /\
    sent (log (snd (check_and_move_on ext cfg false srv))) = sent (log srv).
Proof.
  intros ext cfg srv buffer e Hd Hq Hb Hm He.
  rewrite (check_and_move_on_training ext cfg srv buffer Hd Hq Hb Hm).
  unfold after_update.
  destruct (update_policy _ _ _) as [[[]|e'] p]; simpl in *;
    [discriminate|].
  injection He as ->. repeat split; auto.
  rewrite sent_app. simpl. apply app_nil_r.
Qed.

Lemma failed_update_stalls_round_witness :
  state (snd (check_and_move_on example_collaborators
                (example_server_cfg "adaptive" []) false
                (example_server (initial three_arms (1 / 3))))) = 0%Z.
Proof.
  apply (failed_update_stalls_round example_collaborators
           (example_server_cfg "adaptive" [])
           (example_server (initial three_arms (1 / 3)))
           [(1%Z, example_reply 0 1); (2%Z, example_reply 1 2)] NameError).
  - simpl. intros [].
  - reflexivity.
  - reflexivity.
  - reflexivity.
  - unfold update_policy, aspect_step, denominator. run_M. reflexivity.
Defined.

Lemma send_loop ext msg_type srv0 :
  forall (krs : list (nat * Z)) srv,
    same_but_log srv0 srv ->
    exists r srv',
      for_eachS krs
        (fun krcv =>
           srv <-- getS ;;
           sampled <-- on_policy (lift (sample (drawn_arm ext (state srv)
                                                  (fst krcv))
                                          (policy srv))) ;;
           emit (send msg_type [snd krcv] (state srv)
                   (hyper (fst sampled) (snd sampled)))) srv
      = (r, srv') /\
      same_but_log srv0 srv' /\
      (r = Done tt ->
       exists msgs,
         sent (log srv') = sent (log srv) ++ msgs /\
         Forall2 (message_for ext msg_type (state srv0) (policy srv0))
           krs msgs) /\
      ((forall k, exists x,
          sample (drawn_arm ext (state srv0) k) (policy srv0) = Return x) ->
       r = Done tt).
Proof.
  induction krs as [|krcv krs IH]; intros srv Hs; simpl.
  - exists (Done tt), srv. unfold retS. split; [reflexivity|].
    split; [exact Hs|]. split; [|reflexivity].
    intros _. exists []. rewrite app_nil_r.
    split; [reflexivity|constructor].
  - pose proof Hs as (Hp & Hst & _).
    unfold bindS at 1. unfold bindS at 1, getS at 1.
    unfold bindS at 1, on_policy at 1, lift at 1.
    destruct (sample (drawn_arm ext (state srv) (fst krcv)) (policy srv))
      as [[idx cfgs]|e] eqn:Es.
    + unfold emit, modifyS. simpl.
      set (srv1 := with_log _ _).
      assert (Hs1 : same_but_log srv0 srv1).
      { eapply same_but_log_trans; [exact Hs|].
        unfold same_but_log, srv1. simpl. tauto. }
      destruct (IH srv1 Hs1) as (r & srv' & Hrun & Hs' & Hmsgs & Hdone).
      exists r, srv'. split; [exact Hrun|]. split; [exact Hs'|].
      split; [|exact Hdone].
      intros Hr. destruct (Hmsgs Hr) as (msgs & Hl & Hall).
      exists ((msg_type, [snd krcv], state srv, hyper idx cfgs) :: msgs).
      split.
      * rewrite Hl. unfold srv1. simpl. rewrite sent_app. simpl.
        rewrite <- app_assoc. reflexivity.
      * constructor; [|exact Hall].
        exists idx, cfgs. rewrite <- Hp, <- Hst. auto.
    + exists (Failed (Py e)), (with_policy (policy srv) srv).
      split; [reflexivity|]. split.
      { eapply same_but_log_trans; [exact Hs|].
        unfold same_but_log. simpl. tauto. }
      split; [discriminate|].
      intros Hall. destruct (Hall (fst krcv)) as (x & Hx).
      rewrite <- Hp, <- Hst in Hx. congruence.
Qed.

(** A broadcast only writes the log; when it returns, it has sent one
    message per receiver, in order, each with the arms and configurations
    that [sample] returned for that receiver; and it returns when enough
    clients exist and every [sample] does. *)
Lemma broadcast_spec ext cfg msg_type n srv :
  exists r srv',
    broadcast_model_para ext cfg msg_type n srv = (r, srv') /\
    same_but_log srv srv' /\
    (r = Done tt ->
     exists msgs,
       sent (log srv') = sent (log srv) ++ msgs /\
       Forall2 (message_for ext msg_type (state srv) (policy srv))
         (combine (seq 0 (List.length (receivers_of ext srv n)))
            (receivers_of ext srv n)) msgs) /\
    ((n <= client_num srv)%Z ->
     (forall k, exists x,
        sample (drawn_arm ext (state srv) k) (policy srv) = Return x) ->
     r = Done tt).
Proof.
  assert (Hnoise : exists srv1,
            (if has_noise_injector srv && String.eqb msg_type "model_para"
             then for_eachS (seq 0 (model_num srv))
                    (fun i => emit (inject_noise i))
             else retS tt) srv = (Done tt, srv1) /\
            same_but_log srv srv1 /\ sent (log srv1) = sent (log srv)).
  { destruct (_ && _).
    - apply (emit_loop_quiet inject_noise). reflexivity.
    - exists srv. unfold retS. split; [reflexivity|].
      split; [apply same_but_log_refl|reflexivity]. }
  assert (Hreset : forall srv2, exists srv4,
            (if online_aggr cfg
             then for_eachS (seq 0 (model_num srv))
                    (fun i => emit (aggregator_reset i))
             else retS tt) srv2 = (Done tt, srv4) /\
            same_but_log srv2 srv4 /\ sent (log srv4) = sent (log srv2)).
  { intros srv2. destruct (online_aggr cfg).
    - apply (emit_loop_quiet aggregator_reset). reflexivity.
    - exists srv2. unfold retS. split; [reflexivity|].
      split; [apply same_but_log_refl|reflexivity]. }
  assert (Hrest : forall rs,
    exists r srv',
      ((if has_noise_injector srv && String.eqb msg_type "model_para"
        then for_eachS (seq 0 (model_num srv))
               (fun i => emit (inject_noise i))
        else retS tt) ;;;;
       for_eachS (combine (seq 0 (List.length rs)) rs)
         (fun krcv =>
            srv <-- getS ;;
            sampled <-- on_policy (lift (sample (drawn_arm ext (state srv)
                                                   (fst krcv))
                                           (policy srv))) ;;
            emit (send msg_type [snd krcv] (state srv)
                    (hyper (fst sampled) (snd sampled)))) ;;;;
       (if online_aggr cfg
        then for_eachS (seq 0 (model_num srv))
               (fun i => emit (aggregator_reset i))
        else retS tt)) srv = (r, srv') /\
      same_but_log srv srv' /\
      (r = Done tt ->
       exists msgs,
         sent (log srv') = sent (log srv) ++ msgs /\
         Forall2 (message_for ext msg_type (state srv) (policy srv))
           (combine (seq 0 (List.length rs)) rs) msgs) /\
      ((forall k, exists x,
          sample (drawn_arm ext (state srv) k) (policy srv) = Return x) ->
       r = Done tt)).
  { intros rs. destruct Hnoise as (srv1 & Hn & Hs1 & Hl1).
    unfold bindS at 1. rewrite Hn.
    destruct (send_loop ext msg_type srv (combine (seq 0 (List.length rs)) rs)
                srv1 Hs1) as (r & srv2 & Hrun & Hs2 & Hmsgs & Hdone).
    unfold bindS at 1. rewrite Hrun.
    destruct r as [[]|e].
    - destruct (Hreset srv2) as (srv4 & -> & Hs4 & Hl4).
      exists (Done tt), srv4. split; [reflexivity|].
      split; [eapply same_but_log_trans; eassumption|].
      split; [|reflexivity].
      intros _. destruct (Hmsgs eq_refl) as (msgs & Hl & Hall).
      exists msgs. rewrite Hl4, Hl, Hl1. auto.
    - exists (Failed e), srv2. split; [reflexivity|].
      split; [exact Hs2|]. split; [discriminate|exact Hdone]. }
  unfold broadcast_model_para, receivers_of.
  unfold bindS at 1, getS at 1. unfold bindS at 1.
  destruct (Z.ltb 0 n) eqn:En.
  - destruct (Z.ltb (client_num srv) n) eqn:Ec.
    + exists (Failed (Py ValueError)), srv. unfold failS.
      split; [reflexivity|]. split; [apply same_but_log_refl|].
      split; [discriminate|].
      intros Hle. apply Z.ltb_lt in Ec. lia.
    + unfold retS at 1.
      destruct (Hrest (drawn_receivers ext (state srv) (client_num srv) n))
        as (r & srv' & Hrun & Hs & Hmsgs & Hdone).
      exists r, srv'. split; [exact Hrun|]. split; [exact Hs|].
      split; [exact Hmsgs|]. intros _. exact Hdone.
  - unfold retS at 1.
    destruct (Hrest (neighbors srv)) as (r & srv' & Hrun & Hs & Hmsgs & Hdone).
    exists r, srv'. split; [exact Hrun|]. split; [exact Hs|].
    split; [exact Hmsgs|]. intros _. exact Hdone.
Qed.

Lemma same_messages {M : Type} (P : nat * Z -> M -> Prop) (f : Z -> M) :
  (forall krcv m, P krcv m -> m = f (snd krcv)) ->
  forall (rs : list Z) (a : nat) (msgs : list M),
    Forall2 P (combine (seq a (List.length rs)) rs) msgs ->
    msgs = map f rs.
Proof.
  intros HP. induction rs as [|r rs IH]; intros a msgs H; simpl in H.
  - inversion H. reflexivity.
  - inversion H as [|? m ? msgs' Hm Hrest]; subst. simpl.
    rewrite (HP _ _ Hm). simpl. f_equal. apply (IH (S a)). exact Hrest.
Qed.

(** Once exploration has stopped every client is sent the same
    configuration: a broadcast returns, and each receiver gets the arms of
    largest probability (first index) with their candidates. *)
Theorem frozen_broadcast_same_configuration :
  forall (ext : collaborators) (cfg : server_cfg) (msg_type : string)
         (n : Z) (srv : Server),
    _stop_exploration (policy srv) = true ->
    sampleable (policy srv) ->
    (n <= client_num srv)%Z ->
    exists idx cfgs srv',
      broadcast_model_para ext cfg msg_type n srv = (Done tt, srv') /\
      Forall2 first_argmax (_theta (policy srv)) idx /\
      selects (_cfsp (policy srv)) idx cfgs /\
      sent (log srv')
      = sent (log srv)
        ++ map (fun rcv => (msg_type, [rcv], state srv, hyper idx cfgs))
             (receivers_of ext srv n).
Proof.
  intros ext cfg msg_type n srv Hstop Hwf Hn.
  destruct (frozen_sample (_theta (policy srv)) (_cfsp (policy srv)) Hwf)
    as (idx & cfgs & Hi & Hg & Ha & Hsel).
  assert (Hsample : forall choice,
            sample choice (policy srv) = Return (idx, cfgs)).
  { intros choice. unfold sample. rewrite Hstop, Hi. simpl.
    rewrite Hg. reflexivity. }
  destruct (broadcast_spec ext cfg msg_type n srv)
    as (r & srv' & Hrun & _ & Hmsgs & Hdone).
  assert (r = Done tt).
  { apply Hdone; [exact Hn|]. intros k. eexists. apply Hsample. }
  subst r. destruct (Hmsgs eq_refl) as (msgs & Hl & Hall).
  exists idx, cfgs, srv'. split; [exact Hrun|].
  split; [exact Ha|]. split; [exact Hsel|].
  rewrite Hl. f_equal.
  apply (same_messages
           (message_for ext msg_type (state srv) (policy srv))
           (fun rcv => (msg_type, [rcv], state srv, hyper idx cfgs)))
    with (a := 0%nat); [|exact Hall].
  intros krcv m (idx' & cfgs' & Hs' & ->).
  rewrite Hsample in Hs'. injection Hs' as <- <-. reflexivity.
Qed.

Lemma frozen_broadcast_same_configuration_witness :
  exists idx cfgs srv',
    broadcast_model_para example_collaborators (example_server_cfg "auto" [])
      "model_para" 2 (example_server frozen_example) = (Done tt, srv') /\
    sent (log srv')
    = sent (log (example_server frozen_example))
      ++ map (fun rcv => ("model_para"%string, [rcv], 0%Z, hyper idx cfgs))
           (receivers_of example_collaborators
              (example_server frozen_example) 2).
Proof.
  destruct (frozen_broadcast_same_configuration example_collaborators
              (example_server_cfg "auto" []) "model_para" 2
              (example_server frozen_example))
    as (idx & cfgs & srv' & Hrun & _ & _ & Hl).
  - reflexivity.
  - unfold sampleable. simpl.
    constructor; [split; [discriminate|reflexivity]|constructor].
  - simpl; lia.
  - exists idx, cfgs, srv'. split; [exact Hrun|exact Hl].
Defined.

Lemma dict_get_set_same {V : Type} (k : Z) (v : V) (d : dict Z V) :
  dict_get Z.eqb k (dict_set Z.eqb k v d) = Some v.
Proof.
  induction d as [|[k' v'] d IH]; simpl.
  - rewrite Z.eqb_refl. reflexivity.
  - destruct (Z.eqb k k') eqn:E; simpl; rewrite E; [reflexivity|exact IH].
Qed.

Lemma dict_get_set_other {V : Type} (k k0 : Z) (v : V) (d : dict Z V) :
  k0 <> k ->
  dict_get Z.eqb k0 (dict_set Z.eqb k v d) = dict_get Z.eqb k0 d.
Proof.
  intros Hne. induction d as [|[k' v'] d IH]; simpl.
  - destruct (Z.eqb k0 k) eqn:E; [apply Z.eqb_eq in E; contradiction|].
    reflexivity.
  - destruct (Z.eqb k k') eqn:E; simpl.
    + apply Z.eqb_eq in E. subst k'.
      destruct (Z.eqb k0 k) eqn:E0; [apply Z.eqb_eq in E0; contradiction|].
      reflexivity.
    + destruct (Z.eqb k0 k'); [reflexivity|exact IH].
Qed.

Lemma length_dict_set {V : Type} (k : Z) (v : V) (d : dict Z V) :
  List.length (dict_set Z.eqb k v d)
  = match dict_get Z.eqb k d with
    | Some _ => List.length d
    | None => S (List.length d)
    end.
Proof.
  induction d as [|[k' v'] d IH]; simpl; [reflexivity|].
  destruct (Z.eqb k k'); simpl; [reflexivity|].
  rewrite IH. destruct (dict_get Z.eqb k d); reflexivity.
Qed.

Lemma move_on_training (ext : collaborators) (cfg : server_cfg)
    (srv : Server) (buffer : dict Z reply) :
  eval_freq cfg <> 0%Z ->
  (state srv mod eval_freq cfg <> 0)%Z ->
  (state srv < total_round_num srv)%Z ->
  dict_get Z.eqb (state srv - 1)%Z (msg_buffer_train srv) = Some buffer ->
  move_on ext cfg srv
  = broadcast_model_para ext cfg "model_para" (sample_client_num srv)
      (with_buffer
         (dict_set Z.eqb (state srv - 1)%Z [] (msg_buffer_train srv)) srv).
Proof.
  intros Hfreq Hmod Hlt Hb.
  apply Z.eqb_neq in Hfreq. apply Z.eqb_neq in Hmod. apply Z.ltb_lt in Hlt.
  unfold move_on, bindS, getS, retS, modifyS. rewrite Hfreq, Hmod.
  cbn beta iota delta [andb]. rewrite Hlt, Hb. reflexivity.
Qed.

(** A round that goes through and is not the last: when the update of
    the policy returns, no evaluation is due and rounds remain, the counter
    is advanced by one, the policy is the updated one, the buffer of the
    finished round is emptied, and if the broadcast returns it sent one
    message per receiver, carrying the new round number and what [sample]
    returned on the updated policy. *)
Theorem round_advances :
  forall (ext : collaborators) (cfg : server_cfg) (srv : Server)
         (buffer : dict Z reply),
    ~ In "dissim"%string (eval_monitoring cfg) ->
    check_buffer ext srv (state srv) (sample_client_num srv) false = true ->
    dict_get Z.eqb (state srv) (msg_buffer_train srv) = Some buffer ->
    model_num srv = 1%nat ->
    fst (update_policy (hpo_fedex cfg) (batch_of buffer) (policy srv))
    = Return tt ->
    eval_freq cfg <> 0%Z ->
    ((state srv + 1) mod eval_freq cfg <> 0)%Z ->
    (state srv + 1 < total_round_num srv)%Z ->
    let p' := after_update (hpo_fedex cfg) (batch_of buffer) (policy srv) in
    let out := check_and_move_on ext cfg false srv in
    state (snd out) = (state srv + 1)%Z /\
    policy (snd out) = p' /\
    dict_get Z.eqb (state srv) (msg_buffer_train (snd out)) = Some [] /\
    (forall round, round <> state srv ->
       dict_get Z.eqb round (msg_buffer_train (snd out))
       = dict_get Z.eqb round (msg_buffer_train srv)) /\
    (fst out = Done tt ->
     exists msgs,
       sent (log (snd out)) = sent (log srv) ++ msgs /\
       Forall2 (message_for ext "model_para" (state srv + 1) p')
         (combine
            (seq 0 (List.length
                      (receivers_of ext (with_state (state srv + 1) srv)
                         (sample_client_num srv))))
            (receivers_of ext (with_state (state srv + 1) srv)
               (sample_client_num srv))) msgs).
Proof.
  intros ext cfg srv buffer Hd Hq Hb Hm Hret Hfreq Hmod Htotal p' out.
  unfold out, p', after_update.
  rewrite (check_and_move_on_training ext cfg srv buffer Hd Hq Hb Hm).
  destruct (update_policy _ _ _) as [[[]|e] p]; simpl in Hret;
    [|discriminate]. simpl snd.
  set (srv1 := with_state _ _).
  assert (Hkey : (state srv1 - 1 = state srv)%Z) by (simpl; lia).
  rewrite (move_on_training ext cfg srv1 buffer Hfreq Hmod Htotal)
    by (rewrite Hkey; exact Hb).
  set (srv2 := with_buffer _ srv1).
  destruct (broadcast_spec ext cfg "model_para" (sample_client_num srv1) srv2)
    as (r & srv3 & Hrun & Hs & Hmsgs & _).
  rewrite Hrun. simpl fst. simpl snd.
  destruct Hs as (Hp3 & Hst3 & _ & _ & _ & _ & Hb3 & _).
  split; [rewrite Hst3; reflexivity|].
  split; [rewrite Hp3; reflexivity|].
  assert (Hbuf : msg_buffer_train srv2
                 = dict_set Z.eqb (state srv) [] (msg_buffer_train srv)).
  { unfold srv2. simpl.
    replace (state srv + 1 - 1)%Z with (state srv) by lia. reflexivity. }
  split; [rewrite Hb3, Hbuf; apply dict_get_set_same|].
  split.
  { intros round Hne. rewrite Hb3, Hbuf.
    apply dict_get_set_other. exact Hne. }
  intros Hr. destruct (Hmsgs Hr) as (msgs & Hl & Hall).
  exists msgs. split.
  - rewrite Hl. unfold srv2, srv1. simpl. rewrite sent_app. simpl.
    rewrite app_nil_r. reflexivity.
  - exact Hall.
Qed.

Lemma round_advances_witness :
  state (snd (check_and_move_on example_collaborators
                (example_server_cfg "auto" []) false
                (example_server frozen_example))) = 1%Z.
Proof.
  apply (round_advances example_collaborators (example_server_cfg "auto" [])
           (example_server frozen_example)
           [(1%Z, example_reply 0 1); (2%Z, example_reply 1 2)]).
  - simpl. intros [].
  - reflexivity.
  - reflexivity.
  - reflexivity.
  - reflexivity.
  - simpl. discriminate.
  - simpl. discriminate.
  - simpl. lia.
Defined.

(** ** The end of a course *)

Lemma early_stop_silent ext cfg srv :
  (forall v, track_and_check ext v = false) ->
  early_stop ext cfg srv = false.
Proof.
  intros H. unfold early_stop.
  repeat match goal with
         | |- context [match ?x with _ => _ end] => destruct x
         end; auto.
Qed.

(** Away from the last round, and with the stopper silent,
    [check_and_save] does nothing. *)
Lemma check_and_save_idle ext cfg srv :
  early_stop ext cfg srv = false ->
  state srv <> total_round_num srv ->
  check_and_save ext cfg srv = (Done tt, srv).
Proof.
  intros Hs Hne. apply Z.eqb_neq in Hne.
  unfold check_and_save, bindS, getS, retS. rewrite Hs. simpl.
  rewrite Hne. cbv beta iota. rewrite Hne. reflexivity.
Qed.

(** On the last round, with the stopper silent and the policy file
    writable if one is asked for. *)
Lemma check_and_save_last ext cfg srv :
  early_stop ext cfg srv = false ->
  state srv = total_round_num srv ->
  save_to cfg = ""%string \/ open_wb ext (outdir cfg) "policy.npy" = true ->
  exists srv',
    check_and_save ext cfg srv = (Done tt, srv') /\
    state srv' = (total_round_num srv + 1)%Z /\
    total_round_num srv' = total_round_num srv /\
    sent (log srv')
    = sent (log srv)
      ++ [("finish"%string, neighbors srv, total_round_num srv, model_only)].
Proof.
  intros Hs Hlast Hfile. pose proof Hlast as Hb. apply Z.eqb_eq in Hb.
  unfold check_and_save, bindS, getS, retS, modifyS, emit, failS.
  rewrite Hs. simpl. rewrite Hb.
  destruct (String.eqb (save_to cfg) "") eqn:Hsave; simpl.
  - rewrite Hb. eexists. split; [reflexivity|]. simpl.
    split; [lia|]. split; [reflexivity|].
    rewrite !sent_app. simpl. rewrite app_nil_r, Hlast. reflexivity.
  - destruct Hfile as [Hf|Hf].
    + rewrite Hf in Hsave. discriminate.
    + rewrite Hf. simpl. rewrite Hb.
      eexists. split; [reflexivity|]. simpl.
      split; [lia|]. split; [reflexivity|].
      rewrite !sent_app. simpl. rewrite !app_nil_r, Hlast. reflexivity.
Qed.

Lemma check_and_save_repeated_idle ext cfg srv :
  early_stop ext cfg srv = false ->
  state srv <> total_round_num srv ->
  forall n a,
    for_eachS (seq a n) (fun _ => check_and_save ext cfg) srv
    = (Done tt, srv).
Proof.
  intros Hs Hne. induction n as [|n IH]; intros a; simpl.
  - reflexivity.
  - unfold bindS. rewrite (check_and_save_idle ext cfg srv Hs Hne).
    apply IH.
Qed.

(** The clients are told once that the course is over.  As long as the
    early stopper does not fire (and the policy file, if one is asked for,
    can be written), any number of consecutive calls of [check_and_save],
    at least one, returns; the "finish" message is sent to all neighbours
    exactly once if the counter stood on the total number of rounds, and
    not at all otherwise; and the counter is past the total or where it
    was, never on the total. *)
Theorem finish_sent_once :
  forall (ext : collaborators) (cfg : server_cfg) (srv : Server) (n : nat),
    (forall v, track_and_check ext v = false) ->
    save_to cfg = ""%string \/ open_wb ext (outdir cfg) "policy.npy" = true ->
    exists srv',
      for_eachS (seq 0 (S n)) (fun _ => check_and_save ext cfg) srv
      = (Done tt, srv') /\
      sent (log srv')
      = sent (log srv)
        ++ (if Z.eqb (state srv) (total_round_num srv)
            then [("finish"%string, neighbors srv, total_round_num srv,
                   model_only)]
            else []) /\
      state srv'
      = (if Z.eqb (state srv) (total_round_num srv)
         then (total_round_num srv + 1)%Z
         else state srv) /\
      state srv' <> total_round_num srv'.
Proof.
  intros ext cfg srv n Hquiet Hfile.
  destruct (Z.eqb (state srv) (total_round_num srv)) eqn:Hlast.
  - apply Z.eqb_eq in Hlast.
    destruct (check_and_save_last ext cfg srv
                (early_stop_silent ext cfg srv Hquiet) Hlast Hfile)
      as (srv1 & Hrun & Hst & Htot & Hsent).
    assert (Hne : state srv1 <> total_round_num srv1) by lia.
    exists srv1. simpl. unfold bindS. rewrite Hrun.
    rewrite (check_and_save_repeated_idle ext cfg srv1
               (early_stop_silent ext cfg srv1 Hquiet) Hne).
    repeat split; assumption.
  - apply Z.eqb_neq in Hlast. exists srv.
    rewrite (check_and_save_repeated_idle ext cfg srv
               (early_stop_silent ext cfg srv Hquiet) Hlast).
    rewrite app_nil_r. repeat split; assumption.
Qed.

Lemma finish_sent_once_witness :
  exists srv',
    for_eachS (seq 0 3)
      (fun _ => check_and_save example_collaborators
                  (example_server_cfg "auto" []))
      (with_state 3 (example_server frozen_example))
    = (Done tt, srv') /\
    sent (log srv')
    = [("finish"%string, [1%Z; 2%Z], 3%Z, model_only)] /\
    state srv' = 4%Z.
Proof.
  destruct (finish_sent_once example_collaborators
              (example_server_cfg "auto" [])
              (with_state 3 (example_server frozen_example)) 2)
    as (srv' & Hrun & Hsent & Hst & _).
  - reflexivity.
  - right. reflexivity.
  - exists srv'. split; [exact Hrun|]. split; [exact Hsent|exact Hst].
Defined.

(** ** Buffering the replies *)

(** A reply is stored under its round and sender before the quorum is
    looked at: the handler runs [check_and_move_on] on a server whose
    buffer for that round holds the reply under its sender, keeps the
    replies of the other senders and every other round, and has one entry
    more only if the sender had not replied in that round yet (a second
    reply replaces the first).  With online aggregation the reply is also
    handed to the aggregator.  Storing never raises. *)
Theorem reply_is_buffered :
  forall (ext : collaborators) (cfg : server_cfg) (round sender : Z)
         (content : reply) (srv : Server),
    let old :=
      match dict_get Z.eqb round (msg_buffer_train srv) with
      | Some received => received
      | None => []
      end in
    exists srv1 received,
      callback_funcs_model_para ext cfg round sender content srv
      = check_and_move_on ext cfg false srv1 /\
      dict_get Z.eqb round (msg_buffer_train srv1) = Some received /\
      dict_get Z.eqb sender received = Some content /\
      (forall other, other <> sender ->
         dict_get Z.eqb other received = dict_get Z.eqb other old) /\
      List.length received
      = (List.length old
         + match dict_get Z.eqb sender old with
           | Some _ => 0
           | None => 1
           end)%nat /\
      (forall r, r <> round ->
         dict_get Z.eqb r (msg_buffer_train srv1)
         = dict_get Z.eqb r (msg_buffer_train srv)) /\
      policy srv1 = policy srv /\
      state srv1 = state srv /\
      sample_client_num srv1 = sample_client_num srv /\
      model_num srv1 = model_num srv /\
      log srv1
      = log srv
        ++ (if online_aggr cfg
            then [aggregator_inc (r_size content, r_para content)]
            else []).
Proof.
  intros ext cfg round sender content srv old.
  assert (Hlen : List.length (dict_set Z.eqb sender content old)
                 = (List.length old
                    + match dict_get Z.eqb sender old with
                      | Some _ => 0
                      | None => 1
                      end)%nat).
  { rewrite length_dict_set. destruct (dict_get Z.eqb sender old); lia. }
  unfold callback_funcs_model_para, bindS, getS, modifyS, retS, emit.
  unfold old in *. clear old.
  destruct (dict_get Z.eqb round (msg_buffer_train srv)) as [rcv|] eqn:Hr.
  - rewrite Hr.
    destruct (online_aggr cfg); eexists; exists (dict_set Z.eqb sender content rcv);
      (split; [reflexivity|]); simpl;
      (split; [apply dict_get_set_same|]);
      (split; [apply dict_get_set_same|]);
      (split; [intros other Hne; apply dict_get_set_other; exact Hne|]);
      (split; [exact Hlen|]);
      (split; [intros r Hne; apply dict_get_set_other; exact Hne|]);
      rewrite ?app_nil_r; repeat split; reflexivity.
  - simpl. rewrite dict_get_set_same.
    destruct (online_aggr cfg); eexists; exists (dict_set Z.eqb sender content []);
      (split; [reflexivity|]); simpl;
      (split; [apply dict_get_set_same|]);
      (split; [apply (dict_get_set_same sender content [])|]);
      (split; [intros other Hne;
               apply (dict_get_set_other sender other content []); exact Hne|]);
      (split; [exact Hlen|]);
      (split; [intros r Hne; rewrite !dict_get_set_other by exact Hne;
               reflexivity|]);
      rewrite ?app_nil_r; repeat split; reflexivity.
Qed.
